(** * Lead allocation and order lifecycle engine of leadset-admin

    A shallow embedding of the server code that moves leads and orders
    through their life cycle:
    - the order routes [router.post('/')], [router.patch('/:id/fulfill')]
      and [router.delete('/:id')] (order creation with lead allocation,
      fulfilment, deletion);
    - [server/routes/automation.js]: the commands [create_order],
      [fulfill_order], [delete_order] and the one-time rule, whose action
      is fulfill or cancel;
    - [server/routes/leads.js]: the lead status override
      [router.patch('/:id/status')];
    - the sqlite wrapper the routes load as [../database/simple], whose
      [transaction] brackets every multi-statement mutation.

    Modelling conventions.
    - A table is the list of its rows in rowid order; a [SELECT] is a
      [filter], an [UPDATE ... WHERE] a [map] that rewrites the matching
      rows, a [DELETE] a [filter] on the complement.
    - [ORDER BY created_at ASC] is a stable sort of the scanned rows, so
      rows with equal [created_at] keep their rowid order.
    - [datetime("now")] and [CURRENT_TIMESTAMP] read a clock; one handler
      invocation receives its reading as the argument [now].
    - The columns [status] carry a CHECK constraint, hence the enumerations.
    - Region codes are strings compared exactly, ids and timestamps are
      integers.  The caps read from the table are held in a JavaScript
      object, so a region named like a member of [Object.prototype] and
      without an entry of its own reads that member instead of a cap.
    - Every [client.query] may reject: a fault plan tells after how many
      successful statements the store raises a storage error.
    - Handlers run one after another on the single connection. *)

From Stdlib Require Import ZArith List String Ascii Bool Lia.
From Stdlib Require Import Sorting.Sorted Sorting.Permutation.
Import ListNotations.

Local Open Scope string_scope.
Local Open Scope list_scope.
Local Open Scope Z_scope.

(** ** Rows of the three tables *)

Inductive lead_status : Type :=
| Unassigned   (* 'unassigned' *)
| Assigned     (* 'assigned'   *)
| LFulfilled.  (* 'fulfilled'  *)

Inductive order_status : Type :=
| Pending      (* 'pending'   *)
| OFulfilled   (* 'fulfilled' *)
| Cancelled.   (* 'cancelled' *)

Definition lead_status_eqb (a b : lead_status) : bool :=
  match a, b with
  | Unassigned, Unassigned | Assigned, Assigned | LFulfilled, LFulfilled => true
  | _, _ => false
  end.

Definition order_status_eqb (a b : order_status) : bool :=
  match a, b with
  | Pending, Pending | OFulfilled, OFulfilled | Cancelled, Cancelled => true
  | _, _ => false
  end.

(** Table [leads]. *)
Record lead : Type := mkLead {
  l_id         : Z;
  l_name       : string;
  l_email      : string;
  l_phone      : option string;
  l_state      : string;
  l_status     : lead_status;
  l_order_id   : option Z;
  l_created_at : Z;
  l_updated_at : Z
}.

(** Table [orders]. *)
Record order : Type := mkOrder {
  o_id             : Z;
  o_customer_name  : string;
  o_customer_email : string;
  o_status         : order_status;
  o_created_at     : Z;
  o_updated_at     : Z;
  o_fulfilled_at   : option Z
}.

(** The database file: the three tables the engine touches, and the
    [sqlite_sequence] entry that AUTOINCREMENT keeps for [orders] (the
    largest order id ever handed out).  The timestamp columns of
    [state_caps] are never read by the engine and are left out. *)
Record tables : Type := mkTables {
  leads      : list lead;
  orders     : list order;
  state_caps : list (string * Z);
  orders_seq : Z
}.

Definition set_leads (ls : list lead) (t : tables) : tables :=
  mkTables ls (orders t) (state_caps t) (orders_seq t).

Definition set_orders (os : list order) (t : tables) : tables :=
  mkTables (leads t) os (state_caps t) (orders_seq t).

(** ** The SQL statements of the routes *)

Definition opt_Z_eqb (a : option Z) (b : Z) : bool :=
  match a with
  | Some x => x =? b
  | None => false
  end.

(** [INSERT INTO orders (customer_name, customer_email) VALUES (?, ?)]:
    the new row takes the next AUTOINCREMENT id, the default status
    'pending' and the current time; [lastID] is returned. *)
Definition insert_order (customer_name customer_email : string) (now : Z)
                        (t : tables) : Z * tables :=
  let lastID := orders_seq t + 1 in
  (lastID,
   mkTables (leads t)
            (orders t ++ [mkOrder lastID customer_name customer_email
                                  Pending now now None])
            (state_caps t)
            lastID).

(** [SELECT * FROM orders WHERE id = ?] *)
Definition select_order (id : Z) (t : tables) : list order :=
  filter (fun o => o_id o =? id) (orders t).

(** [SELECT state, max_leads FROM state_caps] *)
Definition select_state_caps (t : tables) : list (string * Z) :=
  state_caps t.

(** [Object.fromEntries(rows.map(row => [row.state, row.max_leads]))]:
    a later entry with the same key overrides an earlier one. *)
Fixpoint fromEntries (rows : list (string * Z)) (key : string) : option Z :=
  match rows with
  | [] => None
  | (k, v) :: rest =>
      match fromEntries rest key with
      | Some v' => Some v'
      | None => if String.eqb key k then Some v else None
      end
  end.

(** What a read of a property of the [stateCaps] object yields: the
    number stored under the key, [undefined], or a member that every
    object inherits from [Object.prototype]. *)
Inductive js_value : Type :=
| JsNumber (n : Z)
| JsUndefined
| JsInherited.

Definition object_prototype_names : list string :=
  ["constructor"; "__proto__"; "hasOwnProperty"; "isPrototypeOf";
   "propertyIsEnumerable"; "toLocaleString"; "toString"; "valueOf";
   "__defineGetter__"; "__defineSetter__"; "__lookupGetter__";
   "__lookupSetter__"].

Definition inherited (key : string) : bool :=
  existsb (String.eqb key) object_prototype_names.

(** [stateCaps[state]] *)
Definition get_property (stateCaps : string -> option Z) (key : string)
  : js_value :=
  match stateCaps key with
  | Some n => JsNumber n
  | None => if inherited key then JsInherited else JsUndefined
  end.

(** [stateCaps[state] || 10], read as a number: [undefined] and [0] are
    both falsy; an inherited member is truthy and is not a number, so
    the arithmetic that follows yields NaN, here [None]. *)
Definition or_default (v : js_value) (d : Z) : option Z :=
  match v with
  | JsNumber x => if x =? 0 then Some d else Some x
  | JsUndefined => Some d
  | JsInherited => None
  end.

(** [availableSlots = Math.max(0, maxLeads - currentCount)] followed by
    [leadsToAssign = Math.min(availableSlots, 5)]; NaN stays NaN. *)
Definition leads_to_assign (maxLeads : option Z) (currentCount : Z)
  : option Z :=
  match maxLeads with
  | Some m => Some (Z.min (Z.max 0 (m - currentCount)) 5)
  | None => None
  end.

(** [leadsToAssign > 0], which is false of NaN. *)
Definition positive (x : option Z) : bool :=
  match x with
  | Some v => 0 <? v
  | None => false
  end.

(** The number bound to [LIMIT ?]. *)
Definition number (x : option Z) : Z :=
  match x with
  | Some v => v
  | None => 0
  end.

(** [SELECT COUNT( * ) as count FROM leads WHERE state = ? AND status = ?]
    with the status bound to 'assigned'. *)
Definition is_assigned_in (state : string) (l : lead) : bool :=
  String.eqb (l_state l) state && lead_status_eqb (l_status l) Assigned.

Definition count_assigned (state : string) (t : tables) : Z :=
  Z.of_nat (List.length (filter (is_assigned_in state) (leads t))).

(** [ORDER BY created_at ASC], as a stable insertion sort. *)
Fixpoint insert_by_created_at (x : lead) (sorted : list lead) : list lead :=
  match sorted with
  | [] => [x]
  | y :: ys =>
      if l_created_at x <=? l_created_at y then x :: y :: ys
      else y :: insert_by_created_at x ys
  end.

Fixpoint order_by_created_at (rows : list lead) : list lead :=
  match rows with
  | [] => []
  | x :: xs => insert_by_created_at x (order_by_created_at xs)
  end.

(** [LIMIT ?]: sqlite reads a negative limit as no limit. *)
Definition limit {A : Type} (n : Z) (rows : list A) : list A :=
  if n <? 0 then rows else firstn (Z.to_nat n) rows.

(** [SELECT * FROM leads WHERE state = ? AND status = 'unassigned'
     ORDER BY created_at ASC LIMIT ?] *)
Definition is_unassigned_in (state : string) (l : lead) : bool :=
  String.eqb (l_state l) state && lead_status_eqb (l_status l) Unassigned.

Definition select_oldest_unassigned (state : string) (n : Z) (t : tables)
  : list lead :=
  limit n (order_by_created_at (filter (is_unassigned_in state) (leads t))).

(** [UPDATE leads SET status = 'assigned', order_id = ?,
     updated_at = datetime("now") WHERE id = ?] *)
Definition assign_lead (order_id now : Z) (l : lead) : lead :=
  mkLead (l_id l) (l_name l) (l_email l) (l_phone l) (l_state l)
         Assigned (Some order_id) (l_created_at l) now.

Definition update_lead_assigned (order_id now id : Z) (t : tables) : tables :=
  set_leads (map (fun l => if l_id l =? id then assign_lead order_id now l
                           else l) (leads t)) t.

(** [{ ...lead, status: 'assigned', order_id: order.id }]: the copy pushed
    on [assignedLeads] keeps the [updated_at] that the SELECT returned. *)
Definition assigned_copy (order_id : Z) (l : lead) : lead :=
  mkLead (l_id l) (l_name l) (l_email l) (l_phone l) (l_state l)
         Assigned (Some order_id) (l_created_at l) (l_updated_at l).

(** [UPDATE orders SET status = 'fulfilled', fulfilled_at = datetime("now"),
     updated_at = datetime("now") WHERE id = ?] *)
Definition fulfil_order_row (now : Z) (o : order) : order :=
  mkOrder (o_id o) (o_customer_name o) (o_customer_email o)
          OFulfilled (o_created_at o) now (Some now).

Definition update_order_fulfilled (now id : Z) (t : tables) : tables :=
  set_orders (map (fun o => if o_id o =? id then fulfil_order_row now o
                            else o) (orders t)) t.

(** [UPDATE leads SET status = 'fulfilled', updated_at = datetime("now")
     WHERE order_id = ?] *)
Definition fulfil_lead_row (now : Z) (l : lead) : lead :=
  mkLead (l_id l) (l_name l) (l_email l) (l_phone l) (l_state l)
         LFulfilled (l_order_id l) (l_created_at l) now.

Definition update_leads_fulfilled (now order_id : Z) (t : tables) : tables :=
  set_leads (map (fun l => if opt_Z_eqb (l_order_id l) order_id
                           then fulfil_lead_row now l else l) (leads t)) t.

(** [UPDATE orders SET status = 'cancelled', updated_at = datetime("now")
     WHERE id = ?] *)
Definition cancel_order_row (now : Z) (o : order) : order :=
  mkOrder (o_id o) (o_customer_name o) (o_customer_email o)
          Cancelled (o_created_at o) now (o_fulfilled_at o).

Definition update_order_cancelled (now id : Z) (t : tables) : tables :=
  set_orders (map (fun o => if o_id o =? id then cancel_order_row now o
                            else o) (orders t)) t.

(** [UPDATE leads SET status = 'unassigned', order_id = NULL,
     updated_at = datetime("now") WHERE order_id = ?] *)
Definition release_lead_row (now : Z) (l : lead) : lead :=
  mkLead (l_id l) (l_name l) (l_email l) (l_phone l) (l_state l)
         Unassigned None (l_created_at l) now.

Definition update_leads_released (now order_id : Z) (t : tables) : tables :=
  set_leads (map (fun l => if opt_Z_eqb (l_order_id l) order_id
                           then release_lead_row now l else l) (leads t)) t.

(** [DELETE FROM orders WHERE id = ?] *)
Definition delete_order (id : Z) (t : tables) : tables :=
  set_orders (filter (fun o => negb (o_id o =? id)) (orders t)) t.

(** [UPDATE leads SET status = ?, updated_at = datetime("now") WHERE id = ?];
    the result carries [rowCount], the number of rows changed. *)
Definition restatus_lead_row (status : lead_status) (now : Z) (l : lead) : lead :=
  mkLead (l_id l) (l_name l) (l_email l) (l_phone l) (l_state l)
         status (l_order_id l) (l_created_at l) now.

Definition update_lead_status (status : lead_status) (now id : Z) (t : tables)
  : Z * tables :=
  (Z.of_nat (List.length (filter (fun l => l_id l =? id) (leads t))),
   set_leads (map (fun l => if l_id l =? id then restatus_lead_row status now l
                            else l) (leads t)) t).

(** [SELECT * FROM leads WHERE id = ?] *)
Definition select_lead (id : Z) (t : tables) : list lead :=
  filter (fun l => l_id l =? id) (leads t).

(** ** The connection, its transaction journal and storage faults *)

(** The kinds of failure the handlers raise or answer with. *)
Inductive error : Type :=
| StorageError                   (* a statement rejected by sqlite *)
| ValidationError                (* a required parameter is missing *)
| NotFound                       (* 'Order not found' *)
| AlreadyFulfilled               (* 'Order already fulfilled' *)
| InvalidAction                  (* 'Invalid action. Use "fulfill" or "cancel"' *)
| OneTimeRuleFailed (e : error)  (* 'One Time rule execution failed: ...' *)
| InvalidStatus                  (* 400 'Invalid status' *)
| LeadNotFound                   (* 404 'Lead not found' *)
| TypeError.                     (* a property read on [undefined] *)

Inductive result (A : Type) : Type :=
| Ok (a : A)
| Err (e : error).
Arguments Ok {A} a.
Arguments Err {A} e.

(** The single sqlite connection: the current content of the file, the
    content saved by [BEGIN TRANSACTION] while a transaction is open, and
    the fault plan ([Some n]: the statement after the next [n] fails once). *)
Record world : Type := mkWorld {
  live   : tables;
  saved  : option tables;
  faults : option nat
}.

(** An asynchronous computation over the connection: a rejected promise
    keeps whatever the statements before it wrote. *)
Definition M (A : Type) : Type := world -> result A * world.

Definition ret {A : Type} (a : A) : M A := fun w => (Ok a, w).

Definition throw {A : Type} (e : error) : M A := fun w => (Err e, w).

Definition bind {A B : Type} (m : M A) (k : A -> M B) : M B :=
  fun w => match m w with
           | (Ok a, w') => k a w'
           | (Err e, w') => (Err e, w')
           end.

Notation "x <- m ;; k" := (bind m (fun x => k))
  (at level 61, m at next level, right associativity).
Notation "m ;;; k" := (bind m (fun _ => k))
  (at level 61, right associativity).

(** [try { ... } catch (error) { throw new Error(... error.message) }] *)
Definition rethrow {A : Type} (wrap : error -> error) (m : M A) : M A :=
  fun w => match m w with
           | (Ok a, w') => (Ok a, w')
           | (Err e, w') => (Err (wrap e), w')
           end.

(** [client.query(text, params)] and [db.query(text, params)]: run one
    statement on the live tables unless the fault plan makes it reject. *)
Definition client_query {A : Type} (stmt : tables -> A * tables) : M A :=
  fun w =>
    match faults w with
    | Some O => (Err StorageError, mkWorld (live w) (saved w) None)
    | Some (S n) =>
        let (a, t) := stmt (live w) in (Ok a, mkWorld t (saved w) (Some n))
    | None =>
        let (a, t) := stmt (live w) in (Ok a, mkWorld t (saved w) None)
    end.

Definition reading {A : Type} (q : tables -> A) : tables -> A * tables :=
  fun t => (q t, t).

Definition writing (u : tables -> tables) : tables -> unit * tables :=
  fun t => (tt, u t).

(** [BEGIN TRANSACTION], [COMMIT] and [ROLLBACK] on the connection. *)
Definition db_begin (w : world) : world :=
  mkWorld (live w) (Some (live w)) (faults w).

Definition db_commit (w : world) : world :=
  mkWorld (live w) None (faults w).

Definition db_rollback (w : world) : world :=
  match saved w with
  | Some t => mkWorld t None (faults w)
  | None => w
  end.

(** [Database.transaction(callback)]: BEGIN, run the callback on the mock
    client, COMMIT when its promise resolves, ROLLBACK when it rejects.
    The three bracketing statements themselves are taken to succeed; the
    fault plan bears on the statements of the callback. *)
Definition transaction {A : Type} (callback : M A) : M A :=
  fun w =>
    match callback (db_begin w) with
    | (Ok a, w') => (Ok a, db_commit w')
    | (Err e, w') => (Err e, db_rollback w')
    end.

(** A handler invoked on an idle connection holding [t]. *)
Definition idle (t : tables) (plan : option nat) : world :=
  mkWorld t None plan.

Definition run {A : Type} (m : M A) (t : tables) (plan : option nat)
  : result A * tables :=
  let (r, w) := m (idle t plan) in (r, live w).

(** ** Order creation ([POST /api/orders] and the [create_order] command) *)

(** [['CA', 'NY', 'TX', 'FL', 'IL']] *)
Definition default_states : list string := ["CA"; "NY"; "TX"; "FL"; "IL"].

(** [requested_states || default_states]: only [undefined] (and the other
    falsy values) select the default; an array, even an empty one, is
    truthy. *)
Definition states_or_default (requested_states : option (list string))
  : list string :=
  match requested_states with
  | Some states => states
  | None => default_states
  end.

(** [for (const lead of leadsResult.rows) { UPDATE ...; assignedLeads.push(...) }] *)
Fixpoint assign_rows (order_id now : Z) (rows : list lead)
                     (assignedLeads : list lead) : M (list lead) :=
  match rows with
  | [] => ret assignedLeads
  | lead :: rest =>
      client_query (writing (update_lead_assigned order_id now (l_id lead))) ;;;
      assign_rows order_id now rest
                  (assignedLeads ++ [assigned_copy order_id lead])
  end.

(** [for (const state of states) { ... }] *)
Fixpoint assign_states (stateCaps : string -> option Z) (order_id now : Z)
                       (states : list string) (assignedLeads : list lead)
  : M (list lead) :=
  match states with
  | [] => ret assignedLeads
  | state :: rest =>
      let maxLeads := or_default (get_property stateCaps state) 10 in
      currentCount <- client_query (reading (count_assigned state)) ;;
      let leadsToAssign := leads_to_assign maxLeads currentCount in
      assignedLeads' <-
        (if positive leadsToAssign then
           leadsResult <- client_query
             (reading (select_oldest_unassigned state
                                                (number leadsToAssign))) ;;
           assign_rows order_id now leadsResult assignedLeads
         else ret assignedLeads) ;;
      assign_states stateCaps order_id now rest assignedLeads'
  end.

(** The callback handed to [db.transaction]; the two files carry the same
    text.  [createdOrder.rows[0]] is the row just inserted; were the SELECT
    empty, reading [order.id] would raise. *)
Definition createOrder_callback (customer_name customer_email : string)
    (requested_states : option (list string)) (now : Z)
  : M (order * list lead) :=
  lastID <- client_query (insert_order customer_name customer_email now) ;;
  createdOrder <- client_query (reading (select_order lastID)) ;;
  match createdOrder with
  | [] => throw TypeError
  | order :: _ =>
      capsResult <- client_query (reading select_state_caps) ;;
      let stateCaps := fromEntries capsResult in
      let states := states_or_default requested_states in
      assignedLeads <- assign_states stateCaps (o_id order) now states [] ;;
      ret (order, assignedLeads)
  end.

(** [!customer_name || !customer_email] *)
Definition falsy_string (s : string) : bool :=
  match s with
  | EmptyString => true
  | _ => false
  end.

(** [router.post('/')] of the orders route. *)
Definition createOrder (customer_name customer_email : string)
    (requested_states : option (list string)) (now : Z)
  : M (order * list lead) :=
  if falsy_string customer_name || falsy_string customer_email
  then throw ValidationError
  else transaction (createOrder_callback customer_name customer_email
                                         requested_states now).

(** [createOrderAutomation(params)] *)
Definition createOrderAutomation (customer_name customer_email : string)
    (requested_states : option (list string)) (now : Z)
  : M (order * list lead) :=
  if falsy_string customer_name || falsy_string customer_email
  then throw ValidationError
  else transaction (createOrder_callback customer_name customer_email
                                         requested_states now).

(** ** Fulfilment, cancellation and deletion *)

(** [router.patch('/:id/fulfill')]: the transaction returns
    [updatedOrder.rows[0]], whose timestamps the handler then formats. *)
Definition fulfillOrder_callback (id now : Z) : M (option order) :=
  orderResult <- client_query (reading (select_order id)) ;;
  match orderResult with
  | [] => throw NotFound
  | o :: _ =>
      if order_status_eqb (o_status o) OFulfilled then throw AlreadyFulfilled
      else
        client_query (writing (update_order_fulfilled now id)) ;;;
        client_query (writing (update_leads_fulfilled now id)) ;;;
        updatedOrder <- client_query (reading (select_order id)) ;;
        ret (hd_error updatedOrder)
  end.

Definition fulfillOrder (id now : Z) : M order :=
  updated <- transaction (fulfillOrder_callback id now) ;;
  match updated with
  | Some o => ret o
  | None => throw TypeError
  end.

(** The replies of the automation helpers. *)
Inductive reply : Type :=
| FulfilledSuccessfully (orderId : Z)  (* 'Order fulfilled successfully' *)
| AlreadyFulfilledReply (o : order)    (* 'Order already fulfilled', order *)
| CancelledAndReturned (orderId : Z)   (* 'Order cancelled and leads returned to stock' *)
| AlreadyCancelledReply (o : order)    (* 'Order already cancelled', order *)
| DeletedAndReturned.                  (* 'Order deleted and leads returned to stock' *)

(** [!orderId]: the id is missing, or the number zero. *)
Definition falsy_id (orderId : option Z) : bool :=
  match orderId with
  | Some x => x =? 0
  | None => true
  end.

Definition id_value (orderId : option Z) : Z :=
  match orderId with
  | Some x => x
  | None => 0
  end.

(** [fulfillOrderAutomation(params)] *)
Definition fulfillOrderAutomation (orderId : option Z) (now : Z) : M reply :=
  if falsy_id orderId then throw ValidationError
  else
    let id := id_value orderId in
    transaction (
      orderResult <- client_query (reading (select_order id)) ;;
      match orderResult with
      | [] => throw NotFound
      | o :: _ =>
          if order_status_eqb (o_status o) OFulfilled
          then throw AlreadyFulfilled
          else
            client_query (writing (update_order_fulfilled now id)) ;;;
            client_query (writing (update_leads_fulfilled now id)) ;;;
            ret (FulfilledSuccessfully id)
      end).

(** [router.delete('/:id')] *)
Definition deleteOrder (id : Z) (now : Z) : M reply :=
  transaction (
    orderResult <- client_query (reading (select_order id)) ;;
    match orderResult with
    | [] => throw NotFound
    | _ :: _ =>
        client_query (writing (update_leads_released now id)) ;;;
        client_query (writing (delete_order id)) ;;;
        ret DeletedAndReturned
    end).

(** [deleteOrderAutomation(params)] *)
Definition deleteOrderAutomation (orderId : option Z) (now : Z) : M reply :=
  if falsy_id orderId then throw ValidationError
  else
    let id := id_value orderId in
    transaction (
      orderResult <- client_query (reading (select_order id)) ;;
      match orderResult with
      | [] => throw NotFound
      | _ :: _ =>
          client_query (writing (update_leads_released now id)) ;;;
          client_query (writing (delete_order id)) ;;;
          ret DeletedAndReturned
      end).

(** [action.toLowerCase()], on the ASCII letters. *)
Definition lower_ascii (c : ascii) : ascii :=
  let n := nat_of_ascii c in
  if (Nat.leb 65 n && Nat.leb n 90)%bool then ascii_of_nat (n + 32) else c.

Fixpoint toLowerCase (s : string) : string :=
  match s with
  | EmptyString => EmptyString
  | String c rest => String (lower_ascii c) (toLowerCase rest)
  end.

(** [executeOneTimeRule(params)] *)
Definition executeOneTimeRule (orderId : option Z) (action : string) (now : Z)
  : M reply :=
  if falsy_id orderId || falsy_string action then throw ValidationError
  else
    let id := id_value orderId in
    rethrow OneTimeRuleFailed (transaction (
      orderResult <- client_query (reading (select_order id)) ;;
      match orderResult with
      | [] => throw NotFound
      | order :: _ =>
          if String.eqb (toLowerCase action) "fulfill" then
            if order_status_eqb (o_status order) OFulfilled
            then ret (AlreadyFulfilledReply order)
            else
              client_query (writing (update_order_fulfilled now id)) ;;;
              client_query (writing (update_leads_fulfilled now id)) ;;;
              ret (FulfilledSuccessfully id)
          else if String.eqb (toLowerCase action) "cancel" then
            if order_status_eqb (o_status order) Cancelled
            then ret (AlreadyCancelledReply order)
            else
              client_query (writing (update_order_cancelled now id)) ;;;
              client_query (writing (update_leads_released now id)) ;;;
              ret (CancelledAndReturned id)
          else throw InvalidAction
      end)).

(** ** The lead status override ([PATCH /api/leads/:id/status]) *)

(** [['unassigned', 'assigned', 'fulfilled'].includes(status)] *)
Definition parse_lead_status (status : string) : option lead_status :=
  if String.eqb status "unassigned" then Some Unassigned
  else if String.eqb status "assigned" then Some Assigned
  else if String.eqb status "fulfilled" then Some LFulfilled
  else None.

(** The handler runs its two statements on the bare connection, outside
    any transaction; every exception is answered with a 500. *)
Definition updateLeadStatus (id : Z) (status : option string) (now : Z)
  : M lead :=
  match status with
  | None => throw InvalidStatus
  | Some s =>
      match parse_lead_status s with
      | None => throw InvalidStatus
      | Some st =>
          rowCount <- client_query (update_lead_status st now id) ;;
          if rowCount =? 0 then throw LeadNotFound
          else
            updatedLead <- client_query (reading (select_lead id)) ;;
            match updatedLead with
            | [] => throw TypeError
            | l :: _ => ret l
            end
      end
  end.

(** ** The engine as a whole *)

(** The calls that reach the transactional engine: the three order routes
    and the automation commands that mutate. *)
Inductive request : Type :=
| CreateOrder (customer_name customer_email : string)
              (requested_states : option (list string))
| CreateOrderCommand (customer_name customer_email : string)
                     (requested_states : option (list string))
| FulfillOrder (id : Z)
| FulfillOrderCommand (orderId : option Z)
| DeleteOrder (id : Z)
| DeleteOrderCommand (orderId : option Z)
| OneTimeRule (orderId : option Z) (action : string).

Inductive response : Type :=
| OrderCreated (o : order) (assignedLeads : list lead)
| OrderFulfilled (o : order)
| Replied (r : reply).

Definition handle (r : request) (now : Z) : M response :=
  match r with
  | CreateOrder n e s =>
      p <- createOrder n e s now ;; ret (OrderCreated (fst p) (snd p))
  | CreateOrderCommand n e s =>
      p <- createOrderAutomation n e s now ;; ret (OrderCreated (fst p) (snd p))
  | FulfillOrder id =>
      o <- fulfillOrder id now ;; ret (OrderFulfilled o)
  | FulfillOrderCommand orderId =>
      r <- fulfillOrderAutomation orderId now ;; ret (Replied r)
  | DeleteOrder id =>
      r <- deleteOrder id now ;; ret (Replied r)
  | DeleteOrderCommand orderId =>
      r <- deleteOrderAutomation orderId now ;; ret (Replied r)
  | OneTimeRule orderId action =>
      r <- executeOneTimeRule orderId action now ;; ret (Replied r)
  end.

(** The tables left behind by one call. *)
Definition after (r : request) (now : Z) (plan : option nat) (t : tables)
  : tables :=
  snd (run (handle r now) t plan).

(** States reachable from [t0] by engine calls issued one after another,
    at any clock readings and under any fault plans. *)
Inductive reachable (t0 : tables) : tables -> Prop :=
| reach_start : reachable t0 t0
| reach_call (t : tables) (r : request) (now : Z) (plan : option nat) :
    reachable t0 t -> reachable t0 (after r now plan t).

(** The same, with the lead status override among the calls. *)
Inductive reachable_with_override (t0 : tables) : tables -> Prop :=
| reach_o_start : reachable_with_override t0 t0
| reach_o_call (t : tables) (r : request) (now : Z) (plan : option nat) :
    reachable_with_override t0 t ->
    reachable_with_override t0 (after r now plan t)
| reach_o_override (t : tables) (id : Z) (status : option string) (now : Z)
                   (plan : option nat) :
    reachable_with_override t0 t ->
    reachable_with_override t0
      (snd (run (updateLeadStatus id status now) t plan)).

(** ** Reading of the loops when no statement fails *)

Definition mem_id (x : Z) (ids : list Z) : bool := existsb (Z.eqb x) ids.

(** The rows one pass of the region loop selects on tables [t]. *)
Definition pass_rows (stateCaps : string -> option Z) (state : string)
                     (t : tables) : list lead :=
  let maxLeads := or_default (get_property stateCaps state) 10 in
  let currentCount := count_assigned state t in
  let leadsToAssign := leads_to_assign maxLeads currentCount in
  if positive leadsToAssign
  then select_oldest_unassigned state (number leadsToAssign) t
  else [].

(** The tables once every lead whose id is among [ids] went through the
    assigning UPDATE. *)
Definition mark_assigned (order_id now : Z) (ids : list Z) (t : tables)
  : tables :=
  set_leads (map (fun l => if mem_id (l_id l) ids
                           then assign_lead order_id now l else l)
                 (leads t)) t.

Fixpoint allocate (stateCaps : string -> option Z) (order_id now : Z)
                  (states : list string) (assignedLeads : list lead)
                  (t : tables) : list lead * tables :=
  match states with
  | [] => (assignedLeads, t)
  | state :: rest =>
      let rows := pass_rows stateCaps state t in
      allocate stateCaps order_id now rest
               (assignedLeads ++ map (assigned_copy order_id) rows)
               (mark_assigned order_id now (map l_id rows) t)
  end.

(** ** Vocabulary of the specification *)

(** [cap(R)]: the configured [max_leads] entry of the region, or the
    default 10 when the region has no entry. *)
Definition cap (t : tables) (R : string) : Z :=
  match fromEntries (state_caps t) R with
  | Some v => v
  | None => 10
  end.

(** The cap bound of a region; a cap below zero allows no assigned lead,
    so the count is compared with [max(0, cap(R))]. *)
Definition cap_bound (R : string) (t : tables) : Prop :=
  count_assigned R t <= Z.max 0 (cap t R).

(** The Unassigned leads of a region. *)
Definition unassigned_in (R : string) (t : tables) : list lead :=
  filter (is_unassigned_in R) (leads t).

(** Oldest first by created timestamp, ties broken by identity ascending:
    the order of the specification, as an insertion sort on the pair
    (created_at, id). *)
Definition older_or_same (a b : lead) : bool :=
  (l_created_at a <? l_created_at b)
  || ((l_created_at a =? l_created_at b) && (l_id a <=? l_id b)).

Fixpoint insert_oldest_first (x : lead) (sorted : list lead) : list lead :=
  match sorted with
  | [] => [x]
  | y :: ys =>
      if older_or_same x y then x :: y :: ys
      else y :: insert_oldest_first x ys
  end.

Fixpoint oldest_first (rows : list lead) : list lead :=
  match rows with
  | [] => []
  | x :: xs => insert_oldest_first x (oldest_first xs)
  end.

(** [toAssign = min(max(0, cap - currentAssignedCount), perRegionBatchLimit)] *)
Definition toAssign (t : tables) (R : string) : Z :=
  Z.min (Z.max 0 (cap t R - count_assigned R t)) 5.

(** Lead ids are the primary key of [leads], handed out in increasing
    order, and the table is scanned in that order. *)
Definition ids_unique (t : tables) : Prop := NoDup (map l_id (leads t)).

Definition ids_increasing (t : tables) : Prop :=
  StronglySorted Z.lt (map l_id (leads t)).

(** No lead refers to an order id that AUTOINCREMENT has not handed out
    yet. *)
Definition refs_issued (t : tables) : Prop :=
  Forall (fun l => forall x, l_order_id l = Some x -> x <= orders_seq t)
         (leads t).

(** Two versions of a lead that allocation cannot tell apart. *)
Definition same_for_allocation (a b : lead) : Prop :=
  l_id a = l_id b /\ l_state a = l_state b /\ l_status a = l_status b
  /\ l_created_at a = l_created_at b.

(** What order creation may do to one row: nothing, or assign it if it
    was Unassigned. *)
Definition kept_or_assigned (order_id now : Z) (l l' : lead) : Prop :=
  l' = l \/ (l_status l = Unassigned /\ l' = assign_lead order_id now l).

(** The status of the order a handler would load for [id]: the first row
    of [SELECT * FROM orders WHERE id = ?]. *)
Definition order_status_of (id : Z) (t : tables) : option order_status :=
  option_map o_status (hd_error (select_order id t)).

(** The leads that refer to order [id]. *)
Definition leads_of_order (id : Z) (t : tables) : list lead :=
  filter (fun l => opt_Z_eqb (l_order_id l) id) (leads t).

(** What cancelling or deleting order [id] does to one lead row: a row
    that referred to the order goes back to stock, any other row stays. *)
Definition returned_to_stock (id : Z) (l l' : lead) : Prop :=
  l_id l' = l_id l
  /\ (l_order_id l = Some id ->
      l_status l' = Unassigned /\ l_order_id l' = None)
  /\ (l_order_id l <> Some id -> l' = l).

(** What the status override does to one lead row: the row with the
    given id takes the new status and the current time and keeps every
    other column, its order reference included; any other row stays. *)
Definition status_overridden (id : Z) (st : lead_status) (now : Z)
                             (l l' : lead) : Prop :=
  (l_id l <> id -> l' = l)
  /\ (l_id l = id ->
      l_status l' = st /\ l_updated_at l' = now
      /\ l_order_id l' = l_order_id l
      /\ l_id l' = l_id l /\ l_name l' = l_name l /\ l_email l' = l_email l
      /\ l_phone l' = l_phone l /\ l_state l' = l_state l
      /\ l_created_at l' = l_created_at l).

(** The ids of the leads an order creation reports as assigned. *)
Definition assigned_ids (r : result (order * list lead) * tables) : list Z :=
  match fst r with
  | Ok (_, assignedLeads) => map l_id assignedLeads
  | Err _ => []
  end.

(** ** Example databases *)

Definition sample_lead (id : Z) (state : string) (status : lead_status)
                       (order_id : option Z) (created_at : Z) : lead :=
  mkLead id "Lead" "lead@example.com" None state status order_id
         created_at created_at.

(** Region CA capped at 2, three Unassigned CA leads created at 1, 2, 3. *)
Definition scenario_CA : tables :=
  mkTables [sample_lead 1 "CA" Unassigned None 1;
            sample_lead 2 "CA" Unassigned None 2;
            sample_lead 3 "CA" Unassigned None 3]
           [] [("CA", 2)] 0.

(** Region CA capped at 10 with a single Unassigned lead. *)
Definition small_pool : tables :=
  mkTables [sample_lead 1 "CA" Unassigned None 1] [] [("CA", 10)] 0.

(** Region CA capped at 1 with two Unassigned leads. *)
Definition tight_cap : tables :=
  mkTables [sample_lead 1 "CA" Unassigned None 1;
            sample_lead 2 "CA" Unassigned None 2]
           [] [("CA", 1)] 0.

(** Order 1 is Fulfilled and holds lead 1; order 2 is Cancelled. *)
Definition settled : tables :=
  mkTables [sample_lead 1 "CA" LFulfilled (Some 1) 1;
            sample_lead 2 "CA" Unassigned None 2]
           [mkOrder 1 "Ann" "ann@example.com" OFulfilled 10 20 (Some 20);
            mkOrder 2 "Bob" "bob@example.com" Cancelled 11 21 None]
           [("CA", 10)] 2.

(** One lead in each default region, no cap entries. *)
Definition five_regions : tables :=
  mkTables [sample_lead 1 "CA" Unassigned None 1;
            sample_lead 2 "NY" Unassigned None 1;
            sample_lead 3 "TX" Unassigned None 1;
            sample_lead 4 "FL" Unassigned None 1;
            sample_lead 5 "IL" Unassigned None 1]
           [] [] 0.

(** Region CA capped at -1 with one Unassigned lead. *)
Definition negative_cap : tables :=
  mkTables [sample_lead 1 "CA" Unassigned None 1] [] [("CA", -1)] 0.

(** A lead whose region is named like a method of every object; the
    region has no cap entry. *)
Definition odd_region : tables :=
  mkTables [sample_lead 1 "toString" Unassigned None 1] [] [] 0.

(** Region WA capped at 0 with one Unassigned lead. *)
Definition zero_cap : tables :=
  mkTables [sample_lead 1 "WA" Unassigned None 1] [] [("WA", 0)] 0.

(** The database as [createTables] leaves it on first start: the caps of
    the five default regions at 10 and ten sample leads, two per region,
    all stamped with the time of the start. *)
Definition seeded (boot : Z) : tables :=
  mkTables
    [mkLead 1 "John Smith" "john.smith@email.com" (Some "555-0101") "CA"
            Unassigned None boot boot;
     mkLead 2 "Jane Doe" "jane.doe@email.com" (Some "555-0102") "CA"
            Unassigned None boot boot;
     mkLead 3 "Bob Johnson" "bob.johnson@email.com" (Some "555-0103") "NY"
            Unassigned None boot boot;
     mkLead 4 "Alice Brown" "alice.brown@email.com" (Some "555-0104") "NY"
            Unassigned None boot boot;
     mkLead 5 "Charlie Wilson" "charlie.wilson@email.com" (Some "555-0105")
            "TX" Unassigned None boot boot;
     mkLead 6 "Diana Davis" "diana.davis@email.com" (Some "555-0106") "TX"
            Unassigned None boot boot;
     mkLead 7 "Eve Miller" "eve.miller@email.com" (Some "555-0107") "FL"
            Unassigned None boot boot;
     mkLead 8 "Frank Garcia" "frank.garcia@email.com" (Some "555-0108") "FL"
            Unassigned None boot boot;
     mkLead 9 "Grace Lee" "grace.lee@email.com" (Some "555-0109") "IL"
            Unassigned None boot boot;
     mkLead 10 "Henry Taylor" "henry.taylor@email.com" (Some "555-0110") "IL"
            Unassigned None boot boot]
    []
    [("CA", 10); ("NY", 10); ("TX", 10); ("FL", 10); ("IL", 10)]
    0.

(** ** The other handlers of the routes *)

(** The text of a status column. *)
Definition lead_status_text (st : lead_status) : string :=
  match st with
  | Unassigned => "unassigned"
  | Assigned => "assigned"
  | LFulfilled => "fulfilled"
  end.

Definition order_status_text (st : order_status) : string :=
  match st with
  | Pending => "pending"
  | OFulfilled => "fulfilled"
  | Cancelled => "cancelled"
  end.

(** [ORDER BY created_at DESC], as a stable sort: rows with equal
    [created_at] keep their scan order. *)
Fixpoint insert_newest_first {A : Type} (created_at : A -> Z) (x : A)
                             (sorted : list A) : list A :=
  match sorted with
  | [] => [x]
  | y :: ys =>
      if created_at y <=? created_at x then x :: y :: ys
      else y :: insert_newest_first created_at x ys
  end.

Fixpoint order_by_created_at_desc {A : Type} (created_at : A -> Z)
                                  (rows : list A) : list A :=
  match rows with
  | [] => []
  | x :: xs =>
      insert_newest_first created_at x (order_by_created_at_desc created_at xs)
  end.

(** *** Creating a lead ([router.post('/')] of the leads route) *)

(** The id AUTOINCREMENT hands to the next lead.  No statement of the
    application deletes a lead, so the [sqlite_sequence] entry of [leads]
    is the largest id in the table. *)
Definition next_lead_id (t : tables) : Z :=
  fold_right Z.max 0 (map l_id (leads t)) + 1.

(** [INSERT INTO leads (name, email, phone, state) VALUES (?, ?, ?, ?)]:
    status, order_id and the timestamps take their defaults. *)
Definition insert_lead (name email : string) (phone : option string)
                       (state : string) (now : Z) (t : tables) : Z * tables :=
  let lastID := next_lead_id t in
  (lastID,
   set_leads (leads t ++ [mkLead lastID name email phone state
                                 Unassigned None now now]) t).

(** The handler runs its two statements on the bare connection; every
    exception is answered with a 500. *)
Definition createLead (name email : string) (phone : option string)
                      (state : string) (now : Z) : M lead :=
  if falsy_string name || falsy_string email || falsy_string state
  then throw ValidationError
  else
    lastID <- client_query (insert_lead name email phone state now) ;;
    insertedLead <- client_query (reading (select_lead lastID)) ;;
    match insertedLead with
    | [] => throw TypeError
    | l :: _ => ret l
    end.

(** *** Reading one order ([router.get('/:id')] of the orders route) *)

(** [SELECT * FROM leads WHERE order_id = ? ORDER BY created_at ASC] *)
Definition select_leads_of_order (id : Z) (t : tables) : list lead :=
  order_by_created_at (filter (fun l => opt_Z_eqb (l_order_id l) id) (leads t)).

(** The order and its leads, as handed to the timestamp formatting. *)
Definition getOrder (id : Z) : M (order * list lead) :=
  orderResult <- client_query (reading (select_order id)) ;;
  match orderResult with
  | [] => throw NotFound
  | o :: _ =>
      leadsResult <- client_query (reading (select_leads_of_order id)) ;;
      ret (o, leadsResult)
  end.

(** *** The reading commands of the automation route *)

(** [COUNT(l.id)] of the group of an order in
    [orders o LEFT JOIN leads l ON o.id = l.order_id GROUP BY o.id]. *)
Definition lead_count (o : order) (t : tables) : Z :=
  Z.of_nat (List.length (filter (fun l => opt_Z_eqb (l_order_id l) (o_id o))
                                (leads t))).

(** [if (status) { whereClause = 'WHERE o.status = ?' }]: an absent or
    empty status does not filter. *)
Definition order_matches (status : string) (o : order) : bool :=
  falsy_string status || String.eqb (order_status_text (o_status o)) status.

(** [limit = 10] in the destructuring pattern. *)
Definition limit_or_default (l : option Z) : Z :=
  match l with
  | Some n => n
  | None => 10
  end.

(** [SELECT o.*, COUNT(l.id) as lead_count FROM orders o LEFT JOIN leads l
     ON o.id = l.order_id (WHERE o.status = ?) GROUP BY o.id
     ORDER BY o.created_at DESC LIMIT ?]; order ids are the primary key,
    so every order is a group of its own. *)
Definition select_orders_with_count (status : string) (n : Z) (t : tables)
  : list (order * Z) :=
  limit n (order_by_created_at_desc (fun r => o_created_at (fst r))
             (map (fun o => (o, lead_count o t))
                  (filter (order_matches status) (orders t)))).

(** [getOrdersAutomation(params)] *)
Definition getOrdersAutomation (status : string) (l : option Z)
  : M (list (order * Z)) :=
  client_query (reading (select_orders_with_count status (limit_or_default l))).

(** [whereConditions]: each of status and state filters when present. *)
Definition lead_matches (status state : string) (l : lead) : bool :=
  (falsy_string status || String.eqb (lead_status_text (l_status l)) status)
  && (falsy_string state || String.eqb (l_state l) state).

(** [SELECT * FROM leads (WHERE status = ? AND state = ?)
     ORDER BY created_at DESC LIMIT ?] *)
Definition select_leads_filtered (status state : string) (n : Z) (t : tables)
  : list lead :=
  limit n (order_by_created_at_desc l_created_at
             (filter (lead_matches status state) (leads t))).

(** [getLeadsAutomation(params)] *)
Definition getLeadsAutomation (status state : string) (l : option Z)
  : M (list lead) :=
  client_query (reading (select_leads_filtered status state
                                               (limit_or_default l))).

(** *** The automation dispatcher ([router.post('/execute')]) *)

(** The [params] object of a request; a field that is absent and a field
    that is the empty string are both falsy, which is all the helpers test. *)
Record params : Type := mkParams {
  p_customer_name    : string;
  p_customer_email   : string;
  p_requested_states : option (list string);
  p_orderId          : option Z;
  p_action           : string;
  p_status           : string;
  p_state            : string;
  p_limit            : option Z
}.

(** What a helper returns. *)
Inductive command_result : Type :=
| CreatedResult (o : order) (assignedLeads : list lead)
| MessageResult (r : reply)
| OrdersResult (rows : list (order * Z))
| LeadsResult (rows : list lead).

(** The answer of the dispatcher. *)
Inductive answer : Type :=
| Answer200 (result : command_result)   (* success: true *)
| Answer400Required                     (* 'Command is required' *)
| Answer400Unknown                      (* 'Unknown command' *)
| Answer500 (e : error).                (* success: false *)

(** A helper applied to [params]; destructuring an absent [params]
    raises. *)
Definition with_params {A : Type} (p : option params) (helper : params -> M A)
  : M A :=
  match p with
  | Some ps => helper ps
  | None => throw TypeError
  end.

(** The [switch (command.toLowerCase())]; [None] is the default branch. *)
Definition dispatch (command : string) (p : option params) (now : Z)
  : option (M command_result) :=
  let c := toLowerCase command in
  if String.eqb c "create_order" then
    Some (r <- with_params p (fun ps =>
                 createOrderAutomation (p_customer_name ps)
                   (p_customer_email ps) (p_requested_states ps) now) ;;
          ret (CreatedResult (fst r) (snd r)))
  else if String.eqb c "fulfill_order" then
    Some (r <- with_params p (fun ps =>
                 fulfillOrderAutomation (p_orderId ps) now) ;;
          ret (MessageResult r))
  else if String.eqb c "delete_order" then
    Some (r <- with_params p (fun ps =>
                 deleteOrderAutomation (p_orderId ps) now) ;;
          ret (MessageResult r))
  else if String.eqb c "get_orders" then
    Some (r <- with_params p (fun ps =>
                 getOrdersAutomation (p_status ps) (p_limit ps)) ;;
          ret (OrdersResult r))
  else if String.eqb c "get_leads" then
    Some (r <- with_params p (fun ps =>
                 getLeadsAutomation (p_status ps) (p_state ps) (p_limit ps)) ;;
          ret (LeadsResult r))
  else if String.eqb c "one_time_rule" then
    Some (r <- with_params p (fun ps =>
                 executeOneTimeRule (p_orderId ps) (p_action ps) now) ;;
          ret (MessageResult r))
  else None.

(** The handler: it answers every request and lets no exception out. *)
Definition execute (command : string) (p : option params) (now : Z)
                   (w : world) : answer * world :=
  if falsy_string command then (Answer400Required, w)
  else
    match dispatch command p now with
    | None => (Answer400Unknown, w)
    | Some helper =>
        match helper w with
        | (Ok r, w') => (Answer200 r, w')
        | (Err e, w') => (Answer500 e, w')
        end
    end.

(** *** Setting caps ([router.put('/caps')] of the leads route) *)

(** A statement that sqlite may refuse on the content of the tables. *)
Definition client_query_checked {A : Type}
    (stmt : tables -> option (A * tables)) : M A :=
  fun w =>
    match faults w with
    | Some O => (Err StorageError, mkWorld (live w) (saved w) None)
    | Some (S n) =>
        match stmt (live w) with
        | Some (a, t) => (Ok a, mkWorld t (saved w) (Some n))
        | None => (Err StorageError, mkWorld (live w) (saved w) (Some n))
        end
    | None =>
        match stmt (live w) with
        | Some (a, t) => (Ok a, mkWorld t (saved w) None)
        | None => (Err StorageError, w)
        end
    end.

Definition has_cap_entry (state : string) (t : tables) : bool :=
  existsb (fun row => String.eqb (fst row) state) (state_caps t).

(** [INSERT INTO state_caps (state, max_leads) VALUES (?, ?)
     ON CONFLICT (state) DO UPDATE SET max_leads = ?, updated_at = ...]
    run with the two parameters [[state, maxLeads]]: the third placeholder
    stays unbound, that is NULL.  Without a row for the state the row is
    inserted; with one, the update would store NULL in the NOT NULL column
    [max_leads] and sqlite refuses the statement. *)
Definition upsert_cap (state : string) (maxLeads : Z) (t : tables)
  : option (unit * tables) :=
  if has_cap_entry state t then None
  else Some (tt, mkTables (leads t) (orders t)
                          (state_caps t ++ [(state, maxLeads)])
                          (orders_seq t)).

(** [for (const [state, maxLeads] of Object.entries(caps)) { ... }] *)
Fixpoint upsert_caps (entries : list (string * Z)) : M unit :=
  match entries with
  | [] => ret tt
  | (state, maxLeads) :: rest =>
      client_query_checked (upsert_cap state maxLeads) ;;;
      upsert_caps rest
  end.

(** The handler; [caps] is given by its entries, [None] when the body
    carries no caps object. *)
Definition setCaps (caps : option (list (string * Z))) : M unit :=
  match caps with
  | None => throw ValidationError
  | Some entries => transaction (upsert_caps entries)
  end.

(** *** Start-up ([createTables] of the sqlite [Database]) *)

(** One row of [INSERT OR IGNORE INTO state_caps (state, max_leads)
    VALUES ...]: [state] is the primary key, and a row whose state is
    already in the table is skipped. *)
Definition insert_or_ignore_cap (state : string) (maxLeads : Z) (t : tables)
  : tables :=
  if has_cap_entry state t then t
  else mkTables (leads t) (orders t) (state_caps t ++ [(state, maxLeads)])
                (orders_seq t).

Definition default_caps : list (string * Z) :=
  [("CA", 10); ("NY", 10); ("TX", 10); ("FL", 10); ("IL", 10)].

(** The sample leads: name, email, phone and state. *)
Definition sample_leads : list (string * string * string * string) :=
  [("John Smith", "john.smith@email.com", "555-0101", "CA");
   ("Jane Doe", "jane.doe@email.com", "555-0102", "CA");
   ("Bob Johnson", "bob.johnson@email.com", "555-0103", "NY");
   ("Alice Brown", "alice.brown@email.com", "555-0104", "NY");
   ("Charlie Wilson", "charlie.wilson@email.com", "555-0105", "TX");
   ("Diana Davis", "diana.davis@email.com", "555-0106", "TX");
   ("Eve Miller", "eve.miller@email.com", "555-0107", "FL");
   ("Frank Garcia", "frank.garcia@email.com", "555-0108", "FL");
   ("Grace Lee", "grace.lee@email.com", "555-0109", "IL");
   ("Henry Taylor", "henry.taylor@email.com", "555-0110", "IL")].

(** One row of [INSERT OR IGNORE INTO leads (name, email, phone, state,
    status) VALUES ...]: the only key of [leads] is the AUTOINCREMENT id,
    which the row does not give, so no row is ever skipped. *)
Definition insert_sample_lead (boot : Z) (t : tables)
    (row : string * string * string * string) : tables :=
  match row with
  | (name, email, phone, state) =>
      snd (insert_lead name email (Some phone) state boot t)
  end.

(** The script of [createTables], run at time [boot] on the database file
    as it is: [CREATE TABLE IF NOT EXISTS] leaves existing tables alone,
    then the default caps and the sample leads are inserted. *)
Definition createTables (boot : Z) (t : tables) : tables :=
  fold_left (insert_sample_lead boot) sample_leads
    (fold_left (fun acc row => insert_or_ignore_cap (fst row) (snd row) acc)
               default_caps t).

(** The database file before the first start. *)
Definition empty_database : tables := mkTables [] [] [] 0.

(** ** Further vocabulary *)

(** Order ids are handed out by AUTOINCREMENT. *)
Definition orders_issued (t : tables) : Prop :=
  Forall (fun o => o_id o <= orders_seq t) (orders t).

(** A lead is Unassigned exactly when it refers to no order. *)
Definition linked (l : lead) : Prop :=
  l_status l = Unassigned <-> l_order_id l = None.

(** The status of an order settles the status of the leads that refer to
    it: Assigned for a Pending order, Fulfilled for a Fulfilled one, and a
    Cancelled order has no leads. *)
Definition consistent (t : tables) : Prop :=
  forall l o, In l (leads t) -> In o (orders t) ->
              l_order_id l = Some (o_id o) ->
              (o_status o = Pending /\ l_status l = Assigned)
              \/ (o_status o = OFulfilled /\ l_status l = LFulfilled).

(** The Assigned leads of a region that do not refer to order [id]. *)
Definition assigned_elsewhere (R : string) (id : Z) (l : lead) : bool :=
  is_assigned_in R l && negb (opt_Z_eqb (l_order_id l) id).

(** What fulfilling order [id] does to one lead row: a row that refers
    to the order becomes Fulfilled and keeps its reference, any other row
    stays. *)
Definition fulfilled_with (id now : Z) (l l' : lead) : Prop :=
  (l_order_id l = Some id -> l' = fulfil_lead_row now l)
  /\ (l_order_id l <> Some id -> l' = l).

(** The number of Assigned leads of a region that do not refer to order
    [id]. *)
Definition count_assigned_elsewhere (R : string) (id : Z) (t : tables) : Z :=
  Z.of_nat (List.length (filter (assigned_elsewhere R id) (leads t))).

(** Order 3 is Pending and holds the Assigned leads 1 (CA) and 2 (NY);
    lead 3 (CA) is Assigned to the Pending order 4. *)
Definition in_progress : tables :=
  mkTables [sample_lead 1 "CA" Assigned (Some 3) 5;
            sample_lead 2 "NY" Assigned (Some 3) 2;
            sample_lead 3 "CA" Assigned (Some 4) 7;
            sample_lead 4 "CA" Unassigned None 9]
           [mkOrder 3 "Ann" "ann@example.com" Pending 10 10 None;
            mkOrder 4 "Bob" "bob@example.com" Pending 11 11 None]
           [("CA", 10); ("NY", 10)] 4.

(** ** The interface as a whole *)

(** The calls of the interface other than the lead status override: the
    engine calls, the automation dispatcher, lead creation, the reading
    of one order, cap setting, and a start of the server. *)
Inductive api_call : Type :=
| EngineCall (r : request)
| Execute (command : string) (p : option params)
| CreateLead (name email : string) (phone : option string) (state : string)
| GetOrder (id : Z)
| SetCaps (caps : option (list (string * Z)))
| Start.

(** The tables left behind by one call of the interface. *)
Definition api_after (c : api_call) (now : Z) (plan : option nat) (t : tables)
  : tables :=
  match c with
  | EngineCall r => after r now plan t
  | Execute command p => live (snd (execute command p now (idle t plan)))
  | CreateLead n e p s => snd (run (createLead n e p s now) t plan)
  | GetOrder id => snd (run (getOrder id) t plan)
  | SetCaps caps => snd (run (setCaps caps) t plan)
  | Start => createTables now t
  end.

Inductive reachable_by_api (t0 : tables) : tables -> Prop :=
| api_start : reachable_by_api t0 t0
| api_step (t : tables) (c : api_call) (now : Z) (plan : option nat) :
    reachable_by_api t0 t -> reachable_by_api t0 (api_after c now plan t).

(** Tables as the interface keeps them. *)
Definition well_formed (t : tables) : Prop :=
  ids_unique t /\ refs_issued t /\ orders_issued t
  /\ Forall linked (leads t) /\ consistent t.

(** ** Properties of computations over the connection *)

(** The world with its fault plan cleared. *)
Definition calm (w : world) : world := mkWorld (live w) (saved w) None.

(** The computation never touches the journal written by BEGIN. *)
Definition keeps_journal {A : Type} (m : M A) : Prop :=
  forall w, saved (snd (m w)) = saved w.

(** A run that succeeds under some fault plan is the run without faults. *)
Definition fault_insensitive {A : Type} (m : M A) : Prop :=
  forall w a w', m w = (Ok a, w') -> m (calm w) = (Ok a, calm w').

(** A failed run leaves the live tables as it found them. *)
Definition atomic {A : Type} (m : M A) : Prop :=
  forall w e w', m w = (Err e, w') -> live w' = live w.

(* ===================================================================== *)
(** * Proofs *)
(* ===================================================================== *)

(** ** The monad, the journal and the fault plan *)

Lemma client_query_calm {A : Type} (stmt : tables -> A * tables) (w : world) :
  faults w = None ->
  client_query stmt w
  = (Ok (fst (stmt (live w))), mkWorld (snd (stmt (live w))) (saved w) None).
Proof.
  intros H. unfold client_query. rewrite H. destruct (stmt (live w)); reflexivity.
Qed.

Lemma keeps_journal_ret {A : Type} (a : A) : keeps_journal (ret a).
Proof. intros w; reflexivity. Qed.

Lemma keeps_journal_throw {A : Type} (e : error) : keeps_journal (@throw A e).
Proof. intros w; reflexivity. Qed.

Lemma keeps_journal_query {A : Type} (stmt : tables -> A * tables) :
  keeps_journal (client_query stmt).
Proof.
  intros w. unfold client_query.
  destruct (faults w) as [[|n]|]; try reflexivity;
    destruct (stmt (live w)); reflexivity.
Qed.

Lemma keeps_journal_bind {A B : Type} (m : M A) (k : A -> M B) :
  keeps_journal m -> (forall a, keeps_journal (k a)) -> keeps_journal (bind m k).
Proof.
  intros Hm Hk w. unfold bind. specialize (Hm w).
  destruct (m w) as [[a|e] w1]; simpl in *.
  - rewrite Hk. exact Hm.
  - exact Hm.
Qed.

Lemma fault_insensitive_ret {A : Type} (a : A) : fault_insensitive (ret a).
Proof. intros w a' w' H. inversion H; subst. reflexivity. Qed.

Lemma fault_insensitive_throw {A : Type} (e : error) :
  fault_insensitive (@throw A e).
Proof. intros w a' w' H. inversion H. Qed.

Lemma fault_insensitive_query {A : Type} (stmt : tables -> A * tables) :
  fault_insensitive (client_query stmt).
Proof.
  intros w a w'. unfold client_query, calm; simpl.
  destruct (faults w) as [[|n]|]; try discriminate;
    destruct (stmt (live w)) as [x t]; intros H; inversion H; subst; reflexivity.
Qed.

Lemma fault_insensitive_bind {A B : Type} (m : M A) (k : A -> M B) :
  fault_insensitive m -> (forall a, fault_insensitive (k a)) ->
  fault_insensitive (bind m k).
Proof.
  intros Hm Hk w b w'. unfold bind.
  destruct (m w) as [[a|e] w1] eqn:E; [|discriminate].
  intros H. rewrite (Hm _ _ _ E). apply Hk. exact H.
Qed.

Lemma fault_insensitive_rethrow {A : Type} (f : error -> error) (m : M A) :
  fault_insensitive m -> fault_insensitive (rethrow f m).
Proof.
  intros Hm w a w'. unfold rethrow.
  destruct (m w) as [[x|e] w1] eqn:E; [|discriminate].
  intros H; inversion H; subst. rewrite (Hm _ _ _ E). reflexivity.
Qed.

Lemma fault_insensitive_transaction {A : Type} (cb : M A) :
  fault_insensitive cb -> fault_insensitive (transaction cb).
Proof.
  intros Hcb w a w'. unfold transaction.
  destruct (cb (db_begin w)) as [[x|e] w1] eqn:E; [|discriminate].
  intros H; inversion H; subst.
  change (db_begin (calm w)) with (calm (db_begin w)).
  rewrite (Hcb _ _ _ E). reflexivity.
Qed.

Lemma atomic_throw {A : Type} (e : error) : atomic (@throw A e).
Proof. intros w e' w' H. inversion H; subst. reflexivity. Qed.

Lemma atomic_transaction {A : Type} (cb : M A) :
  keeps_journal cb -> atomic (transaction cb).
Proof.
  intros Hcb w e w'. unfold transaction.
  specialize (Hcb (db_begin w)).
  destruct (cb (db_begin w)) as [[x|e'] w1]; [discriminate|].
  intros H; inversion H; subst. simpl in Hcb.
  unfold db_rollback. rewrite Hcb. reflexivity.
Qed.

Lemma atomic_rethrow {A : Type} (f : error -> error) (m : M A) :
  atomic m -> atomic (rethrow f m).
Proof.
  intros Hm w e w'. unfold rethrow.
  destruct (m w) as [[x|e'] w1] eqn:E; [discriminate|].
  intros H; inversion H; subst. eapply Hm; eauto.
Qed.

Lemma atomic_map {A B : Type} (m : M A) (f : A -> B) :
  atomic m -> atomic (bind m (fun a => ret (f a))).
Proof.
  intros Hm w e w'. unfold bind.
  destruct (m w) as [[x|e'] w1] eqn:E.
  - discriminate.
  - intros H; inversion H; subst. eapply Hm; eauto.
Qed.

Lemma run_atomic {A : Type} (m : M A) t plan e t' :
  atomic m -> run m t plan = (Err e, t') -> t' = t.
Proof.
  intros Hm. unfold run.
  destruct (m (idle t plan)) as [r w] eqn:E. intros H; inversion H; subst.
  apply (Hm _ _ _ E).
Qed.

Lemma run_fault_insensitive {A : Type} (m : M A) t plan a t' :
  fault_insensitive m -> run m t plan = (Ok a, t') -> run m t None = (Ok a, t').
Proof.
  intros Hm. unfold run.
  destruct (m (idle t plan)) as [r w] eqn:E. intros H; inversion H; subst.
  change (idle t None) with (calm (idle t plan)).
  rewrite (Hm _ _ _ E). reflexivity.
Qed.

(** The loops of order creation. *)

Lemma keeps_journal_assign_rows order_id now rows acc :
  keeps_journal (assign_rows order_id now rows acc).
Proof.
  revert acc; induction rows as [|l rows IH]; intros acc; simpl.
  - apply keeps_journal_ret.
  - apply keeps_journal_bind; [apply keeps_journal_query|intros _; apply IH].
Qed.

Lemma keeps_journal_assign_states stateCaps order_id now states acc :
  keeps_journal (assign_states stateCaps order_id now states acc).
Proof.
  revert acc; induction states as [|s states IH]; intros acc; simpl.
  - apply keeps_journal_ret.
  - apply keeps_journal_bind; [apply keeps_journal_query|intros c].
    apply keeps_journal_bind; [|intros a; apply IH].
    destruct (positive _).
    + apply keeps_journal_bind; [apply keeps_journal_query|intros rows].
      apply keeps_journal_assign_rows.
    + apply keeps_journal_ret.
Qed.

Lemma fault_insensitive_assign_rows order_id now rows acc :
  fault_insensitive (assign_rows order_id now rows acc).
Proof.
  revert acc; induction rows as [|l rows IH]; intros acc; simpl.
  - apply fault_insensitive_ret.
  - apply fault_insensitive_bind;
      [apply fault_insensitive_query|intros _; apply IH].
Qed.

Lemma fault_insensitive_assign_states stateCaps order_id now states acc :
  fault_insensitive (assign_states stateCaps order_id now states acc).
Proof.
  revert acc; induction states as [|s states IH]; intros acc; simpl.
  - apply fault_insensitive_ret.
  - apply fault_insensitive_bind; [apply fault_insensitive_query|intros c].
    apply fault_insensitive_bind; [|intros a; apply IH].
    destruct (positive _).
    + apply fault_insensitive_bind; [apply fault_insensitive_query|intros rows].
      apply fault_insensitive_assign_rows.
    + apply fault_insensitive_ret.
Qed.

Ltac journal :=
  repeat first
    [ apply keeps_journal_ret
    | apply keeps_journal_throw
    | apply keeps_journal_query
    | apply keeps_journal_assign_states
    | apply keeps_journal_bind; [|intros ?]
    | match goal with
      | |- keeps_journal (match ?x with _ => _ end) => destruct x
      end ].

Ltac insensitive :=
  repeat first
    [ apply fault_insensitive_ret
    | apply fault_insensitive_throw
    | apply fault_insensitive_query
    | apply fault_insensitive_assign_states
    | apply fault_insensitive_rethrow
    | apply fault_insensitive_transaction
    | apply fault_insensitive_bind; [|intros ?]
    | match goal with
      | |- fault_insensitive (match ?x with _ => _ end) => destruct x
      end ].

Lemma keeps_journal_createOrder_callback n e s now :
  keeps_journal (createOrder_callback n e s now).
Proof. unfold createOrder_callback. journal. Qed.

Lemma keeps_journal_fulfillOrder_callback id now :
  keeps_journal (fulfillOrder_callback id now).
Proof. unfold fulfillOrder_callback. journal. Qed.

Lemma fault_insensitive_createOrder n e s now :
  fault_insensitive (createOrder n e s now).
Proof. unfold createOrder, createOrder_callback. insensitive. Qed.

Lemma fault_insensitive_fulfillOrder id now :
  fault_insensitive (fulfillOrder id now).
Proof. unfold fulfillOrder, fulfillOrder_callback. insensitive. Qed.

Lemma fault_insensitive_fulfillOrderAutomation orderId now :
  fault_insensitive (fulfillOrderAutomation orderId now).
Proof. unfold fulfillOrderAutomation. insensitive. Qed.

Lemma fault_insensitive_deleteOrder id now :
  fault_insensitive (deleteOrder id now).
Proof. unfold deleteOrder. insensitive. Qed.

Lemma fault_insensitive_deleteOrderAutomation orderId now :
  fault_insensitive (deleteOrderAutomation orderId now).
Proof. unfold deleteOrderAutomation. insensitive. Qed.

Lemma fault_insensitive_executeOneTimeRule orderId action now :
  fault_insensitive (executeOneTimeRule orderId action now).
Proof. unfold executeOneTimeRule. insensitive. Qed.

Lemma createOrderAutomation_eq n e s now :
  createOrderAutomation n e s now = createOrder n e s now.
Proof. reflexivity. Qed.

(** ** Runs without faults, statement by statement *)

Lemma bind_stmt {A B : Type} (stmt : tables -> A * tables) (k : A -> M B) t sv :
  bind (client_query stmt) k (mkWorld t sv None)
  = k (fst (stmt t)) (mkWorld (snd (stmt t)) sv None).
Proof.
  unfold bind, client_query; simpl. destruct (stmt t); reflexivity.
Qed.

Lemma bind_reading {A B : Type} (q : tables -> A) (k : A -> M B) t sv :
  bind (client_query (reading q)) k (mkWorld t sv None)
  = k (q t) (mkWorld t sv None).
Proof. reflexivity. Qed.

Lemma bind_writing {B : Type} (u : tables -> tables) (k : unit -> M B) t sv :
  bind (client_query (writing u)) k (mkWorld t sv None)
  = k tt (mkWorld (u t) sv None).
Proof. reflexivity. Qed.

Lemma bind_ret {A B : Type} (a : A) (k : A -> M B) w :
  bind (ret a) k w = k a w.
Proof. reflexivity. Qed.

Lemma bind_throw {A B : Type} (e : error) (k : A -> M B) w :
  bind (throw e) k w = (Err e, w).
Proof. reflexivity. Qed.

Lemma set_leads_same t : set_leads (leads t) t = t.
Proof. destruct t; reflexivity. Qed.

Lemma mark_assigned_nil order_id now t : mark_assigned order_id now [] t = t.
Proof.
  unfold mark_assigned; simpl. rewrite map_id. apply set_leads_same.
Qed.

Lemma mark_assigned_cons order_id now id ids t :
  mark_assigned order_id now ids (update_lead_assigned order_id now id t)
  = mark_assigned order_id now (id :: ids) t.
Proof.
  unfold mark_assigned, update_lead_assigned, set_leads; simpl.
  f_equal. rewrite map_map. apply map_ext. intros l.
  destruct (l_id l =? id) eqn:E; simpl.
  - destruct (mem_id (l_id l) ids); reflexivity.
  - reflexivity.
Qed.

Lemma assign_rows_calm order_id now rows acc t sv :
  assign_rows order_id now rows acc (mkWorld t sv None)
  = (Ok (acc ++ map (assigned_copy order_id) rows),
     mkWorld (mark_assigned order_id now (map l_id rows) t) sv None).
Proof.
  revert acc t; induction rows as [|l rows IH]; intros acc t; simpl.
  - rewrite app_nil_r, mark_assigned_nil. reflexivity.
  - rewrite bind_writing, IH, <- app_assoc, mark_assigned_cons. reflexivity.
Qed.

Lemma assign_states_calm stateCaps order_id now states acc t sv :
  assign_states stateCaps order_id now states acc (mkWorld t sv None)
  = (Ok (fst (allocate stateCaps order_id now states acc t)),
     mkWorld (snd (allocate stateCaps order_id now states acc t)) sv None).
Proof.
  revert acc t; induction states as [|s states IH]; intros acc t; simpl.
  - reflexivity.
  - rewrite bind_reading. unfold pass_rows.
    destruct (positive _) eqn:E.
    + unfold bind at 1. rewrite bind_reading, assign_rows_calm. apply IH.
    + rewrite bind_ret. simpl. rewrite app_nil_r, mark_assigned_nil. apply IH.
Qed.

Lemma select_order_inserted n e now t :
  exists o, hd_error (select_order (orders_seq t + 1)
                                   (snd (insert_order n e now t))) = Some o
            /\ o_id o = orders_seq t + 1.
Proof.
  unfold select_order, insert_order; simpl.
  rewrite filter_app; simpl. rewrite Z.eqb_refl.
  destruct (filter _ (orders t)) as [|o rest] eqn:E; simpl.
  - eexists; split; reflexivity.
  - exists o; split; [reflexivity|].
    assert (In o (filter (fun o0 => o_id o0 =? orders_seq t + 1) (orders t)))
      as Hin by (rewrite E; left; reflexivity).
    apply filter_In in Hin. apply Z.eqb_eq. apply Hin.
Qed.

(** The tables right after the INSERT of the new order. *)
Lemma createOrder_calm n e s now t :
  falsy_string n = false -> falsy_string e = false ->
  exists o,
    o_id o = orders_seq t + 1 /\
    run (createOrder n e s now) t None
    = (Ok (o, fst (allocate (fromEntries (state_caps t)) (o_id o) now
                            (states_or_default s) []
                            (snd (insert_order n e now t)))),
       snd (allocate (fromEntries (state_caps t)) (o_id o) now
                     (states_or_default s) []
                     (snd (insert_order n e now t)))).
Proof.
  intros Hn He.
  destruct (select_order_inserted n e now t) as [o [Ho Hid]].
  exists o; split; [exact Hid|].
  unfold run, createOrder, idle. rewrite Hn, He; simpl.
  unfold transaction, db_begin; simpl.
  unfold createOrder_callback. rewrite bind_stmt, bind_reading.
  change (fst (insert_order n e now t)) with (orders_seq t + 1).
  destruct (select_order (orders_seq t + 1) (snd (insert_order n e now t)))
    as [|o' rest]; simpl in Ho; [discriminate|].
  inversion Ho; subst o'.
  rewrite bind_reading. unfold bind. rewrite assign_states_calm. reflexivity.
Qed.

Lemma createOrder_invalid n e s now t plan :
  falsy_string n || falsy_string e = true ->
  run (createOrder n e s now) t plan = (Err ValidationError, t).
Proof.
  intros H. unfold run, createOrder. rewrite H. reflexivity.
Qed.

(** Fulfilment. *)

Lemma select_order_update_fulfilled now id t :
  select_order id (update_order_fulfilled now id t)
  = map (fulfil_order_row now) (select_order id t).
Proof.
  unfold select_order, update_order_fulfilled; simpl.
  induction (orders t) as [|o os IH]; simpl; [reflexivity|].
  destruct (o_id o =? id) eqn:E; simpl; rewrite E; simpl; rewrite IH; reflexivity.
Qed.

Lemma fulfillOrder_callback_calm id now t sv :
  fulfillOrder_callback id now (mkWorld t sv None)
  = match select_order id t with
    | [] => (Err NotFound, mkWorld t sv None)
    | o :: _ =>
        if order_status_eqb (o_status o) OFulfilled
        then (Err AlreadyFulfilled, mkWorld t sv None)
        else (Ok (Some (fulfil_order_row now o)),
              mkWorld (update_leads_fulfilled now id
                         (update_order_fulfilled now id t)) sv None)
    end.
Proof.
  unfold fulfillOrder_callback. rewrite bind_reading.
  destruct (select_order id t) as [|o rest] eqn:E; [reflexivity|].
  destruct (order_status_eqb (o_status o) OFulfilled); [reflexivity|].
  rewrite !bind_writing, bind_reading.
  change (select_order id (update_leads_fulfilled now id
                             (update_order_fulfilled now id t)))
    with (select_order id (update_order_fulfilled now id t)).
  rewrite select_order_update_fulfilled, E. reflexivity.
Qed.

Lemma fulfillOrder_callback_some id now w r w' :
  fulfillOrder_callback id now w = (Ok r, w') -> r <> None.
Proof.
  intros H.
  assert (fault_insensitive (fulfillOrder_callback id now)) as Hf
    by (unfold fulfillOrder_callback; insensitive).
  apply Hf in H. unfold calm in H. rewrite fulfillOrder_callback_calm in H.
  destruct (select_order id (live w)) as [|o rest]; [discriminate|].
  destruct (order_status_eqb (o_status o) OFulfilled); [discriminate|].
  inversion H; subst. discriminate.
Qed.

Lemma fulfillOrder_calm id now t :
  run (fulfillOrder id now) t None
  = match select_order id t with
    | [] => (Err NotFound, t)
    | o :: _ =>
        if order_status_eqb (o_status o) OFulfilled
        then (Err AlreadyFulfilled, t)
        else (Ok (fulfil_order_row now o),
              update_leads_fulfilled now id (update_order_fulfilled now id t))
    end.
Proof.
  unfold run, fulfillOrder, idle, bind, transaction, db_begin; simpl.
  rewrite fulfillOrder_callback_calm.
  destruct (select_order id t) as [|o rest]; [reflexivity|].
  destruct (order_status_eqb (o_status o) OFulfilled); reflexivity.
Qed.

Lemma fulfillOrderAutomation_calm id now t :
  id <> 0 ->
  run (fulfillOrderAutomation (Some id) now) t None
  = match select_order id t with
    | [] => (Err NotFound, t)
    | o :: _ =>
        if order_status_eqb (o_status o) OFulfilled
        then (Err AlreadyFulfilled, t)
        else (Ok (FulfilledSuccessfully id),
              update_leads_fulfilled now id (update_order_fulfilled now id t))
    end.
Proof.
  intros Hid. unfold run, fulfillOrderAutomation, idle; simpl.
  apply Z.eqb_neq in Hid. rewrite Hid.
  unfold transaction, db_begin; simpl. rewrite bind_reading.
  destruct (select_order id t) as [|o rest]; [reflexivity|].
  destruct (order_status_eqb (o_status o) OFulfilled); reflexivity.
Qed.

Lemma deleteOrder_calm id now t :
  run (deleteOrder id now) t None
  = match select_order id t with
    | [] => (Err NotFound, t)
    | _ :: _ => (Ok DeletedAndReturned,
                 delete_order id (update_leads_released now id t))
    end.
Proof.
  unfold run, deleteOrder, idle, transaction, db_begin; simpl.
  rewrite bind_reading.
  destruct (select_order id t) as [|o rest]; reflexivity.
Qed.

Lemma deleteOrderAutomation_calm id now t :
  id <> 0 ->
  run (deleteOrderAutomation (Some id) now) t None
  = run (deleteOrder id now) t None.
Proof.
  intros Hid. unfold run, deleteOrderAutomation, deleteOrder, idle; simpl.
  apply Z.eqb_neq in Hid. rewrite Hid. reflexivity.
Qed.

Lemma executeOneTimeRule_fulfill_calm id action now t :
  id <> 0 -> toLowerCase action = "fulfill" ->
  run (executeOneTimeRule (Some id) action now) t None
  = match select_order id t with
    | [] => (Err (OneTimeRuleFailed NotFound), t)
    | o :: _ =>
        if order_status_eqb (o_status o) OFulfilled
        then (Ok (AlreadyFulfilledReply o), t)
        else (Ok (FulfilledSuccessfully id),
              update_leads_fulfilled now id (update_order_fulfilled now id t))
    end.
Proof.
  intros Hid Ha. unfold run, executeOneTimeRule, idle; simpl.
  apply Z.eqb_neq in Hid. rewrite Hid.
  assert (falsy_string action = false) as Hf
    by (destruct action; [discriminate Ha|reflexivity]).
  rewrite Hf, Ha; simpl.
  unfold rethrow, transaction, db_begin; simpl. rewrite bind_reading.
  destruct (select_order id t) as [|o rest]; [reflexivity|].
  destruct (order_status_eqb (o_status o) OFulfilled); reflexivity.
Qed.

Lemma executeOneTimeRule_cancel_calm id action now t :
  id <> 0 -> toLowerCase action = "cancel" ->
  run (executeOneTimeRule (Some id) action now) t None
  = match select_order id t with
    | [] => (Err (OneTimeRuleFailed NotFound), t)
    | o :: _ =>
        if order_status_eqb (o_status o) Cancelled
        then (Ok (AlreadyCancelledReply o), t)
        else (Ok (CancelledAndReturned id),
              update_leads_released now id (update_order_cancelled now id t))
    end.
Proof.
  intros Hid Ha. unfold run, executeOneTimeRule, idle; simpl.
  apply Z.eqb_neq in Hid. rewrite Hid.
  assert (falsy_string action = false) as Hf
    by (destruct action; [discriminate Ha|reflexivity]).
  rewrite Hf, Ha; simpl.
  unfold rethrow, transaction, db_begin; simpl. rewrite bind_reading.
  destruct (select_order id t) as [|o rest]; [reflexivity|].
  destruct (order_status_eqb (o_status o) Cancelled); reflexivity.
Qed.

(** ** Atomicity of the transactional handlers *)

Lemma atomic_createOrder n e s now : atomic (createOrder n e s now).
Proof.
  unfold createOrder. destruct (falsy_string n || falsy_string e).
  - apply atomic_throw.
  - apply atomic_transaction, keeps_journal_createOrder_callback.
Qed.

Lemma atomic_fulfillOrder id now : atomic (fulfillOrder id now).
Proof.
  intros w e w'. unfold fulfillOrder, bind.
  destruct (transaction (fulfillOrder_callback id now) w) as [[r|e'] w1] eqn:E.
  - destruct r as [o|]; [discriminate|].
    exfalso. unfold transaction in E.
    destruct (fulfillOrder_callback id now (db_begin w)) as [[r|e'] w2] eqn:E2;
      [|discriminate].
    inversion E; subst. apply fulfillOrder_callback_some in E2. congruence.
  - intros H; inversion H; subst.
    eapply atomic_transaction; [apply keeps_journal_fulfillOrder_callback|].
    exact E.
Qed.

Lemma atomic_fulfillOrderAutomation orderId now :
  atomic (fulfillOrderAutomation orderId now).
Proof.
  unfold fulfillOrderAutomation. destruct (falsy_id orderId).
  - apply atomic_throw.
  - apply atomic_transaction. journal.
Qed.

Lemma atomic_deleteOrder id now : atomic (deleteOrder id now).
Proof. unfold deleteOrder. apply atomic_transaction. journal. Qed.

Lemma atomic_deleteOrderAutomation orderId now :
  atomic (deleteOrderAutomation orderId now).
Proof.
  unfold deleteOrderAutomation. destruct (falsy_id orderId).
  - apply atomic_throw.
  - apply atomic_transaction. journal.
Qed.

Lemma atomic_executeOneTimeRule orderId action now :
  atomic (executeOneTimeRule orderId action now).
Proof.
  unfold executeOneTimeRule. destruct (falsy_id orderId || falsy_string action).
  - apply atomic_throw.
  - apply atomic_rethrow, atomic_transaction. journal.
Qed.

Lemma atomic_handle r now : atomic (handle r now).
Proof.
  destruct r; simpl; apply atomic_map.
  - apply atomic_createOrder.
  - apply atomic_createOrder.
  - apply atomic_fulfillOrder.
  - apply atomic_fulfillOrderAutomation.
  - apply atomic_deleteOrder.
  - apply atomic_deleteOrderAutomation.
  - apply atomic_executeOneTimeRule.
Qed.

Lemma fault_insensitive_handle r now : fault_insensitive (handle r now).
Proof.
  destruct r; simpl;
    (apply fault_insensitive_bind; [|intros ?; apply fault_insensitive_ret]).
  - apply fault_insensitive_createOrder.
  - apply fault_insensitive_createOrder.
  - apply fault_insensitive_fulfillOrder.
  - apply fault_insensitive_fulfillOrderAutomation.
  - apply fault_insensitive_deleteOrder.
  - apply fault_insensitive_deleteOrderAutomation.
  - apply fault_insensitive_executeOneTimeRule.
Qed.

(** A handler that is atomic and leaves the tables alone when nothing
    fails leaves them alone under every fault plan. *)
Lemma run_unchanged_any_plan {A : Type} (m : M A) t :
  atomic m -> fault_insensitive m -> snd (run m t None) = t ->
  forall plan, snd (run m t plan) = t.
Proof.
  intros Ha Hf H0 plan.
  destruct (run m t plan) as [[a|e] t'] eqn:E; simpl.
  - apply run_fault_insensitive in E; [|exact Hf]. rewrite E in H0. exact H0.
  - eapply run_atomic; eauto.
Qed.

(** A handler that is atomic and fails when nothing else fails, fails and
    leaves the tables alone under every fault plan. *)
Lemma run_fails_any_plan {A : Type} (m : M A) t e0 :
  atomic m -> fault_insensitive m -> run m t None = (Err e0, t) ->
  forall plan, exists e, run m t plan = (Err e, t).
Proof.
  intros Ha Hf H0 plan.
  destruct (run m t plan) as [[a|e] t'] eqn:E.
  - apply run_fault_insensitive in E; [|exact Hf]. congruence.
  - exists e. f_equal. eapply run_atomic; eauto.
Qed.

(** C6. Atomicity: whenever an engine call (order creation, fulfilment,
    deletion, the one-time rule; route or automation command) ends in an
    error of any kind, raised by the handler or by a statement rejected
    at any step, the tables after the call are the tables before it. *)
Theorem failed_call_changes_nothing :
  forall (r : request) (now : Z) (t : tables) (plan : option nat)
         (e : error) (t' : tables),
    run (handle r now) t plan = (Err e, t') -> t' = t.
Proof.
  intros r now t plan e t' H.
  eapply run_atomic; [apply atomic_handle|exact H].
Qed.

Lemma failed_call_changes_nothing_witness :
  run (handle (CreateOrder "Ann" "ann@example.com" (Some ["CA"])) 100)
      scenario_CA (Some 5%nat)
  = (Err StorageError, scenario_CA).
Proof.
  assert (exists t',
            run (handle (CreateOrder "Ann" "ann@example.com" (Some ["CA"])) 100)
                scenario_CA (Some 5%nat) = (Err StorageError, t')) as [t' H]
    by (eexists; vm_compute; reflexivity).
  rewrite H. f_equal.
  exact (failed_call_changes_nothing _ _ _ _ _ _ H).
Defined.

(** ** Fulfilling an order that is already Fulfilled *)

Lemma head_row {A : Type} (rows : list A) (x : A) :
  hd_error rows = Some x -> exists rest, rows = x :: rest.
Proof.
  destruct rows as [|y rest]; simpl; intros H; inversion H; subst; eauto.
Qed.

Lemma order_status_eqb_eq a b : order_status_eqb a b = true <-> a = b.
Proof. destruct a, b; simpl; split; intros H; congruence. Qed.

Lemma order_status_eqb_refl a : order_status_eqb a a = true.
Proof. destruct a; reflexivity. Qed.

Lemma refulfil_route id now t o :
  hd_error (select_order id t) = Some o -> o_status o = OFulfilled ->
  run (fulfillOrder id now) t None = (Err AlreadyFulfilled, t).
Proof.
  intros Hsel Hst. apply head_row in Hsel as [rest Hsel].
  rewrite fulfillOrder_calm, Hsel, Hst. reflexivity.
Qed.

Lemma refulfil_command id now t o :
  id <> 0 ->
  hd_error (select_order id t) = Some o -> o_status o = OFulfilled ->
  run (fulfillOrderAutomation (Some id) now) t None = (Err AlreadyFulfilled, t).
Proof.
  intros Hid Hsel Hst. apply head_row in Hsel as [rest Hsel].
  rewrite fulfillOrderAutomation_calm, Hsel, Hst by exact Hid. reflexivity.
Qed.

Lemma refulfil_one_time id action now t o :
  id <> 0 -> toLowerCase action = "fulfill" ->
  hd_error (select_order id t) = Some o -> o_status o = OFulfilled ->
  run (executeOneTimeRule (Some id) action now) t None
  = (Ok (AlreadyFulfilledReply o), t).
Proof.
  intros Hid Ha Hsel Hst. apply head_row in Hsel as [rest Hsel].
  rewrite executeOneTimeRule_fulfill_calm, Hsel, Hst by assumption. reflexivity.
Qed.

(** C3, as the code has it.  On an order that is already Fulfilled the
    fulfil route and the [fulfill_order] command fail, with
    AlreadyFulfilled unless a statement is rejected first, and leave every
    row as it was; the one-time rule with action fulfill leaves every row
    as it was too, but answers with a successful reply that carries the
    message 'Order already fulfilled' and the order. *)
Theorem fulfilled_order_is_not_fulfilled_again :
  forall (t : tables) (id now : Z) (o : order),
    hd_error (select_order id t) = Some o ->
    o_status o = OFulfilled ->
    (run (fulfillOrder id now) t None = (Err AlreadyFulfilled, t)
     /\ forall plan, exists e, run (fulfillOrder id now) t plan = (Err e, t))
    /\ (id <> 0 ->
        run (fulfillOrderAutomation (Some id) now) t None
        = (Err AlreadyFulfilled, t)
        /\ forall plan, exists e,
             run (fulfillOrderAutomation (Some id) now) t plan = (Err e, t))
    /\ (id <> 0 ->
        forall action, toLowerCase action = "fulfill" ->
          run (executeOneTimeRule (Some id) action now) t None
          = (Ok (AlreadyFulfilledReply o), t)
          /\ forall plan,
               snd (run (executeOneTimeRule (Some id) action now) t plan) = t).
Proof.
  intros t id now o Hsel Hst. repeat split.
  - eapply refulfil_route; eauto.
  - eapply run_fails_any_plan;
      [apply atomic_fulfillOrder|apply fault_insensitive_fulfillOrder|].
    eapply refulfil_route; eauto.
  - eapply refulfil_command; eauto.
  - eapply run_fails_any_plan;
      [apply atomic_fulfillOrderAutomation
      |apply fault_insensitive_fulfillOrderAutomation|].
    eapply refulfil_command; eauto.
  - eapply refulfil_one_time; eauto.
  - apply run_unchanged_any_plan;
      [apply atomic_executeOneTimeRule
      |apply fault_insensitive_executeOneTimeRule|].
    erewrite refulfil_one_time; eauto.
Qed.

Lemma fulfilled_order_is_not_fulfilled_again_witness :
  run (fulfillOrder 1 100) settled None = (Err AlreadyFulfilled, settled)
  /\ run (executeOneTimeRule (Some 1) "Fulfill" 100) settled None
     = (Ok (AlreadyFulfilledReply
              (mkOrder 1 "Ann" "ann@example.com" OFulfilled 10 20 (Some 20))),
        settled).
Proof.
  pose proof (fulfilled_order_is_not_fulfilled_again settled 1 100
                (mkOrder 1 "Ann" "ann@example.com" OFulfilled 10 20 (Some 20))
                eq_refl eq_refl) as [[H1 _] [_ H3]].
  split; [exact H1|].
  apply (H3 ltac:(discriminate) "Fulfill" eq_refl).
Defined.

(** C3 as worded fails on the one-time rule: fulfilling the Fulfilled
    order 1 through it is answered with a success, not with a failure. *)
Lemma one_time_rule_refulfil_succeeds :
  order_status_of 1 settled = Some OFulfilled
  /\ (forall e t', run (executeOneTimeRule (Some 1) "fulfill" 100) settled None
                   <> (Err e, t'))
  /\ fst (run (handle (OneTimeRule (Some 1) "fulfill") 100) settled None)
     = Ok (Replied (AlreadyFulfilledReply
             (mkOrder 1 "Ann" "ann@example.com" OFulfilled 10 20 (Some 20)))).
Proof.
  split; [reflexivity|]. split; [|reflexivity].
  intros e t'. vm_compute. discriminate.
Qed.

(** ** Terminal order states *)

Lemma opt_Z_eqb_eq a id : opt_Z_eqb a id = true <-> a = Some id.
Proof.
  destruct a as [x|]; simpl.
  - rewrite Z.eqb_eq. split; congruence.
  - split; discriminate.
Qed.

Lemma opt_Z_eqb_neq a id : opt_Z_eqb a id = false <-> a <> Some id.
Proof.
  rewrite <- opt_Z_eqb_eq. destruct (opt_Z_eqb a id); split; congruence.
Qed.

Lemma select_order_update_cancelled now id t :
  select_order id (update_order_cancelled now id t)
  = map (cancel_order_row now) (select_order id t).
Proof.
  unfold select_order, update_order_cancelled; simpl.
  induction (orders t) as [|o os IH]; simpl; [reflexivity|].
  destruct (o_id o =? id) eqn:E; simpl; rewrite E; simpl; rewrite IH; reflexivity.
Qed.

Lemma released_no_refs now id ls :
  filter (fun l => opt_Z_eqb (l_order_id l) id)
         (map (fun l => if opt_Z_eqb (l_order_id l) id
                        then release_lead_row now l else l) ls) = [].
Proof.
  induction ls as [|l ls IH]; simpl; [reflexivity|].
  destruct (opt_Z_eqb (l_order_id l) id) eqn:E; simpl.
  - exact IH.
  - rewrite E. exact IH.
Qed.

Lemma released_pointwise now id ls :
  Forall2 (returned_to_stock id) ls
          (map (fun l => if opt_Z_eqb (l_order_id l) id
                         then release_lead_row now l else l) ls).
Proof.
  induction ls as [|l ls IH]; simpl; constructor; [|exact IH].
  unfold returned_to_stock.
  destruct (opt_Z_eqb (l_order_id l) id) eqn:E; simpl.
  - apply opt_Z_eqb_eq in E. repeat split; congruence.
  - apply opt_Z_eqb_neq in E. repeat split; congruence.
Qed.

Lemma cancel_fulfilled_one_time id action now t o :
  id <> 0 -> toLowerCase action = "cancel" ->
  hd_error (select_order id t) = Some o -> o_status o <> Cancelled ->
  exists t',
    run (executeOneTimeRule (Some id) action now) t None
    = (Ok (CancelledAndReturned id), t')
    /\ order_status_of id t' = Some Cancelled
    /\ leads_of_order id t' = []
    /\ Forall2 (returned_to_stock id) (leads t) (leads t').
Proof.
  intros Hid Ha Hsel Hst. apply head_row in Hsel as [rest Hsel].
  rewrite executeOneTimeRule_cancel_calm, Hsel by assumption.
  destruct (order_status_eqb (o_status o) Cancelled) eqn:E;
    [apply order_status_eqb_eq in E; contradiction|].
  eexists; split; [reflexivity|]. repeat split.
  - unfold order_status_of.
    change (select_order id (update_leads_released now id
                               (update_order_cancelled now id t)))
      with (select_order id (update_order_cancelled now id t)).
    rewrite select_order_update_cancelled, Hsel. reflexivity.
  - apply released_no_refs.
  - apply released_pointwise.
Qed.

Lemma fulfil_unfulfilled id now t o :
  hd_error (select_order id t) = Some o -> o_status o <> OFulfilled ->
  exists t',
    t' = update_leads_fulfilled now id (update_order_fulfilled now id t)
    /\ order_status_of id t' = Some OFulfilled
    /\ run (fulfillOrder id now) t None = (Ok (fulfil_order_row now o), t')
    /\ (id <> 0 ->
        run (fulfillOrderAutomation (Some id) now) t None
        = (Ok (FulfilledSuccessfully id), t'))
    /\ (id <> 0 -> forall action, toLowerCase action = "fulfill" ->
        run (executeOneTimeRule (Some id) action now) t None
        = (Ok (FulfilledSuccessfully id), t')).
Proof.
  intros Hsel Hst. apply head_row in Hsel as [rest Hsel].
  assert (order_status_eqb (o_status o) OFulfilled = false) as E.
  { destruct (order_status_eqb (o_status o) OFulfilled) eqn:E; [|reflexivity].
    apply order_status_eqb_eq in E; contradiction. }
  eexists; split; [reflexivity|]. repeat split.
  - unfold order_status_of.
    change (select_order id (update_leads_fulfilled now id
                               (update_order_fulfilled now id t)))
      with (select_order id (update_order_fulfilled now id t)).
    rewrite select_order_update_fulfilled, Hsel. reflexivity.
  - rewrite fulfillOrder_calm, Hsel, E. reflexivity.
  - intros Hid. rewrite fulfillOrderAutomation_calm, Hsel, E by exact Hid.
    reflexivity.
  - intros Hid action Ha.
    rewrite executeOneTimeRule_fulfill_calm, Hsel, E by assumption. reflexivity.
Qed.

Lemma recancel_one_time id action now t o :
  id <> 0 -> toLowerCase action = "cancel" ->
  hd_error (select_order id t) = Some o -> o_status o = Cancelled ->
  run (executeOneTimeRule (Some id) action now) t None
  = (Ok (AlreadyCancelledReply o), t).
Proof.
  intros Hid Ha Hsel Hst. apply head_row in Hsel as [rest Hsel].
  rewrite executeOneTimeRule_cancel_calm, Hsel, Hst by assumption. reflexivity.
Qed.

(** C4, as the code has it.  The handlers guard a terminal state only
    against the repetition of the transition that led to it: fulfil calls
    leave a Fulfilled order and every other row untouched, and the
    one-time rule with action cancel leaves a Cancelled order and every
    other row untouched.  The other way round nothing is refused: the
    one-time rule with action cancel turns a Fulfilled order into a
    Cancelled one and returns its leads to stock, and every fulfil call
    turns a Cancelled order into a Fulfilled one. *)
Theorem terminal_states_refuse_only_repetition :
  forall (t : tables) (id now : Z) (o : order),
    hd_error (select_order id t) = Some o ->
    (o_status o = OFulfilled ->
       (forall plan, snd (run (fulfillOrder id now) t plan) = t)
       /\ (id <> 0 -> forall plan,
             snd (run (fulfillOrderAutomation (Some id) now) t plan) = t)
       /\ (id <> 0 -> forall action plan, toLowerCase action = "fulfill" ->
             snd (run (executeOneTimeRule (Some id) action now) t plan) = t)
       /\ (id <> 0 -> forall action, toLowerCase action = "cancel" ->
             exists t',
               run (executeOneTimeRule (Some id) action now) t None
               = (Ok (CancelledAndReturned id), t')
               /\ order_status_of id t' = Some Cancelled
               /\ leads_of_order id t' = []
               /\ Forall2 (returned_to_stock id) (leads t) (leads t')))
    /\ (o_status o = Cancelled ->
          (id <> 0 -> forall action plan, toLowerCase action = "cancel" ->
             snd (run (executeOneTimeRule (Some id) action now) t plan) = t)
          /\ exists t',
               order_status_of id t' = Some OFulfilled
               /\ run (fulfillOrder id now) t None
                  = (Ok (fulfil_order_row now o), t')
               /\ (id <> 0 ->
                   run (fulfillOrderAutomation (Some id) now) t None
                   = (Ok (FulfilledSuccessfully id), t'))
               /\ (id <> 0 -> forall action, toLowerCase action = "fulfill" ->
                   run (executeOneTimeRule (Some id) action now) t None
                   = (Ok (FulfilledSuccessfully id), t'))).
Proof.
  intros t id now o Hsel. split; intros Hst.
  - repeat split.
    + apply run_unchanged_any_plan;
        [apply atomic_fulfillOrder|apply fault_insensitive_fulfillOrder|].
      erewrite refulfil_route; eauto.
    + intros Hid. apply run_unchanged_any_plan;
        [apply atomic_fulfillOrderAutomation
        |apply fault_insensitive_fulfillOrderAutomation|].
      erewrite refulfil_command; eauto.
    + intros Hid action plan Ha. apply run_unchanged_any_plan;
        [apply atomic_executeOneTimeRule
        |apply fault_insensitive_executeOneTimeRule|].
      erewrite refulfil_one_time; eauto.
    + intros Hid action Ha.
      eapply cancel_fulfilled_one_time; eauto. congruence.
  - split.
    + intros Hid action plan Ha. apply run_unchanged_any_plan;
        [apply atomic_executeOneTimeRule
        |apply fault_insensitive_executeOneTimeRule|].
      erewrite recancel_one_time; eauto.
    + destruct (fulfil_unfulfilled id now t o Hsel) as [t' [_ H]];
        [congruence|].
      exists t'. exact H.
Qed.

Lemma terminal_states_refuse_only_repetition_witness :
  (forall plan, snd (run (fulfillOrder 1 100) settled plan) = settled)
  /\ exists t',
       order_status_of 2 t' = Some OFulfilled
       /\ run (fulfillOrder 2 100) settled None
          = (Ok (fulfil_order_row 100
                   (mkOrder 2 "Bob" "bob@example.com" Cancelled 11 21 None)),
             t').
Proof.
  split.
  - apply (terminal_states_refuse_only_repetition settled 1 100
             (mkOrder 1 "Ann" "ann@example.com" OFulfilled 10 20 (Some 20))
             eq_refl).
    reflexivity.
  - destruct (terminal_states_refuse_only_repetition settled 2 100
                (mkOrder 2 "Bob" "bob@example.com" Cancelled 11 21 None)
                eq_refl) as [_ H].
    destruct (H eq_refl) as [_ [t' [H1 [H2 _]]]].
    exists t'. split; assumption.
Defined.

(** C4 as worded fails: the one-time rule with action cancel takes the
    Fulfilled order 1 to Cancelled and sends its Fulfilled lead back to
    stock. *)
Lemma cancel_leaves_fulfilled_state :
  order_status_of 1 settled = Some OFulfilled
  /\ order_status_of 1 (after (OneTimeRule (Some 1) "cancel") 100 None settled)
     = Some Cancelled
  /\ map (fun l => (l_id l, l_status l, l_order_id l))
         (leads (after (OneTimeRule (Some 1) "cancel") 100 None settled))
     = [(1, Unassigned, None); (2, Unassigned, None)].
Proof. repeat split. Qed.

(** ** The effective region list *)

(** C2, as the code has it.  When the requested regions are absent the
    effective region list is the default CA, NY, TX, FL, IL, and the call
    is the call that names these five regions in this order; an empty
    requested sequence is taken as it is: the order is created and no
    lead is assigned. *)
Theorem default_regions_only_when_absent :
  states_or_default None = ["CA"; "NY"; "TX"; "FL"; "IL"]
  /\ (forall n e now,
        createOrder n e None now
        = createOrder n e (Some ["CA"; "NY"; "TX"; "FL"; "IL"]) now
        /\ createOrderAutomation n e None now
           = createOrderAutomation n e (Some ["CA"; "NY"; "TX"; "FL"; "IL"]) now)
  /\ (forall n e now t,
        falsy_string n = false -> falsy_string e = false ->
        exists o,
          o_id o = orders_seq t + 1
          /\ run (createOrder n e (Some []) now) t None
             = (Ok (o, []), snd (insert_order n e now t))
          /\ run (createOrderAutomation n e (Some []) now) t None
             = (Ok (o, []), snd (insert_order n e now t))).
Proof.
  split; [reflexivity|]. split; [intros; split; reflexivity|].
  intros n e now t Hn He.
  destruct (createOrder_calm n e (Some []) now t Hn He) as [o [Hid H]].
  exists o. split; [exact Hid|].
  split; [exact H|]. change (run (createOrder n e (Some []) now) t None
                             = (Ok (o, []), snd (insert_order n e now t))).
  exact H.
Qed.

Lemma default_regions_only_when_absent_witness :
  exists o,
    o_id o = 1
    /\ run (createOrder "Ann" "ann@example.com" (Some []) 100) five_regions None
       = (Ok (o, []),
          snd (insert_order "Ann" "ann@example.com" 100 five_regions)).
Proof.
  destruct default_regions_only_when_absent as [_ [_ H]].
  destruct (H "Ann" "ann@example.com" 100 five_regions eq_refl eq_refl)
    as [o [Hid [Hrun _]]].
  exists o. split; [exact Hid|exact Hrun].
Defined.

(** C2 as worded fails on the empty sequence: with one Unassigned lead in
    each of the five default regions, the call without regions assigns
    all five while the call with the empty sequence assigns none. *)
Lemma empty_regions_are_not_defaulted :
  states_or_default (Some []) = []
  /\ assigned_ids (run (createOrder "Ann" "ann@example.com" None 100)
                       five_regions None) = [1; 2; 3; 4; 5]
  /\ assigned_ids (run (createOrder "Ann" "ann@example.com" (Some []) 100)
                       five_regions None) = []
  /\ assigned_ids (run (createOrderAutomation "Ann" "ann@example.com"
                          (Some []) 100) five_regions None) = [].
Proof. repeat split. Qed.

(** ** Deleting an order *)

Lemma select_order_deleted id t : select_order id (delete_order id t) = [].
Proof.
  unfold select_order, delete_order; simpl.
  induction (orders t) as [|o os IH]; simpl; [reflexivity|].
  destruct (o_id o =? id) eqn:E; simpl; [exact IH|]. rewrite E. exact IH.
Qed.

Lemma select_order_other_deleted id id' t :
  id' <> id -> select_order id' (delete_order id t) = select_order id' t.
Proof.
  intros Hne. unfold select_order, delete_order; simpl.
  induction (orders t) as [|o os IH]; simpl; [reflexivity|].
  destruct (o_id o =? id) eqn:E; simpl.
  - apply Z.eqb_eq in E.
    assert ((o_id o =? id') = false) as E' by (apply Z.eqb_neq; congruence).
    rewrite E'. exact IH.
  - rewrite IH. reflexivity.
Qed.

(** C7. Deleting an existing order succeeds and leaves no lead that
    refers to it, every lead that referred to it Unassigned with its
    reference cleared (every other lead as it was), and no order row
    with that id (the other orders as they were); deleting an order that
    does not exist fails with NotFound and changes nothing.  The route
    and the [delete_order] command behave alike. *)
Theorem deleteOrder_returns_leads_and_removes_order :
  forall (t : tables) (id now : Z),
    (select_order id t <> [] ->
       exists t',
         run (deleteOrder id now) t None = (Ok DeletedAndReturned, t')
         /\ (id <> 0 ->
             run (deleteOrderAutomation (Some id) now) t None
             = (Ok DeletedAndReturned, t'))
         /\ leads_of_order id t' = []
         /\ Forall2 (returned_to_stock id) (leads t) (leads t')
         /\ select_order id t' = []
         /\ (forall id', id' <> id -> select_order id' t' = select_order id' t))
    /\ (select_order id t = [] ->
          run (deleteOrder id now) t None = (Err NotFound, t)
          /\ (forall plan, exists e, run (deleteOrder id now) t plan = (Err e, t))
          /\ (id <> 0 ->
              run (deleteOrderAutomation (Some id) now) t None
              = (Err NotFound, t)
              /\ forall plan, exists e,
                   run (deleteOrderAutomation (Some id) now) t plan
                   = (Err e, t))).
Proof.
  intros t id now. split; intros Hsel.
  - assert (run (deleteOrder id now) t None
            = (Ok DeletedAndReturned,
               delete_order id (update_leads_released now id t))) as Hrun.
    { rewrite deleteOrder_calm.
      destruct (select_order id t); [contradiction|reflexivity]. }
    eexists; split; [exact Hrun|]. repeat split.
    + intros Hid. rewrite deleteOrderAutomation_calm by exact Hid. exact Hrun.
    + apply released_no_refs.
    + apply released_pointwise.
    + apply select_order_deleted.
    + intros id' Hne. rewrite select_order_other_deleted by exact Hne.
      reflexivity.
  - assert (run (deleteOrder id now) t None = (Err NotFound, t)) as Hrun
      by (rewrite deleteOrder_calm, Hsel; reflexivity).
    split; [exact Hrun|]. split.
    + eapply run_fails_any_plan;
        [apply atomic_deleteOrder|apply fault_insensitive_deleteOrder
        |exact Hrun].
    + intros Hid.
      assert (run (deleteOrderAutomation (Some id) now) t None
              = (Err NotFound, t)) as Hrun'
        by (rewrite deleteOrderAutomation_calm by exact Hid; exact Hrun).
      split; [exact Hrun'|].
      eapply run_fails_any_plan;
        [apply atomic_deleteOrderAutomation
        |apply fault_insensitive_deleteOrderAutomation|exact Hrun'].
Qed.

Lemma deleteOrder_returns_leads_and_removes_order_witness :
  (exists t',
     run (deleteOrder 1 100) settled None = (Ok DeletedAndReturned, t')
     /\ leads_of_order 1 t' = []
     /\ select_order 1 t' = [])
  /\ run (deleteOrder 9999 100) settled None = (Err NotFound, settled).
Proof.
  destruct (deleteOrder_returns_leads_and_removes_order settled 1 100)
    as [H _].
  destruct (deleteOrder_returns_leads_and_removes_order settled 9999 100)
    as [_ H'].
  split.
  - destruct (H ltac:(vm_compute; discriminate))
      as [t' [H1 [_ [H2 [_ [H3 _]]]]]].
    exists t'. repeat split; assumption.
  - destruct (H' eq_refl) as [H1 _]. exact H1.
Defined.

(** ** The lead status override *)

Lemma fault_insensitive_updateLeadStatus id status now :
  fault_insensitive (updateLeadStatus id status now).
Proof. unfold updateLeadStatus. insensitive. Qed.

Lemma overridden_pointwise id st now ls :
  Forall2 (status_overridden id st now) ls
          (map (fun l => if l_id l =? id then restatus_lead_row st now l
                         else l) ls).
Proof.
  induction ls as [|l ls IH]; simpl; constructor; [|exact IH].
  unfold status_overridden.
  destruct (l_id l =? id) eqn:E.
  - apply Z.eqb_eq in E. split; [congruence|]. intros _. simpl.
    repeat split; reflexivity.
  - apply Z.eqb_neq in E. split; [reflexivity|]. contradiction.
Qed.

Lemma parse_lead_status_none s :
  s <> "unassigned" -> s <> "assigned" -> s <> "fulfilled" ->
  parse_lead_status s = None.
Proof.
  intros H1 H2 H3. unfold parse_lead_status.
  apply String.eqb_neq in H1, H2, H3. rewrite H1, H2, H3. reflexivity.
Qed.

Lemma updateLeadStatus_calm id s st now t :
  parse_lead_status s = Some st ->
  run (updateLeadStatus id (Some s) now) t None
  = let t1 := snd (update_lead_status st now id t) in
    if fst (update_lead_status st now id t) =? 0 then (Err LeadNotFound, t1)
    else match select_lead id t1 with
         | [] => (Err TypeError, t1)
         | l :: _ => (Ok l, t1)
         end.
Proof.
  intros Hp. unfold run, updateLeadStatus, idle. rewrite Hp, bind_stmt.
  destruct (fst (update_lead_status st now id t) =? 0); [reflexivity|].
  rewrite bind_reading.
  destruct (select_lead id (snd (update_lead_status st now id t)));
    reflexivity.
Qed.

(** C9. The status override fails with InvalidStatus, changing nothing,
    when the requested status is missing or is none of 'unassigned',
    'assigned', 'fulfilled'.  When it succeeds, the orders, the caps and
    every other lead are as before, and the lead with the given id
    differs from its former row in the status and the updated timestamp
    only: its order reference is kept, whatever the new status and
    whatever the state of the order it refers to. *)
Theorem updateLeadStatus_touches_status_only :
  forall (id : Z) (status : option string) (now : Z) (t : tables)
         (plan : option nat),
    ((status = None \/
      exists s, status = Some s /\ s <> "unassigned" /\ s <> "assigned"
                /\ s <> "fulfilled") ->
     run (updateLeadStatus id status now) t plan = (Err InvalidStatus, t))
    /\ (forall l t',
          run (updateLeadStatus id status now) t plan = (Ok l, t') ->
          exists s st,
            status = Some s /\ parse_lead_status s = Some st
            /\ orders t' = orders t
            /\ state_caps t' = state_caps t
            /\ orders_seq t' = orders_seq t
            /\ Forall2 (status_overridden id st now) (leads t) (leads t')
            /\ hd_error (select_lead id t') = Some l).
Proof.
  intros id status now t plan. split.
  - intros [H | [s [H [H1 [H2 H3]]]]]; subst status; [reflexivity|].
    unfold run, updateLeadStatus.
    rewrite parse_lead_status_none by assumption. reflexivity.
  - intros l t' H.
    apply run_fault_insensitive in H;
      [|apply fault_insensitive_updateLeadStatus].
    destruct status as [s|]; [|discriminate H].
    destruct (parse_lead_status s) as [st|] eqn:Hp.
    + rewrite (updateLeadStatus_calm id s st now t Hp) in H. simpl in H.
      destruct (_ =? 0); [discriminate H|].
      destruct (select_lead id _) as [|l0 rest] eqn:Hsel; [discriminate H|].
      inversion H; subst. exists s, st. repeat split.
      * exact Hp.
      * apply overridden_pointwise.
      * rewrite Hsel. reflexivity.
    + unfold run, updateLeadStatus in H. rewrite Hp in H. discriminate H.
Qed.

(** The override that returns the Fulfilled lead 1 of the Fulfilled order
    1 to stock: the lead becomes Unassigned and still refers to order 1. *)
Lemma updateLeadStatus_touches_status_only_witness :
  run (updateLeadStatus 1 (Some "bogus") 100) settled None
  = (Err InvalidStatus, settled)
  /\ exists l t',
       run (updateLeadStatus 1 (Some "unassigned") 100) settled None
       = (Ok l, t')
       /\ l_status l = Unassigned /\ l_order_id l = Some 1
       /\ order_status_of 1 t' = Some OFulfilled
       /\ exists s st,
            Some "unassigned" = Some s /\ parse_lead_status s = Some st
            /\ orders t' = orders settled
            /\ state_caps t' = state_caps settled
            /\ orders_seq t' = orders_seq settled
            /\ Forall2 (status_overridden 1 st 100) (leads settled) (leads t')
            /\ hd_error (select_lead 1 t') = Some l.
Proof.
  split.
  - apply (updateLeadStatus_touches_status_only 1 (Some "bogus") 100 settled None).
    right. exists "bogus". repeat split; discriminate.
  - eexists. eexists. split; [vm_compute; reflexivity|].
    split; [reflexivity|]. split; [reflexivity|]. split; [reflexivity|].
    apply (updateLeadStatus_touches_status_only 1 (Some "unassigned") 100
             settled None).
    vm_compute. reflexivity.
Defined.

(** ** The rows a pass selects *)

Lemma lead_status_eqb_eq a b : lead_status_eqb a b = true <-> a = b.
Proof. destruct a, b; simpl; split; intros H; congruence. Qed.

Lemma is_unassigned_in_spec s l :
  is_unassigned_in s l = true <-> l_state l = s /\ l_status l = Unassigned.
Proof.
  unfold is_unassigned_in.
  rewrite andb_true_iff, String.eqb_eq, lead_status_eqb_eq. reflexivity.
Qed.

Lemma is_assigned_in_spec s l :
  is_assigned_in s l = true <-> l_state l = s /\ l_status l = Assigned.
Proof.
  unfold is_assigned_in.
  rewrite andb_true_iff, String.eqb_eq, lead_status_eqb_eq. reflexivity.
Qed.

Lemma insert_by_created_at_perm x l :
  Permutation (insert_by_created_at x l) (x :: l).
Proof.
  induction l as [|y ys IH]; simpl; [apply Permutation_refl|].
  destruct (l_created_at x <=? l_created_at y).
  - apply Permutation_refl.
  - eapply Permutation_trans; [apply perm_skip, IH|apply perm_swap].
Qed.

Lemma order_by_created_at_perm l : Permutation (order_by_created_at l) l.
Proof.
  induction l as [|x xs IH]; simpl; [apply perm_nil|].
  eapply Permutation_trans; [apply insert_by_created_at_perm|].
  apply perm_skip, IH.
Qed.

Lemma limit_firstn {A : Type} n (l : list A) :
  0 <= n -> limit n l = firstn (Z.to_nat n) l.
Proof.
  intros H. unfold limit.
  destruct (n <? 0) eqn:E; [apply Z.ltb_lt in E; lia|reflexivity].
Qed.

Lemma firstn_incl {A : Type} n (l : list A) x : In x (firstn n l) -> In x l.
Proof.
  intros H. rewrite <- (firstn_skipn n l). apply in_or_app. left. exact H.
Qed.

Lemma limit_incl {A : Type} n (l : list A) x : In x (limit n l) -> In x l.
Proof.
  unfold limit. destruct (n <? 0); [tauto|]. apply firstn_incl.
Qed.

Lemma NoDup_firstn {A : Type} n (l : list A) : NoDup l -> NoDup (firstn n l).
Proof.
  intros H. rewrite <- (firstn_skipn n l) in H.
  apply NoDup_app_remove_r in H. exact H.
Qed.

Lemma NoDup_map_filter {A B : Type} (f : A -> B) p (l : list A) :
  NoDup (map f l) -> NoDup (map f (filter p l)).
Proof.
  induction l as [|x xs IH]; simpl; intros H; [constructor|].
  inversion H as [|? ? Hnin Hnd]; subst.
  destruct (p x); simpl; [|apply IH, Hnd].
  constructor; [|apply IH, Hnd].
  intros Hin. apply Hnin. apply in_map_iff in Hin as [y [Hy Hin]].
  apply filter_In in Hin as [Hin _]. apply in_map_iff. eauto.
Qed.

Lemma select_rows_in s n t r :
  In r (select_oldest_unassigned s n t) ->
  In r (leads t) /\ l_state r = s /\ l_status r = Unassigned.
Proof.
  unfold select_oldest_unassigned. intros H. apply limit_incl in H.
  apply (Permutation_in _ (order_by_created_at_perm _)) in H.
  apply filter_In in H as [Hin Hp]. apply is_unassigned_in_spec in Hp. tauto.
Qed.

Lemma select_rows_nodup s n t :
  ids_unique t -> NoDup (map l_id (select_oldest_unassigned s n t)).
Proof.
  unfold ids_unique, select_oldest_unassigned, limit. intros H.
  assert (NoDup (map l_id (order_by_created_at
                             (filter (is_unassigned_in s) (leads t))))) as Hs.
  { eapply Permutation_NoDup.
    - apply Permutation_map, Permutation_sym, order_by_created_at_perm.
    - apply NoDup_map_filter, H. }
  destruct (n <? 0); [exact Hs|].
  rewrite <- firstn_map. apply NoDup_firstn, Hs.
Qed.

(** One pass of the region loop, for the caps read at the start of the
    creation, the id of the new order and the clock reading of the call. *)
Section Pass.

Variable stateCaps : string -> option Z.
Variables order_id now : Z.

Lemma pass_rows_in s t r :
  In r (pass_rows stateCaps s t) ->
  In r (leads t) /\ l_state r = s /\ l_status r = Unassigned.
Proof.
  unfold pass_rows. destruct (positive _); [apply select_rows_in|intros []].
Qed.

Lemma pass_rows_nodup s t :
  ids_unique t -> NoDup (map l_id (pass_rows stateCaps s t)).
Proof.
  unfold pass_rows. intros H.
  destruct (positive _); [apply select_rows_nodup, H|constructor].
Qed.

Lemma pass_rows_length s t :
  pass_rows stateCaps s t = []
  \/ exists maxLeads,
       or_default (get_property stateCaps s) 10 = Some maxLeads
       /\ count_assigned s t
          + Z.of_nat (List.length (pass_rows stateCaps s t)) <= maxLeads.
Proof.
  unfold pass_rows.
  destruct (or_default (get_property stateCaps s) 10) as [m|]; simpl;
    [|left; reflexivity].
  destruct (0 <? _) eqn:E; [right|left; reflexivity].
  exists m. split; [reflexivity|].
  apply Z.ltb_lt in E. unfold select_oldest_unassigned.
  rewrite limit_firstn by lia.
  match goal with |- context [firstn ?n ?l] =>
    pose proof (firstn_le_length n l) as Hlen end.
  lia.
Qed.

(** ** What marking does, row by row *)

Lemma unique_row (ls : list lead) a b :
  NoDup (map l_id ls) -> In a ls -> In b ls -> l_id a = l_id b -> a = b.
Proof.
  induction ls as [|x xs IH]; simpl; intros Hnd Ha Hb Hid; [contradiction|].
  inversion Hnd as [|? ? Hnin Hnd']; subst.
  destruct Ha as [Ha|Ha], Hb as [Hb|Hb]; subst.
  - reflexivity.
  - exfalso. apply Hnin. rewrite Hid. apply in_map, Hb.
  - exfalso. apply Hnin. rewrite <- Hid. apply in_map, Ha.
  - apply IH; assumption.
Qed.

Lemma mem_id_in x ids : mem_id x ids = true <-> In x ids.
Proof.
  unfold mem_id. rewrite existsb_exists. split.
  - intros [y [Hin Heq]]. apply Z.eqb_eq in Heq. subst. exact Hin.
  - intros Hin. exists x. split; [exact Hin|apply Z.eqb_refl].
Qed.

(** In a table with unique ids, the rows whose id is among the ids of
    selected rows are the selected rows themselves. *)
Lemma marked_is_selected t rows l :
  ids_unique t -> (forall r, In r rows -> In r (leads t)) ->
  In l (leads t) ->
  (mem_id (l_id l) (map l_id rows) = true <-> In l rows).
Proof.
  intros Hu Hsub Hl. rewrite mem_id_in, in_map_iff. split.
  - intros [r [Hid Hr]].
    assert (r = l) by (eapply unique_row; eauto). subst. exact Hr.
  - intros Hin. exists l. split; [reflexivity|exact Hin].
Qed.

Lemma Forall2_map_in {A : Type} (R : A -> A -> Prop) (f : A -> A) (l : list A) :
  (forall x, In x l -> R x (f x)) -> Forall2 R l (map f l).
Proof.
  induction l as [|x xs IH]; simpl; intros H; constructor.
  - apply H. left; reflexivity.
  - apply IH. intros y Hy. apply H. right; exact Hy.
Qed.

Lemma Forall2_compose {A : Type} (R : A -> A -> Prop) (l1 l2 l3 : list A) :
  (forall x y z, R x y -> R y z -> R x z) ->
  Forall2 R l1 l2 -> Forall2 R l2 l3 -> Forall2 R l1 l3.
Proof.
  intros Htr H12. revert l3.
  induction H12 as [|x y xs ys Hxy _ IH]; intros l3 H23;
    inversion H23; subst; constructor; eauto.
Qed.

Lemma Forall2_same {A : Type} (R : A -> A -> Prop) (l : list A) :
  (forall x, R x x) -> Forall2 R l l.
Proof. intros H. induction l; constructor; auto. Qed.

Lemma kept_or_assigned_trans x y z :
  kept_or_assigned order_id now x y -> kept_or_assigned order_id now y z ->
  kept_or_assigned order_id now x z.
Proof.
  unfold kept_or_assigned.
  intros [Hxy|[Hx Hxy]] [Hyz|[Hy Hyz]]; subst; auto;
    simpl in Hy; discriminate.
Qed.

Lemma mark_assigned_ids ids t :
  map l_id (leads (mark_assigned order_id now ids t)) = map l_id (leads t).
Proof.
  unfold mark_assigned; simpl. rewrite map_map. apply map_ext.
  intros l. destruct (mem_id (l_id l) ids); reflexivity.
Qed.

Lemma mark_assigned_unique ids t :
  ids_unique t -> ids_unique (mark_assigned order_id now ids t).
Proof. unfold ids_unique. rewrite mark_assigned_ids. tauto. Qed.

(** One pass changes a row only by assigning it, and only if the row was
    selected, hence Unassigned. *)
Lemma pass_pointwise s t :
  ids_unique t ->
  Forall2 (fun l l' =>
             (In l (pass_rows stateCaps s t) -> l' = assign_lead order_id now l)
             /\ (~ In l (pass_rows stateCaps s t) -> l' = l))
          (leads t)
          (leads (mark_assigned order_id now
                    (map l_id (pass_rows stateCaps s t)) t)).
Proof.
  intros Hu. unfold mark_assigned; simpl. apply Forall2_map_in.
  intros l Hl.
  pose proof (marked_is_selected t (pass_rows stateCaps s t) l Hu
                (fun r Hr => proj1 (pass_rows_in _ _ _ Hr)) Hl) as Hm.
  destruct (mem_id (l_id l) (map l_id (pass_rows stateCaps s t))).
  - split; [reflexivity|]. intros Hn. exfalso. apply Hn, Hm. reflexivity.
  - split; [|reflexivity]. intros Hin. apply Hm in Hin. discriminate.
Qed.

Lemma pass_kept_or_assigned s t :
  ids_unique t ->
  Forall2 (kept_or_assigned order_id now) (leads t)
          (leads (mark_assigned order_id now
                    (map l_id (pass_rows stateCaps s t)) t)).
Proof.
  intros Hu. unfold mark_assigned; simpl. apply Forall2_map_in.
  intros l Hl.
  pose proof (marked_is_selected t (pass_rows stateCaps s t) l Hu
                (fun r Hr => proj1 (pass_rows_in _ _ _ Hr)) Hl) as Hm.
  destruct (mem_id (l_id l) (map l_id (pass_rows stateCaps s t))).
  - right. split; [|reflexivity].
    assert (In l (pass_rows stateCaps s t)) as Hin by (apply Hm; reflexivity).
    apply pass_rows_in in Hin. tauto.
  - left. reflexivity.
Qed.

Lemma allocate_unique states acc t :
  ids_unique t ->
  ids_unique (snd (allocate stateCaps order_id now states acc t)).
Proof.
  revert acc t; induction states as [|s states IH]; intros acc t Hu; simpl.
  - exact Hu.
  - apply IH, mark_assigned_unique, Hu.
Qed.

Lemma allocate_other_tables states acc t :
  let t' := snd (allocate stateCaps order_id now states acc t) in
  orders t' = orders t /\ state_caps t' = state_caps t
  /\ orders_seq t' = orders_seq t
  /\ map l_id (leads t') = map l_id (leads t).
Proof.
  revert acc t; induction states as [|s states IH]; intros acc t; simpl.
  - repeat split.
  - destruct (IH (acc ++ map (assigned_copy order_id)
                               (pass_rows stateCaps s t))
                 (mark_assigned order_id now
                    (map l_id (pass_rows stateCaps s t)) t))
      as [H1 [H2 [H3 H4]]].
    rewrite H1, H2, H3, H4, mark_assigned_ids. repeat split.
Qed.

Lemma allocate_kept_or_assigned states acc t :
  ids_unique t ->
  Forall2 (kept_or_assigned order_id now) (leads t)
          (leads (snd (allocate stateCaps order_id now states acc t))).
Proof.
  revert acc t; induction states as [|s states IH]; intros acc t Hu; simpl.
  - apply Forall2_same. intros x. left. reflexivity.
  - eapply Forall2_compose.
    + apply kept_or_assigned_trans.
    + apply pass_kept_or_assigned, Hu.
    + apply IH, mark_assigned_unique, Hu.
Qed.

End Pass.

(** ** Order creation touches Unassigned leads only *)

Lemma createOrder_ok n e s now t plan o assigned t' :
  run (createOrder n e s now) t plan = (Ok (o, assigned), t') ->
  o_id o = orders_seq t + 1
  /\ assigned = fst (allocate (fromEntries (state_caps t)) (o_id o) now
                              (states_or_default s) []
                              (snd (insert_order n e now t)))
  /\ t' = snd (allocate (fromEntries (state_caps t)) (o_id o) now
                        (states_or_default s) []
                        (snd (insert_order n e now t))).
Proof.
  intros H. apply run_fault_insensitive in H;
    [|apply fault_insensitive_createOrder].
  destruct (falsy_string n) eqn:Hn.
  { rewrite createOrder_invalid in H by (rewrite Hn; reflexivity).
    discriminate. }
  destruct (falsy_string e) eqn:He.
  { rewrite createOrder_invalid in H by (rewrite Hn, He; reflexivity).
    discriminate. }
  destruct (createOrder_calm n e s now t Hn He) as [o0 [Hid Hrun]].
  rewrite Hrun in H. inversion H; subst. repeat split. exact Hid.
Qed.

Lemma allocate_assigned_nodup stateCaps order_id now states acc t :
  ids_unique t ->
  NoDup (map l_id acc) ->
  (forall l, In l (leads t) -> In (l_id l) (map l_id acc) ->
             l_status l = Assigned) ->
  NoDup (map l_id (fst (allocate stateCaps order_id now states acc t))).
Proof.
  revert acc t; induction states as [|s states IH];
    intros acc t Hu Hnd Hacc; simpl; [exact Hnd|].
  set (rows := pass_rows stateCaps s t).
  assert (map l_id (acc ++ map (assigned_copy order_id) rows)
          = map l_id acc ++ map l_id rows) as Hids.
  { rewrite map_app, map_map. reflexivity. }
  apply IH.
  - apply mark_assigned_unique, Hu.
  - rewrite Hids. apply NoDup_app.
    + exact Hnd.
    + apply pass_rows_nodup, Hu.
    + intros x Hx Hx'. apply in_map_iff in Hx' as [r [Hr Hin]].
      apply pass_rows_in in Hin as [Hin [_ Hst]]. subst x.
      specialize (Hacc r Hin Hx). congruence.
  - intros l' Hl' Hid. unfold mark_assigned in Hl'; simpl in Hl'.
    apply in_map_iff in Hl' as [l [Hf Hl]].
    rewrite Hids in Hid. apply in_app_or in Hid.
    destruct (mem_id (l_id l) (map l_id rows)) eqn:Hm; subst l'.
    + reflexivity.
    + destruct Hid as [Hid|Hid].
      * apply Hacc; assumption.
      * apply mem_id_in in Hid. congruence.
Qed.

(** C10. Whatever order creation answers, a lead that was Assigned or
    Fulfilled before the call is the same row after it (status, order
    reference and every other column), also when its region is listed
    twice and when it refers to another order; and no lead id occurs
    twice among the assigned leads the call returns.  Lead ids are the
    primary key of the table. *)
Theorem createOrder_touches_unassigned_only :
  forall (create : string -> string -> option (list string) -> Z ->
                   M (order * list lead)),
    create = createOrder \/ create = createOrderAutomation ->
    forall (t : tables) n e s now plan r t',
      ids_unique t ->
      run (create n e s now) t plan = (r, t') ->
      Forall2 (fun l l' => l_id l' = l_id l
                           /\ (l_status l <> Unassigned -> l' = l))
              (leads t) (leads t')
      /\ (forall o assigned, r = Ok (o, assigned) ->
                             NoDup (map l_id assigned)).
Proof.
  intros create Hc t n e s now plan r t' Hu Hrun.
  assert (create = createOrder) by (destruct Hc; subst; reflexivity).
  subst create. clear Hc.
  destruct r as [[o assigned]|err].
  - apply createOrder_ok in Hrun as [Hid [Ha Ht]]. split.
    + subst t'.
      eapply Forall2_impl;
        [|apply (allocate_kept_or_assigned _ (o_id o) now _ []
                   (snd (insert_order n e now t)) Hu)].
      intros l l' [H|[Hst H]]; subst l'; split;
        try reflexivity; try tauto; congruence.
    + intros o' assigned' Heq. inversion Heq; subst o' assigned'.
      rewrite Ha. apply allocate_assigned_nodup.
      * exact Hu.
      * constructor.
      * intros l _ [].
  - apply run_atomic in Hrun; [|apply atomic_createOrder]. subst t'. split.
    + apply Forall2_same. intros x. split; [reflexivity|tauto].
    + intros o assigned Heq. discriminate.
Qed.

Lemma createOrder_touches_unassigned_only_witness :
  Forall2 (fun l l' => l_id l' = l_id l /\ (l_status l <> Unassigned -> l' = l))
          (leads settled)
          (leads (snd (run (createOrder "Cy" "cy@example.com"
                              (Some ["CA"; "CA"]) 100) settled None)))
  /\ (forall o assigned,
        fst (run (createOrder "Cy" "cy@example.com" (Some ["CA"; "CA"]) 100)
                 settled None) = Ok (o, assigned) ->
        NoDup (map l_id assigned)).
Proof.
  apply (createOrder_touches_unassigned_only createOrder (or_introl eq_refl)
           settled "Cy" "cy@example.com" (Some ["CA"; "CA"]) 100 None).
  - unfold ids_unique. simpl.
    constructor; [simpl; intros [H|[]]; discriminate|].
    constructor; [intros []|constructor].
  - apply surjective_pairing.
Defined.

(** ** Counting Assigned leads *)

Lemma filter_or_length {A : Type} (p q : A -> bool) (l : list A) :
  (List.length (filter (fun x => p x || q x) l)
   <= List.length (filter p l) + List.length (filter q l))%nat.
Proof.
  induction l as [|x xs IH]; simpl; [lia|].
  destruct (p x), (q x); simpl; lia.
Qed.

Lemma filter_map_length {A : Type} (p : A -> bool) (f : A -> A) (l : list A) :
  List.length (filter p (map f l))
  = List.length (filter (fun x => p (f x)) l).
Proof.
  induction l as [|x xs IH]; simpl; [reflexivity|].
  destruct (p (f x)); simpl; rewrite IH; reflexivity.
Qed.

Lemma filter_le_pointwise {A : Type} (p q : A -> bool) (l : list A) :
  (forall x, In x l -> p x = true -> q x = true) ->
  (List.length (filter p l) <= List.length (filter q l))%nat.
Proof.
  induction l as [|x xs IH]; simpl; intros H; [lia|].
  assert (List.length (filter p xs) <= List.length (filter q xs))%nat as IH'
    by (apply IH; intros y Hy; apply H; right; exact Hy).
  destruct (p x) eqn:Hp.
  - rewrite (H x (or_introl eq_refl) Hp). simpl. lia.
  - destruct (q x); simpl; lia.
Qed.

Lemma filter_none {A : Type} (l : list A) :
  filter (fun _ => false) l = [].
Proof. induction l; simpl; auto. Qed.

Lemma filter_id_absent i (ls : list lead) :
  ~ In i (map l_id ls) -> filter (fun l => l_id l =? i) ls = [].
Proof.
  induction ls as [|l ls IH]; simpl; intros H; [reflexivity|].
  destruct (l_id l =? i) eqn:E.
  - apply Z.eqb_eq in E. exfalso. apply H. left. exact E.
  - apply IH. intros Hin. apply H. right. exact Hin.
Qed.

Lemma filter_id_at_most_one i (ls : list lead) :
  NoDup (map l_id ls) ->
  (List.length (filter (fun l => Z.eqb (l_id l) i) ls) <= 1)%nat.
Proof.
  induction ls as [|l ls IH]; simpl; intros H; [lia|].
  inversion H as [|? ? Hnin Hnd]; subst.
  destruct (l_id l =? i) eqn:E.
  - apply Z.eqb_eq in E. subst i. rewrite filter_id_absent by exact Hnin.
    simpl. lia.
  - apply IH, Hnd.
Qed.

Lemma filter_ids_length ids (ls : list lead) :
  NoDup (map l_id ls) ->
  (List.length (filter (fun l => mem_id (l_id l) ids) ls)
   <= List.length ids)%nat.
Proof.
  intros Hnd. induction ids as [|i ids IH]; simpl.
  - unfold mem_id; simpl. rewrite filter_none. simpl. lia.
  - pose proof (filter_or_length (fun l => l_id l =? i)
                  (fun l => mem_id (l_id l) ids) ls) as H1.
    pose proof (filter_id_at_most_one i ls Hnd) as H2.
    unfold mem_id in *. simpl. lia.
Qed.

Section Counting.

Variable stateCaps : string -> option Z.
Variables order_id now : Z.

(** Marking selected Unassigned rows of region [s] raises the Assigned
    count of [s] by at most their number, and no other count. *)
Lemma count_assigned_mark_le rows s R t :
  ids_unique t ->
  (forall r, In r rows ->
             In r (leads t) /\ l_state r = s /\ l_status r = Unassigned) ->
  count_assigned R (mark_assigned order_id now (map l_id rows) t)
  <= count_assigned R t
     + (if String.eqb s R then Z.of_nat (List.length rows) else 0).
Proof.
  intros Hu Hrows. unfold count_assigned, mark_assigned; simpl.
  rewrite filter_map_length.
  set (marked := fun l : lead =>
                   mem_id (l_id l) (map l_id rows) && String.eqb s R).
  assert (List.length
            (filter (fun x => is_assigned_in R
                                (if mem_id (l_id x) (map l_id rows)
                                 then assign_lead order_id now x else x))
                    (leads t))
          <= List.length (filter (fun l => is_assigned_in R l || marked l)
                                 (leads t)))%nat as H1.
  { apply filter_le_pointwise. intros l Hl Hp. apply orb_true_iff.
    destruct (mem_id (l_id l) (map l_id rows)) eqn:Hm; [|left; exact Hp].
    right. unfold marked. rewrite Hm. simpl.
    apply (marked_is_selected t rows l Hu
             (fun r Hr => proj1 (Hrows r Hr)) Hl) in Hm.
    apply Hrows in Hm as [_ [Hs _]].
    apply is_assigned_in_spec in Hp as [Hst _]. simpl in Hst.
    apply String.eqb_eq. congruence. }
  pose proof (filter_or_length (is_assigned_in R) marked (leads t)) as H2.
  assert (List.length (filter marked (leads t))
          <= (if String.eqb s R then List.length rows else 0))%nat as H3.
  { unfold marked. destruct (String.eqb s R).
    - rewrite <- (length_map l_id rows).
      erewrite filter_ext; [apply filter_ids_length, Hu|].
      intros l. apply andb_true_r.
    - erewrite filter_ext with (g := fun _ => false);
        [|intros l; apply andb_false_r].
      rewrite filter_none. simpl. lia. }
  destruct (String.eqb s R); lia.
Qed.

(** After a pass over region [s] the Assigned count of [s] has not
    grown, or is at most the limit the loop worked with; the count of any
    other region has not grown. *)
Lemma pass_count_bound s R t :
  ids_unique t ->
  let t' := mark_assigned order_id now (map l_id (pass_rows stateCaps s t)) t in
  count_assigned R t' <= count_assigned R t
  \/ exists maxLeads,
       or_default (get_property stateCaps R) 10 = Some maxLeads
       /\ count_assigned R t' <= maxLeads.
Proof.
  intros Hu t'.
  pose proof (count_assigned_mark_le (pass_rows stateCaps s t)
                s R t Hu (fun r Hr => pass_rows_in _ _ _ _ Hr)) as H.
  fold t' in H.
  destruct (String.eqb s R) eqn:E; [|left; lia].
  apply String.eqb_eq in E. subst R.
  destruct (pass_rows_length stateCaps s t) as [Hnil|[m [Hm Hlen]]].
  - left. rewrite Hnil in H. simpl in H. lia.
  - right. exists m. split; [exact Hm|lia].
Qed.

Lemma allocate_count_bound states acc R B t :
  ids_unique t ->
  (forall maxLeads,
     or_default (get_property stateCaps R) 10 = Some maxLeads ->
     maxLeads <= B) ->
  count_assigned R t <= B ->
  count_assigned R (snd (allocate stateCaps order_id now states acc t)) <= B.
Proof.
  revert acc t; induction states as [|s states IH];
    intros acc t Hu HB Hc; simpl; [exact Hc|].
  apply IH; [apply mark_assigned_unique, Hu|exact HB|].
  destruct (pass_count_bound s R t Hu) as [H|[m [Hm H]]].
  - lia.
  - apply HB in Hm. lia.
Qed.

(** A region whose limit does not exceed its Assigned count gets no lead. *)
Lemma allocate_skips_full_region states acc R t :
  ids_unique t ->
  (forall maxLeads,
     or_default (get_property stateCaps R) 10 = Some maxLeads ->
     maxLeads <= count_assigned R t) ->
  Forall (fun l => l_state l <> R) acc ->
  Forall (fun l => l_state l <> R)
         (fst (allocate stateCaps order_id now states acc t)).
Proof.
  revert acc t; induction states as [|s states IH];
    intros acc t Hu Hfull Hacc; simpl; [exact Hacc|].
  pose proof (count_assigned_mark_le (pass_rows stateCaps s t)
                s R t Hu (fun r Hr => pass_rows_in _ _ _ _ Hr)) as Hle.
  assert (count_assigned R t
          <= count_assigned R (mark_assigned order_id now
                                 (map l_id (pass_rows stateCaps s t)) t))
    as Hmono.
  { unfold count_assigned, mark_assigned; simpl. rewrite filter_map_length.
    apply inj_le. apply filter_le_pointwise. intros l Hl Hp.
    destruct (mem_id (l_id l) (map l_id (pass_rows stateCaps s t))) eqn:Hm;
      [|exact Hp].
    apply (marked_is_selected t _ l Hu
             (fun r Hr => proj1 (pass_rows_in _ _ _ _ Hr)) Hl) in Hm.
    apply pass_rows_in in Hm as [_ [_ Hst]].
    apply is_assigned_in_spec in Hp as [_ Hp]. congruence. }
  apply IH.
  - apply mark_assigned_unique, Hu.
  - intros m Hm. apply Hfull in Hm. lia.
  - apply Forall_app. split; [exact Hacc|].
    apply Forall_forall. intros c Hc. apply in_map_iff in Hc as [r [Hr Hin]].
    subst c. simpl. intros Heq.
    pose proof (pass_rows_in _ _ _ _ Hin) as [_ [Hs _]].
    assert (s = R) as HsR by congruence.
    destruct (pass_rows_length stateCaps s t) as [Hnil|[m [Hm Hlen]]].
    + rewrite Hnil in Hin. exact Hin.
    + rewrite HsR in Hlen, Hm. apply Hfull in Hm.
      destruct (pass_rows stateCaps R t) eqn:Hrows.
      * rewrite HsR, Hrows in Hin. exact Hin.
      * simpl in Hlen. lia.
Qed.

End Counting.

(** ** What one engine call can do to the tables *)

Lemma run_map {A B : Type} (m : M A) (f : A -> B) t plan :
  run (bind m (fun a => ret (f a))) t plan
  = match run m t plan with
    | (Ok a, t') => (Ok (f a), t')
    | (Err e, t') => (Err e, t')
    end.
Proof.
  unfold run, bind. destruct (m (idle t plan)) as [[a|e] w]; reflexivity.
Qed.

Lemma executeOneTimeRule_calm id action now t :
  id <> 0 -> falsy_string action = false ->
  run (executeOneTimeRule (Some id) action now) t None
  = match select_order id t with
    | [] => (Err (OneTimeRuleFailed NotFound), t)
    | o :: _ =>
        if String.eqb (toLowerCase action) "fulfill" then
          if order_status_eqb (o_status o) OFulfilled
          then (Ok (AlreadyFulfilledReply o), t)
          else (Ok (FulfilledSuccessfully id),
                update_leads_fulfilled now id (update_order_fulfilled now id t))
        else if String.eqb (toLowerCase action) "cancel" then
          if order_status_eqb (o_status o) Cancelled
          then (Ok (AlreadyCancelledReply o), t)
          else (Ok (CancelledAndReturned id),
                update_leads_released now id (update_order_cancelled now id t))
        else (Err (OneTimeRuleFailed InvalidAction), t)
    end.
Proof.
  intros Hid Hf. unfold run, executeOneTimeRule, idle; simpl.
  apply Z.eqb_neq in Hid. rewrite Hid, Hf; simpl.
  unfold rethrow, transaction, db_begin; simpl. rewrite bind_reading.
  destruct (select_order id t) as [|o rest]; [reflexivity|].
  destruct (String.eqb (toLowerCase action) "fulfill").
  - destruct (order_status_eqb (o_status o) OFulfilled); reflexivity.
  - destruct (String.eqb (toLowerCase action) "cancel"); [|reflexivity].
    destruct (order_status_eqb (o_status o) Cancelled); reflexivity.
Qed.

(** The tables after an engine call are the tables before it, or the
    outcome of one allocation, one fulfilment, one cancellation or one
    deletion. *)
Lemma after_cases r now plan t :
  after r now plan t = t
  \/ (exists n e s,
        after r now plan t
        = snd (allocate (fromEntries (state_caps t)) (orders_seq t + 1) now
                        (states_or_default s) []
                        (snd (insert_order n e now t))))
  \/ (exists id,
        after r now plan t
        = update_leads_fulfilled now id (update_order_fulfilled now id t))
  \/ (exists id,
        after r now plan t
        = update_leads_released now id (update_order_cancelled now id t))
  \/ (exists id,
        after r now plan t
        = delete_order id (update_leads_released now id t)).
Proof.
  unfold after.
  destruct (run (handle r now) t plan) as [[resp|err] t'] eqn:E; simpl.
  2:{ left. eapply run_atomic; [apply atomic_handle|exact E]. }
  apply run_fault_insensitive in E; [|apply fault_insensitive_handle].
  destruct r as [n e s|n e s|id|orderId|id|orderId|orderId action];
    simpl in E; rewrite run_map in E.
  - destruct (run (createOrder n e s now) t None) as [[[o a]|err] t1] eqn:E1;
      inversion E; subst.
    apply createOrder_ok in E1 as [Hid [_ Ht]]. rewrite Hid in Ht.
    right; left. exists n, e, s. exact Ht.
  - destruct (run (createOrderAutomation n e s now) t None)
      as [[[o a]|err] t1] eqn:E1; inversion E; subst.
    apply createOrder_ok in E1 as [Hid [_ Ht]]. rewrite Hid in Ht.
    right; left. exists n, e, s. exact Ht.
  - rewrite fulfillOrder_calm in E.
    destruct (select_order id t) as [|o rest]; [discriminate|].
    destruct (order_status_eqb (o_status o) OFulfilled); [discriminate|].
    inversion E; subst. right; right; left. exists id. reflexivity.
  - destruct orderId as [id|]; [|discriminate].
    destruct (Z.eq_dec id 0) as [->|Hid]; [discriminate|].
    rewrite fulfillOrderAutomation_calm in E by exact Hid.
    destruct (select_order id t) as [|o rest]; [discriminate|].
    destruct (order_status_eqb (o_status o) OFulfilled); [discriminate|].
    inversion E; subst. right; right; left. exists id. reflexivity.
  - rewrite deleteOrder_calm in E.
    destruct (select_order id t) as [|o rest]; [discriminate|].
    inversion E; subst. right; right; right; right. exists id. reflexivity.
  - destruct orderId as [id|]; [|discriminate].
    destruct (Z.eq_dec id 0) as [->|Hid]; [discriminate|].
    rewrite deleteOrderAutomation_calm, deleteOrder_calm in E by exact Hid.
    destruct (select_order id t) as [|o rest]; [discriminate|].
    inversion E; subst. right; right; right; right. exists id. reflexivity.
  - destruct orderId as [id|]; [|discriminate].
    destruct (Z.eq_dec id 0) as [->|Hid]; [discriminate|].
    destruct (falsy_string action) eqn:Hf.
    { unfold run, executeOneTimeRule in E. simpl in E.
      rewrite Hf, orb_true_r in E. discriminate. }
    rewrite executeOneTimeRule_calm in E by assumption.
    destruct (select_order id t) as [|o rest]; [discriminate|].
    destruct (String.eqb (toLowerCase action) "fulfill").
    + destruct (order_status_eqb (o_status o) OFulfilled);
        inversion E; subst; [left; reflexivity|].
      right; right; left. exists id. reflexivity.
    + destruct (String.eqb (toLowerCase action) "cancel"); [|discriminate].
      destruct (order_status_eqb (o_status o) Cancelled);
        inversion E; subst; [left; reflexivity|].
      right; right; right; left. exists id. reflexivity.
Qed.

Lemma after_frame r now plan t :
  map l_id (leads (after r now plan t)) = map l_id (leads t)
  /\ state_caps (after r now plan t) = state_caps t.
Proof.
  destruct (after_cases r now plan t)
    as [H|[[n [e [s H]]]|[[id H]|[[id H]|[id H]]]]]; rewrite H.
  - split; reflexivity.
  - destruct (allocate_other_tables (fromEntries (state_caps t))
                (orders_seq t + 1) now (states_or_default s) []
                (snd (insert_order n e now t))) as [_ [H2 [_ H4]]].
    split; assumption.
  - split; [|reflexivity]. simpl. rewrite map_map. apply map_ext.
    intros l. destruct (opt_Z_eqb (l_order_id l) id); reflexivity.
  - split; [|reflexivity]. simpl. rewrite map_map. apply map_ext.
    intros l. destruct (opt_Z_eqb (l_order_id l) id); reflexivity.
  - split; [|reflexivity]. simpl. rewrite map_map. apply map_ext.
    intros l. destruct (opt_Z_eqb (l_order_id l) id); reflexivity.
Qed.

Lemma count_assigned_not_raised R (f : lead -> lead) (ls : list lead) :
  (forall l, is_assigned_in R (f l) = true -> is_assigned_in R l = true) ->
  (List.length (filter (is_assigned_in R) (map f ls))
   <= List.length (filter (is_assigned_in R) ls))%nat.
Proof.
  intros H. rewrite filter_map_length. apply filter_le_pointwise.
  intros l _. apply H.
Qed.

Lemma count_assigned_fulfilled R now id t :
  count_assigned R (update_leads_fulfilled now id
                      (update_order_fulfilled now id t))
  <= count_assigned R t.
Proof.
  unfold count_assigned; simpl. apply inj_le, count_assigned_not_raised.
  intros l. destruct (opt_Z_eqb (l_order_id l) id); [|tauto].
  unfold is_assigned_in; simpl. rewrite andb_false_r. discriminate.
Qed.

Lemma count_assigned_released R now id t :
  count_assigned R (update_leads_released now id t) <= count_assigned R t.
Proof.
  unfold count_assigned; simpl. apply inj_le, count_assigned_not_raised.
  intros l. destruct (opt_Z_eqb (l_order_id l) id); [|tauto].
  unfold is_assigned_in; simpl. rewrite andb_false_r. discriminate.
Qed.

(** The limit the loop works with is the cap, unless the entry is zero
    or the region has no entry and reads an inherited member. *)
Lemma or_default_cap t R maxLeads :
  fromEntries (state_caps t) R <> Some 0 ->
  or_default (get_property (fromEntries (state_caps t)) R) 10 = Some maxLeads ->
  maxLeads = cap t R.
Proof.
  unfold or_default, get_property, cap. intros H.
  destruct (fromEntries (state_caps t) R) as [v|].
  - destruct (v =? 0) eqn:E.
    + apply Z.eqb_eq in E. subst. contradiction.
    + congruence.
  - destruct (inherited R); congruence.
Qed.

Lemma inherited_two_letters R :
  String.length R = 2%nat -> inherited R = false.
Proof.
  destruct R as [|a [|b [|c R]]]; simpl; try discriminate. intros _.
  unfold inherited, object_prototype_names. simpl.
  repeat match goal with
         | |- context [Ascii.eqb ?x ?y] => destruct (Ascii.eqb x y)
         end; reflexivity.
Qed.

Lemma or_default_cap_two_letters t R :
  fromEntries (state_caps t) R <> Some 0 -> String.length R = 2%nat ->
  or_default (get_property (fromEntries (state_caps t)) R) 10
  = Some (cap t R).
Proof.
  intros H Hlen. unfold or_default, get_property, cap.
  rewrite (inherited_two_letters R Hlen).
  destruct (fromEntries (state_caps t) R) as [v|]; [|reflexivity].
  destruct (v =? 0) eqn:E; [|reflexivity].
  apply Z.eqb_eq in E. subst. contradiction.
Qed.

Lemma after_cap_bound r now plan t R :
  ids_unique t -> fromEntries (state_caps t) R <> Some 0 ->
  cap_bound R t -> cap_bound R (after r now plan t).
Proof.
  intros Hu Hz Hb. unfold cap_bound, cap in *.
  destruct (after_frame r now plan t) as [_ Hcaps]. rewrite Hcaps.
  fold (cap t R) in *.
  destruct (after_cases r now plan t)
    as [H|[[n [e [s H]]]|[[id H]|[[id H]|[id H]]]]]; rewrite H.
  - exact Hb.
  - apply allocate_count_bound.
    + exact Hu.
    + intros m Hm. apply or_default_cap in Hm; [|exact Hz]. lia.
    + exact Hb.
  - pose proof (count_assigned_fulfilled R now id t). lia.
  - pose proof (count_assigned_released R now id
                  (update_order_cancelled now id t)) as H1.
    change (count_assigned R (update_order_cancelled now id t))
      with (count_assigned R t) in H1. lia.
  - pose proof (count_assigned_released R now id t) as H1.
    change (count_assigned R (delete_order id
                                (update_leads_released now id t)))
      with (count_assigned R (update_leads_released now id t)). lia.
Qed.

Lemma reachable_frame t t' :
  reachable t t' ->
  map l_id (leads t') = map l_id (leads t) /\ state_caps t' = state_caps t.
Proof.
  induction 1 as [|t1 r now plan _ [IH1 IH2]]; [split; reflexivity|].
  destruct (after_frame r now plan t1) as [H1 H2].
  rewrite H1, H2. split; assumption.
Qed.

(** ** The cap bound *)

(** C1, as the code has it.  Take a region whose cap entry is absent
    (default 10) or is not zero, and tables with unique lead ids.  If the
    Assigned leads of the region number at most max(0, cap), then the
    same holds, with the same cap, in every state reached from there by
    order creations, fulfilments, one-time rules and deletions, issued
    one after another, failing or not.  And a creation assigns no lead of
    a region whose cap is already reached; the cap of a region capped
    below zero is always reached, so such a region never receives a
    lead. *)
Theorem cap_bound_kept_by_engine_calls :
  forall (t : tables) (R : string),
    ids_unique t ->
    fromEntries (state_caps t) R <> Some 0 ->
    (cap_bound R t ->
     forall t', reachable t t' -> cap_bound R t' /\ cap t' R = cap t R)
    /\ ((cap t R < 0 \/ cap t R <= count_assigned R t) ->
        forall create, create = createOrder \/ create = createOrderAutomation ->
        forall n e s now plan o assigned t',
          run (create n e s now) t plan = (Ok (o, assigned), t') ->
          Forall (fun l => l_state l <> R) assigned).
Proof.
  intros t R Hu Hz. split.
  - intros Hb t' Hreach.
    assert (cap_bound R t' /\ ids_unique t'
            /\ state_caps t' = state_caps t) as [H1 [_ H3]].
    { induction Hreach as [|t1 r now plan Hreach [IH1 [IH2 IH3]]].
      - repeat split; assumption.
      - destruct (after_frame r now plan t1) as [Hids Hcaps].
        repeat split.
        + apply after_cap_bound; [exact IH2| |exact IH1].
          rewrite IH3. exact Hz.
        + unfold ids_unique. rewrite Hids. exact IH2.
        + rewrite Hcaps. exact IH3. }
    split; [exact H1|]. unfold cap. rewrite H3. reflexivity.
  - intros Hfull' create Hc n e s now plan o assigned t' Hrun.
    assert (cap t R <= count_assigned R t) as Hfull.
    { destruct Hfull' as [Hneg|Hfull]; [|exact Hfull].
      unfold count_assigned. lia. }
    assert (create = createOrder) by (destruct Hc; subst; reflexivity).
    subst create.
    apply createOrder_ok in Hrun as [_ [Ha _]]. rewrite Ha.
    apply allocate_skips_full_region.
    + exact Hu.
    + intros m Hm. apply or_default_cap in Hm; [|exact Hz]. subst m.
      exact Hfull.
    + constructor.
Qed.

Lemma tight_cap_unique : ids_unique tight_cap.
Proof.
  unfold ids_unique; simpl.
  constructor; [simpl; intros [H|[]]; discriminate|].
  constructor; [intros []|constructor].
Qed.

Lemma cap_bound_kept_by_engine_calls_witness :
  cap_bound "CA"
    (after (CreateOrder "Bea" "bea@example.com" (Some ["CA"])) 200 None
       (after (CreateOrder "Ann" "ann@example.com" (Some ["CA"; "CA"])) 100
              None tight_cap))
  /\ exists o assigned t',
       run (createOrder "Ann" "ann@example.com" (Some ["CA"]) 100)
           negative_cap None = (Ok (o, assigned), t')
       /\ Forall (fun l => l_state l <> "CA") assigned.
Proof.
  split.
  - assert (fromEntries (state_caps tight_cap) "CA" <> Some 0) as Hz
      by (simpl; discriminate).
    assert (cap_bound "CA" tight_cap) as Hb
      by (unfold cap_bound; vm_compute; discriminate).
    destruct (cap_bound_kept_by_engine_calls tight_cap "CA"
                tight_cap_unique Hz) as [H _].
    apply (H Hb). apply reach_call, reach_call, reach_start.
  - destruct (run (createOrder "Ann" "ann@example.com" (Some ["CA"]) 100)
                  negative_cap None) as [[[o assigned]|err] t'] eqn:E;
      [|vm_compute in E; discriminate E].
    exists o, assigned, t'. split; [reflexivity|].
    assert (ids_unique negative_cap) as Hu
      by (unfold ids_unique; simpl; constructor; [intros []|constructor]).
    assert (fromEntries (state_caps negative_cap) "CA" <> Some 0) as Hz
      by (simpl; discriminate).
    destruct (cap_bound_kept_by_engine_calls negative_cap "CA" Hu Hz)
      as [_ H].
    apply (H (or_introl eq_refl) createOrder (or_introl eq_refl)
             "Ann" "ann@example.com" (Some ["CA"]) 100 None o assigned t' E).
Defined.

(** C1 as worded fails: the status override belongs to the operations on
    the store and is not held to any cap.  With CA capped at 1, a creation
    assigns lead 1 and an override then makes lead 2 Assigned as well. *)
Lemma override_exceeds_cap :
  let t1 := after (CreateOrder "Ann" "ann@example.com" (Some ["CA"])) 100
                  None tight_cap in
  let t2 := snd (run (updateLeadStatus 2 (Some "assigned") 200) t1 None) in
  count_assigned "CA" tight_cap <= cap tight_cap "CA"
  /\ reachable_with_override tight_cap t2
  /\ cap t2 "CA" = 1
  /\ count_assigned "CA" t2 = 2
  /\ ~ count_assigned "CA" t2 <= cap t2 "CA".
Proof.
  intros t1 t2. split; [vm_compute; discriminate|]. split.
  - apply reach_o_override, reach_o_call, reach_o_start.
  - split; [reflexivity|]. split; [reflexivity|].
    vm_compute. intros H. apply H. reflexivity.
Qed.

(** The limit of a region capped at zero: the loop reads the entry 0 as
    unset and works with 10, so the creation assigns the lead. *)
Lemma zero_cap_is_read_as_unset :
  cap zero_cap "WA" = 0
  /\ or_default (get_property (fromEntries (state_caps zero_cap)) "WA") 10
     = Some 10
  /\ assigned_ids (run (createOrder "Ann" "ann@example.com" (Some ["WA"]) 100)
                       zero_cap None) = [1]
  /\ count_assigned "WA"
       (after (CreateOrder "Ann" "ann@example.com" (Some ["WA"])) 100 None
              zero_cap) = 1.
Proof. repeat split. Qed.

(** A region without entry whose name is that of an inherited member
    gets no lead: the limit is not a number.  Two-letter codes are not
    concerned. *)
Lemma inherited_member_is_no_cap :
  or_default (get_property (fromEntries (state_caps odd_region)) "toString") 10
  = None
  /\ assigned_ids (run (createOrder "Ann" "ann@example.com"
                          (Some ["toString"]) 100) odd_region None) = [].
Proof. split; reflexivity. Qed.

(** ** Oldest first, ties by id *)

Lemma older_or_same_true a b :
  older_or_same a b = true
  <-> l_created_at a < l_created_at b
      \/ (l_created_at a = l_created_at b /\ l_id a <= l_id b).
Proof.
  unfold older_or_same.
  rewrite orb_true_iff, andb_true_iff, Z.ltb_lt, Z.eqb_eq, Z.leb_le.
  reflexivity.
Qed.

Lemma older_or_same_false a b :
  older_or_same a b = false -> older_or_same b a = true.
Proof.
  intros H. apply older_or_same_true.
  destruct (older_or_same a b) eqn:E; [discriminate|]. clear H.
  assert (~ (l_created_at a < l_created_at b
             \/ (l_created_at a = l_created_at b /\ l_id a <= l_id b))) as Hn.
  { intros Hc. apply older_or_same_true in Hc. congruence. }
  lia.
Qed.

Lemma older_or_same_trans a b c :
  older_or_same a b = true -> older_or_same b c = true ->
  older_or_same a c = true.
Proof. rewrite !older_or_same_true. lia. Qed.

Lemma insert_oldest_first_perm x l :
  Permutation (insert_oldest_first x l) (x :: l).
Proof.
  induction l as [|y ys IH]; simpl; [apply Permutation_refl|].
  destruct (older_or_same x y).
  - apply Permutation_refl.
  - eapply Permutation_trans; [apply perm_skip, IH|apply perm_swap].
Qed.

Lemma oldest_first_perm l : Permutation (oldest_first l) l.
Proof.
  induction l as [|x xs IH]; simpl; [apply perm_nil|].
  eapply Permutation_trans; [apply insert_oldest_first_perm|].
  apply perm_skip, IH.
Qed.

Lemma insert_oldest_first_sorted x l :
  StronglySorted (fun a b => older_or_same a b = true) l ->
  StronglySorted (fun a b => older_or_same a b = true)
                 (insert_oldest_first x l).
Proof.
  induction l as [|y ys IH]; simpl; intros Hs.
  - constructor; constructor.
  - inversion Hs as [|? ? Hs' Hall]; subst.
    destruct (older_or_same x y) eqn:E.
    + constructor; [exact Hs|]. constructor; [exact E|].
      eapply Forall_impl; [|exact Hall].
      intros z Hz. eapply older_or_same_trans; eauto.
    + constructor; [apply IH, Hs'|].
      apply Forall_forall. intros z Hz.
      apply (Permutation_in _ (insert_oldest_first_perm x ys)) in Hz.
      destruct Hz as [<-|Hz].
      * apply older_or_same_false, E.
      * rewrite Forall_forall in Hall. apply Hall, Hz.
Qed.

(** [oldest_first] sorts: its result is a rearrangement of the rows in
    which every row is older than, or as old as and of smaller id than,
    every row behind it. *)
Lemma oldest_first_sorted l :
  StronglySorted (fun a b => older_or_same a b = true) (oldest_first l).
Proof.
  induction l as [|x xs IH]; simpl; [constructor|].
  apply insert_oldest_first_sorted, IH.
Qed.

(** Inserting a row whose id is below every id present: comparing the
    timestamps alone places it where the pair (created_at, id) does. *)
Lemma insert_agree x m :
  Forall (fun y => l_id x < l_id y) m ->
  insert_by_created_at x m = insert_oldest_first x m.
Proof.
  induction m as [|y ys IH]; simpl; intros H; [reflexivity|].
  inversion H as [|? ? Hy Hys]; subst.
  assert ((l_created_at x <=? l_created_at y) = older_or_same x y) as E.
  { destruct (older_or_same x y) eqn:E.
    - apply older_or_same_true in E. apply Z.leb_le. lia.
    - apply Z.leb_gt.
      destruct (Z_lt_le_dec (l_created_at y) (l_created_at x)) as [Hlt|Hle];
        [exact Hlt|].
      assert (older_or_same x y = true)
        by (apply older_or_same_true; lia).
      congruence. }
  rewrite E. destruct (older_or_same x y); [reflexivity|].
  rewrite IH by exact Hys. reflexivity.
Qed.

(** On rows scanned in increasing id order the stable sort by created_at
    is the sort by (created_at, id). *)
Lemma order_agree l :
  StronglySorted Z.lt (map l_id l) -> order_by_created_at l = oldest_first l.
Proof.
  induction l as [|x xs IH]; simpl; intros H; [reflexivity|].
  inversion H as [|? ? Hs Hall]; subst.
  rewrite IH by exact Hs. apply insert_agree.
  apply Forall_forall. intros y Hy.
  apply (Permutation_in _ (oldest_first_perm xs)) in Hy.
  rewrite Forall_forall in Hall. apply Hall. apply in_map, Hy.
Qed.

Lemma increasing_filter p (l : list lead) :
  StronglySorted Z.lt (map l_id l) ->
  StronglySorted Z.lt (map l_id (filter p l)).
Proof.
  induction l as [|x xs IH]; simpl; intros H; [constructor|].
  inversion H as [|? ? Hs Hall]; subst.
  destruct (p x); simpl; [|apply IH, Hs].
  constructor; [apply IH, Hs|].
  apply Forall_forall. intros i Hi. rewrite Forall_forall in Hall.
  apply Hall. apply in_map_iff in Hi as [y [Hy Hin]].
  apply filter_In in Hin as [Hin _]. apply in_map_iff. eauto.
Qed.

Lemma increasing_unique t : ids_increasing t -> ids_unique t.
Proof.
  unfold ids_increasing, ids_unique.
  induction (map l_id (leads t)) as [|i ids IH]; intros H; [constructor|].
  inversion H as [|? ? Hs Hall]; subst.
  constructor; [|apply IH, Hs].
  intros Hin. rewrite Forall_forall in Hall. specialize (Hall i Hin). lia.
Qed.

Lemma toAssign_nonneg t R : 0 <= toAssign t R <= 5.
Proof. unfold toAssign. lia. Qed.

(** The rows a pass selects, in the words of the specification. *)
Lemma pass_rows_oldest t R :
  ids_increasing t -> fromEntries (state_caps t) R <> Some 0 ->
  String.length R = 2%nat ->
  pass_rows (fromEntries (state_caps t)) R t
  = firstn (Z.to_nat (toAssign t R)) (oldest_first (unassigned_in R t)).
Proof.
  intros Hi Hz Hlen. unfold pass_rows.
  rewrite or_default_cap_two_letters by assumption. simpl.
  fold (toAssign t R). pose proof (toAssign_nonneg t R) as Hn.
  destruct (0 <? toAssign t R) eqn:E.
  - unfold select_oldest_unassigned. rewrite limit_firstn by lia.
    rewrite order_agree; [reflexivity|]. apply increasing_filter, Hi.
  - apply Z.ltb_ge in E. assert (toAssign t R = 0) as -> by lia.
    reflexivity.
Qed.

(** ** Which leads a region receives *)

(** C5, as the code has it.  Let a region, named by a two-letter code and
    with an absent or non-zero cap entry, be processed on tables scanned
    in id order, and let
    [toAssign = min(max(0, cap - currentAssignedCount), 5)].  The pass
    assigns the first [toAssign] rows of the region's Unassigned leads
    taken oldest first, ties by id ascending; when fewer Unassigned leads
    exist it assigns all of them, so their number is
    [min(toAssign, number of Unassigned leads)].  Exactly these rows are
    rewritten, their copies are appended to the result, and the loop goes
    on with the remaining regions.  A creation for the single region
    reports exactly these leads.  In the scenario CA capped at 2 with
    L1, L2, L3 Unassigned and created at 1, 2, 3, a creation for CA
    assigns [L1, L2] and leaves L3 Unassigned. *)
Theorem region_receives_oldest_unassigned :
  (forall (t : tables) (R : string),
     ids_increasing t ->
     String.length R = 2%nat ->
     fromEntries (state_caps t) R <> Some 0 ->
     let chosen := firstn (Z.to_nat (toAssign t R))
                          (oldest_first (unassigned_in R t)) in
     List.length chosen
     = Nat.min (Z.to_nat (toAssign t R)) (List.length (unassigned_in R t))
     /\ (forall order_id now rest acc,
           run (assign_states (fromEntries (state_caps t)) order_id now
                              (R :: rest) acc) t None
           = run (assign_states (fromEntries (state_caps t)) order_id now rest
                                (acc ++ map (assigned_copy order_id) chosen))
                 (mark_assigned order_id now (map l_id chosen) t) None
           /\ Forall2 (fun l l' =>
                         (In l chosen -> l' = assign_lead order_id now l)
                         /\ (~ In l chosen -> l' = l))
                      (leads t)
                      (leads (mark_assigned order_id now (map l_id chosen) t)))
     /\ (forall n e now,
           falsy_string n = false -> falsy_string e = false ->
           exists o,
             o_id o = orders_seq t + 1
             /\ run (createOrder n e (Some [R]) now) t None
                = (Ok (o, map (assigned_copy (o_id o)) chosen),
                   mark_assigned (o_id o) now (map l_id chosen)
                                 (snd (insert_order n e now t)))))
  /\ (assigned_ids (run (createOrder "Ann" "ann@example.com" (Some ["CA"]) 100)
                        scenario_CA None) = [1; 2]
      /\ map (fun l => (l_id l, l_status l, l_order_id l))
             (leads (snd (run (createOrder "Ann" "ann@example.com"
                                 (Some ["CA"]) 100) scenario_CA None)))
         = [(1, Assigned, Some 1); (2, Assigned, Some 1);
            (3, Unassigned, None)]).
Proof.
  split; [|split; reflexivity].
  intros t R Hi Hlen Hz chosen.
  pose proof (pass_rows_oldest t R Hi Hz Hlen) as Hrows. fold chosen in Hrows.
  split; [|split].
  - unfold chosen. rewrite length_firstn.
    rewrite (Permutation_length (oldest_first_perm (unassigned_in R t))).
    reflexivity.
  - intros order_id now rest acc. split.
    + unfold run, idle. rewrite !assign_states_calm. cbn [allocate].
      rewrite Hrows. reflexivity.
    + rewrite <- Hrows. apply pass_pointwise, increasing_unique, Hi.
  - intros n e now Hn He.
    destruct (createOrder_calm n e (Some [R]) now t Hn He) as [o [Hid Hrun]].
    exists o. split; [exact Hid|]. rewrite Hrun.
    cbn [allocate states_or_default fst snd app].
    change (pass_rows (fromEntries (state_caps t)) R
                      (snd (insert_order n e now t)))
      with (pass_rows (fromEntries (state_caps t)) R t).
    rewrite Hrows. reflexivity.
Qed.

Lemma scenario_CA_increasing : ids_increasing scenario_CA.
Proof.
  unfold ids_increasing; simpl.
  repeat (constructor; [|repeat constructor; lia]). constructor.
Qed.

Lemma region_receives_oldest_unassigned_witness :
  List.length (firstn (Z.to_nat (toAssign scenario_CA "CA"))
                      (oldest_first (unassigned_in "CA" scenario_CA)))
  = Nat.min (Z.to_nat (toAssign scenario_CA "CA"))
            (List.length (unassigned_in "CA" scenario_CA))
  /\ exists o,
       o_id o = orders_seq scenario_CA + 1
       /\ run (createOrder "Ann" "ann@example.com" (Some ["CA"]) 100)
              scenario_CA None
          = (Ok (o, map (assigned_copy (o_id o))
                        (firstn (Z.to_nat (toAssign scenario_CA "CA"))
                                (oldest_first
                                   (unassigned_in "CA" scenario_CA)))),
             mark_assigned (o_id o) 100
               (map l_id (firstn (Z.to_nat (toAssign scenario_CA "CA"))
                                 (oldest_first
                                    (unassigned_in "CA" scenario_CA))))
               (snd (insert_order "Ann" "ann@example.com" 100 scenario_CA))).
Proof.
  destruct region_receives_oldest_unassigned as [H _].
  assert (fromEntries (state_caps scenario_CA) "CA" <> Some 0) as Hz
    by (simpl; discriminate).
  destruct (H scenario_CA "CA" scenario_CA_increasing eq_refl Hz)
    as [H1 [_ H3]].
  split; [exact H1|].
  apply (H3 "Ann" "ann@example.com" 100 eq_refl eq_refl).
Defined.

(** C5 as worded fails when the pool is smaller than the allowance: with
    CA capped at 10 and a single Unassigned CA lead, the formula gives 5
    and the creation assigns the one lead there is. *)
Lemma pool_smaller_than_allowance :
  count_assigned "CA" small_pool = 0
  /\ cap small_pool "CA" = 10
  /\ Z.min (Z.max 0 (cap small_pool "CA" - count_assigned "CA" small_pool)) 5
     = 5
  /\ assigned_ids (run (createOrder "Ann" "ann@example.com" (Some ["CA"]) 100)
                       small_pool None) = [1]
  /\ Z.of_nat (List.length
                 (assigned_ids (run (createOrder "Ann" "ann@example.com"
                                       (Some ["CA"]) 100) small_pool None)))
     <> Z.min (Z.max 0 (cap small_pool "CA"
                        - count_assigned "CA" small_pool)) 5.
Proof. repeat split. vm_compute. discriminate. Qed.

(** ** Creating, deleting and creating again *)

Lemma same_for_allocation_refl l : same_for_allocation l l.
Proof. repeat split. Qed.

Lemma Forall2_map_both {A : Type} (R : A -> A -> Prop) (f g : A -> A) l1 l2 :
  (forall x y, R x y -> R (f x) (g y)) ->
  Forall2 R l1 l2 -> Forall2 R (map f l1) (map g l2).
Proof. intros H. induction 1; simpl; constructor; auto. Qed.

Lemma Forall2_map_with {A : Type} (P : A -> Prop) (R S : A -> A -> Prop)
      (g : A -> A) l1 l2 :
  (forall x y, P x -> R x y -> S x (g y)) ->
  Forall P l1 -> Forall2 R l1 l2 -> Forall2 S l1 (map g l2).
Proof.
  intros H HP HR. induction HR; simpl; inversion HP; subst; constructor; auto.
Qed.

Lemma same_ids l1 l2 :
  Forall2 same_for_allocation l1 l2 -> map l_id l1 = map l_id l2.
Proof.
  induction 1 as [|x y xs ys [Hid _] _ IH]; simpl; [reflexivity|].
  rewrite Hid, IH. reflexivity.
Qed.

Lemma same_is_assigned_in R x y :
  same_for_allocation x y -> is_assigned_in R x = is_assigned_in R y.
Proof.
  intros [_ [Hs [Hst _]]]. unfold is_assigned_in. rewrite Hs, Hst. reflexivity.
Qed.

Lemma same_is_unassigned_in R x y :
  same_for_allocation x y -> is_unassigned_in R x = is_unassigned_in R y.
Proof.
  intros [_ [Hs [Hst _]]]. unfold is_unassigned_in. rewrite Hs, Hst.
  reflexivity.
Qed.

Lemma same_count R t1 t2 :
  Forall2 same_for_allocation (leads t1) (leads t2) ->
  count_assigned R t1 = count_assigned R t2.
Proof.
  unfold count_assigned. intros H. f_equal.
  induction H as [|x y xs ys Hxy _ IH]; simpl; [reflexivity|].
  rewrite (same_is_assigned_in R x y Hxy).
  destruct (is_assigned_in R y); simpl; rewrite IH; reflexivity.
Qed.

Lemma same_filter R l1 l2 :
  Forall2 same_for_allocation l1 l2 ->
  Forall2 same_for_allocation (filter (is_unassigned_in R) l1)
                              (filter (is_unassigned_in R) l2).
Proof.
  induction 1 as [|x y xs ys Hxy _ IH]; simpl; [constructor|].
  rewrite (same_is_unassigned_in R x y Hxy).
  destruct (is_unassigned_in R y); [constructor; assumption|exact IH].
Qed.

Lemma same_insert x y l1 l2 :
  same_for_allocation x y -> Forall2 same_for_allocation l1 l2 ->
  Forall2 same_for_allocation (insert_by_created_at x l1)
                              (insert_by_created_at y l2).
Proof.
  intros Hxy H. induction H as [|a b as' bs Hab Hrest IH]; simpl.
  - constructor; [exact Hxy|constructor].
  - destruct Hxy as [Hi [Hs [Hst Hc]]]. destruct Hab as [Hi' [Hs' [Hst' Hc']]].
    rewrite Hc, Hc'.
    destruct (l_created_at y <=? l_created_at b).
    + repeat constructor; assumption.
    + constructor; [repeat split; assumption|exact IH].
Qed.

Lemma same_order l1 l2 :
  Forall2 same_for_allocation l1 l2 ->
  Forall2 same_for_allocation (order_by_created_at l1)
                              (order_by_created_at l2).
Proof.
  induction 1 as [|x y xs ys Hxy _ IH]; simpl; [constructor|].
  apply same_insert; assumption.
Qed.

Lemma Forall2_firstn {A : Type} (R : A -> A -> Prop) n l1 l2 :
  Forall2 R l1 l2 -> Forall2 R (firstn n l1) (firstn n l2).
Proof.
  intros H. revert n. induction H; intros [|n]; simpl; constructor; auto.
Qed.

Lemma same_pass_rows stateCaps R t1 t2 :
  Forall2 same_for_allocation (leads t1) (leads t2) ->
  Forall2 same_for_allocation (pass_rows stateCaps R t1)
                              (pass_rows stateCaps R t2).
Proof.
  intros H. unfold pass_rows. rewrite (same_count R t1 t2 H).
  destruct (positive _); [|constructor].
  unfold select_oldest_unassigned, limit.
  destruct (_ <? 0).
  - apply same_order, same_filter, H.
  - apply Forall2_firstn, same_order, same_filter, H.
Qed.

Lemma same_mark o1 n1 o2 n2 ids t1 t2 :
  Forall2 same_for_allocation (leads t1) (leads t2) ->
  Forall2 same_for_allocation (leads (mark_assigned o1 n1 ids t1))
                              (leads (mark_assigned o2 n2 ids t2)).
Proof.
  intros H. unfold mark_assigned; simpl.
  apply Forall2_map_both; [|exact H].
  intros x y [Hi [Hs [Hst Hc]]]. rewrite Hi.
  destruct (mem_id (l_id y) ids); repeat split; assumption.
Qed.

(** Allocation reads the id, the region, the status and the creation time
    of the leads and nothing else. *)
Lemma same_allocate stateCaps o1 n1 o2 n2 states acc1 acc2 t1 t2 :
  Forall2 same_for_allocation (leads t1) (leads t2) ->
  map l_id acc1 = map l_id acc2 ->
  map l_id (fst (allocate stateCaps o1 n1 states acc1 t1))
  = map l_id (fst (allocate stateCaps o2 n2 states acc2 t2)).
Proof.
  revert acc1 acc2 t1 t2; induction states as [|s states IH];
    intros acc1 acc2 t1 t2 H Hacc; simpl; [exact Hacc|].
  pose proof (same_ids _ _ (same_pass_rows stateCaps s t1 t2 H)) as Hids.
  apply IH.
  - rewrite Hids. apply same_mark, H.
  - rewrite !map_app, !map_map. simpl. rewrite Hacc. f_equal. exact Hids.
Qed.

Lemma createOrder_ok_valid n e s now t plan o assigned t' :
  run (createOrder n e s now) t plan = (Ok (o, assigned), t') ->
  falsy_string n = false /\ falsy_string e = false.
Proof.
  intros H.
  destruct (falsy_string n) eqn:Hn.
  { rewrite createOrder_invalid in H by (rewrite Hn; reflexivity).
    discriminate. }
  destruct (falsy_string e) eqn:He.
  { rewrite createOrder_invalid in H by (rewrite Hn, He; reflexivity).
    discriminate. }
  split; reflexivity.
Qed.

(** Deleting the order just created gives back a pool that allocation
    cannot tell from the one before the creation. *)
Lemma create_delete_restores_pool stateCaps n e now1 now2 states t :
  ids_unique t -> refs_issued t ->
  let oid := orders_seq t + 1 in
  let t1 := snd (allocate stateCaps oid now1 states []
                          (snd (insert_order n e now1 t))) in
  Forall2 same_for_allocation (leads t)
          (leads (delete_order oid (update_leads_released now2 oid t1))).
Proof.
  intros Hu Hr oid t1. simpl.
  apply (Forall2_map_with
           (fun l => forall x, l_order_id l = Some x -> x <= orders_seq t)
           (kept_or_assigned oid now1)).
  - intros l l' Hl [H|[Hst H]]; subst l'.
    + destruct (opt_Z_eqb (l_order_id l) oid) eqn:E.
      * apply opt_Z_eqb_eq in E. apply Hl in E. unfold oid in E. lia.
      * apply same_for_allocation_refl.
    + simpl. rewrite Z.eqb_refl. repeat split. simpl. congruence.
  - exact Hr.
  - apply (allocate_kept_or_assigned stateCaps oid now1 states []
             (snd (insert_order n e now1 t)) Hu).
Qed.

(** C8. Round trip: on tables with unique lead ids in which no lead
    refers to an order id not handed out yet, let a creation assign the
    leads L1..Ln.  Then deleting the created order succeeds and restores
    the pool (each lead has its former id, region, status and creation
    time, and the caps are as before), and the identical creation issued
    next succeeds and assigns the leads with the same ids, in the same
    sequence. *)
Theorem create_delete_create_assigns_same_leads :
  forall (t : tables) n e s now1 now2 now3 plan o assigned t1,
    ids_unique t -> refs_issued t ->
    run (createOrder n e s now1) t plan = (Ok (o, assigned), t1) ->
    exists t2 o' assigned' t3,
      run (deleteOrder (o_id o) now2) t1 None = (Ok DeletedAndReturned, t2)
      /\ Forall2 same_for_allocation (leads t) (leads t2)
      /\ state_caps t2 = state_caps t
      /\ run (createOrder n e s now3) t2 None = (Ok (o', assigned'), t3)
      /\ map l_id assigned' = map l_id assigned.
Proof.
  intros t n e s now1 now2 now3 plan o assigned t1 Hu Hr Hrun.
  destruct (createOrder_ok_valid _ _ _ _ _ _ _ _ _ Hrun) as [Hn He].
  apply createOrder_ok in Hrun as [Hid [Ha Ht1]]. rewrite Hid in *.
  set (caps := fromEntries (state_caps t)) in *.
  set (oid := orders_seq t + 1) in *.
  destruct (allocate_other_tables caps oid now1 (states_or_default s) []
              (snd (insert_order n e now1 t))) as [Hord [Hcaps _]].
  rewrite <- Ht1 in Hord, Hcaps.
  set (t2 := delete_order oid (update_leads_released now2 oid t1)).
  assert (run (deleteOrder oid now2) t1 None = (Ok DeletedAndReturned, t2))
    as Hdel.
  { rewrite deleteOrder_calm. unfold select_order. rewrite Hord.
    destruct (select_order_inserted n e now1 t) as [o0 [Hsel _]].
    unfold select_order in Hsel. fold oid in Hsel.
    destruct (filter _ (orders (snd (insert_order n e now1 t))));
      [discriminate Hsel|reflexivity]. }
  assert (Forall2 same_for_allocation (leads t) (leads t2)) as Hpool.
  { unfold t2. rewrite Ht1.
    apply create_delete_restores_pool; assumption. }
  assert (state_caps t2 = state_caps t) as Hcaps2 by exact Hcaps.
  destruct (createOrder_calm n e s now3 t2 Hn He) as [o' [Hid' Hrun']].
  exists t2, o'. eexists. eexists.
  split; [exact Hdel|]. split; [exact Hpool|]. split; [exact Hcaps2|].
  split; [exact Hrun'|].
  rewrite Ha, Hcaps2. fold caps. symmetry.
  apply same_allocate; [exact Hpool|reflexivity].
Qed.

Lemma scenario_CA_refs_issued : refs_issued scenario_CA.
Proof.
  unfold refs_issued; simpl.
  repeat (constructor; [simpl; intros x H; discriminate|]). constructor.
Qed.

Lemma create_delete_create_assigns_same_leads_witness :
  exists o assigned t1 t2 o' assigned' t3,
    run (createOrder "Ann" "ann@example.com" (Some ["CA"]) 100) scenario_CA None
    = (Ok (o, assigned), t1)
    /\ map l_id assigned = [1; 2]
    /\ run (deleteOrder (o_id o) 200) t1 None = (Ok DeletedAndReturned, t2)
    /\ run (createOrder "Ann" "ann@example.com" (Some ["CA"]) 300) t2 None
       = (Ok (o', assigned'), t3)
    /\ map l_id assigned' = map l_id assigned.
Proof.
  destruct (run (createOrder "Ann" "ann@example.com" (Some ["CA"]) 100)
                scenario_CA None) as [[[o assigned]|err] t1] eqn:E;
    [|vm_compute in E; discriminate E].
  destruct (create_delete_create_assigns_same_leads scenario_CA
              "Ann" "ann@example.com" (Some ["CA"]) 100 200 300 None
              o assigned t1
              (increasing_unique _ scenario_CA_increasing)
              scenario_CA_refs_issued E)
    as [t2 [o' [assigned' [t3 [H1 [_ [_ [H4 H5]]]]]]]].
  exists o, assigned, t1, t2, o', assigned', t3.
  split; [reflexivity|]. split.
  - vm_compute in E. inversion E; subst. reflexivity.
  - repeat split; assumption.
Defined.

(** ** The assumptions on the tables are invariants of the engine *)

Lemma Forall2_Forall {A : Type} (P Q : A -> Prop) (R : A -> A -> Prop) l1 l2 :
  (forall x y, P x -> R x y -> Q y) ->
  Forall P l1 -> Forall2 R l1 l2 -> Forall Q l2.
Proof.
  intros H HP HR. induction HR; inversion HP; subst; constructor; eauto.
Qed.

Lemma Forall_map_same {A : Type} (P Q : A -> Prop) (f : A -> A) l :
  (forall x, P x -> Q (f x)) -> Forall P l -> Forall Q (map f l).
Proof. intros H. induction 1; simpl; constructor; auto. Qed.

Lemma after_refs_issued r now plan t :
  ids_unique t -> refs_issued t -> refs_issued (after r now plan t).
Proof.
  intros Hu Hr. unfold refs_issued in *.
  destruct (after_cases r now plan t)
    as [H|[[n [e [s H]]]|[[id H]|[[id H]|[id H]]]]]; rewrite H.
  - exact Hr.
  - destruct (allocate_other_tables (fromEntries (state_caps t))
                (orders_seq t + 1) now (states_or_default s) []
                (snd (insert_order n e now t))) as [_ [_ [Hseq _]]].
    rewrite Hseq. simpl.
    eapply Forall2_Forall;
      [|exact Hr
       |apply (allocate_kept_or_assigned _ (orders_seq t + 1) now _ []
                 (snd (insert_order n e now t)) Hu)].
    intros l l' Hl [Hk|[_ Hk]] x Hx; subst l'.
    + apply Hl in Hx. lia.
    + simpl in Hx. inversion Hx. lia.
  - simpl. eapply Forall_map_same; [|exact Hr].
    intros l Hl x. destruct (opt_Z_eqb (l_order_id l) id); apply Hl.
  - simpl. eapply Forall_map_same; [|exact Hr].
    intros l Hl x. destruct (opt_Z_eqb (l_order_id l) id);
      [discriminate|apply Hl].
  - simpl. eapply Forall_map_same; [|exact Hr].
    intros l Hl x. destruct (opt_Z_eqb (l_order_id l) id);
      [discriminate|apply Hl].
Qed.

(** Unique lead ids, the scan order of the leads and the absence of
    references to orders not yet created survive every engine call. *)
Lemma reachable_well_formed t t' :
  reachable t t' ->
  (ids_unique t -> ids_unique t')
  /\ (ids_increasing t -> ids_increasing t')
  /\ (ids_unique t -> refs_issued t -> refs_issued t').
Proof.
  intros Hreach. pose proof (reachable_frame t t' Hreach) as [Hids _].
  unfold ids_unique, ids_increasing. rewrite Hids.
  split; [tauto|]. split; [tauto|].
  induction Hreach as [|t1 r now plan Hreach IH]; [tauto|].
  intros Hu Hr.
  pose proof (reachable_frame t t1 Hreach) as [Hids1 _].
  apply after_refs_issued.
  - unfold ids_unique. rewrite Hids1. exact Hu.
  - apply IH; [exact Hids1|exact Hu|exact Hr].
Qed.

(** ** The database at first start *)

Lemma no_assigned_lead_counts_zero R t :
  Forall (fun l => l_status l <> Assigned) (leads t) -> count_assigned R t = 0.
Proof.
  unfold count_assigned. intros H.
  induction H as [|l ls Hl _ IH]; simpl; [reflexivity|].
  destruct (is_assigned_in R l) eqn:E; [|exact IH].
  apply is_assigned_in_spec in E. tauto.
Qed.

(** The seeded database meets every assumption made above, for every
    region. *)
Lemma seeded_well_formed boot :
  ids_increasing (seeded boot) /\ ids_unique (seeded boot)
  /\ refs_issued (seeded boot)
  /\ forall R, cap_bound R (seeded boot).
Proof.
  assert (ids_increasing (seeded boot)) as Hi.
  { unfold ids_increasing; simpl.
    repeat (constructor; [|repeat constructor; lia]). constructor. }
  split; [exact Hi|]. split; [apply increasing_unique, Hi|]. split.
  - unfold refs_issued; simpl.
    repeat (constructor; [simpl; intros x H; discriminate|]). constructor.
  - intros R. unfold cap_bound. rewrite no_assigned_lead_counts_zero; [lia|].
    simpl. repeat (constructor; [simpl; discriminate|]). constructor.
Qed.

(** On the seeded database, where all leads carry the same timestamp, a
    creation without regions assigns the two leads of each default region
    in id order. *)
Lemma seeded_default_creation :
  assigned_ids (run (createOrder "Ann" "ann@example.com" None 100)
                    (seeded 0) None)
  = [1; 2; 3; 4; 5; 6; 7; 8; 9; 10].
Proof. reflexivity. Qed.

(** The status override is not transactional: when its UPDATE succeeds
    and the SELECT that follows is rejected, the handler answers with an
    error and the new status stays. *)
Lemma override_is_not_atomic :
  exists t',
    run (updateLeadStatus 2 (Some "assigned") 100) tight_cap (Some 1%nat)
    = (Err StorageError, t')
    /\ map l_status (leads t') = [Unassigned; Assigned]
    /\ map l_status (leads tight_cap) = [Unassigned; Unassigned].
Proof. eexists. repeat split. Qed.

(** The status override keeps the assumptions as well, whether or not it
    fails half way. *)
Lemma override_cases id status now plan t :
  snd (run (updateLeadStatus id status now) t plan) = t
  \/ exists st,
       snd (run (updateLeadStatus id status now) t plan)
       = snd (update_lead_status st now id t).
Proof.
  unfold run, updateLeadStatus.
  destruct status as [s|]; [|left; reflexivity].
  destruct (parse_lead_status s) as [st|]; [|left; reflexivity].
  unfold bind, client_query, idle, throw, ret, reading; simpl.
  destruct plan as [[|n]|]; simpl; [left; reflexivity| |]; right; exists st.
  - destruct (Z.of_nat _ =? 0); [reflexivity|].
    destruct n; simpl; [reflexivity|].
    destruct (select_lead id _); reflexivity.
  - destruct (Z.of_nat _ =? 0); [reflexivity|]. simpl.
    destruct (select_lead id _); reflexivity.
Qed.

Lemma reachable_with_override_well_formed t t' :
  reachable_with_override t t' ->
  ids_unique t -> refs_issued t ->
  map l_id (leads t') = map l_id (leads t)
  /\ ids_unique t' /\ refs_issued t'.
Proof.
  intros Hreach Hu Hr.
  induction Hreach as [|t1 r now plan _ [IH1 [IH2 IH3]]
                       |t1 id status now plan _ [IH1 [IH2 IH3]]].
  - repeat split; assumption.
  - destruct (after_frame r now plan t1) as [Hids _].
    split; [congruence|]. split.
    + unfold ids_unique. rewrite Hids. exact IH2.
    + apply after_refs_issued; assumption.
  - destruct (override_cases id status now plan t1) as [H|[st H]]; rewrite H.
    + repeat split; assumption.
    + assert (map l_id (leads (snd (update_lead_status st now id t1)))
              = map l_id (leads t1)) as Hids.
      { simpl. rewrite map_map. apply map_ext.
        intros l. destruct (l_id l =? id); reflexivity. }
      split; [congruence|]. split.
      * unfold ids_unique. rewrite Hids. exact IH2.
      * unfold refs_issued in *. simpl.
        eapply Forall_map_same; [|exact IH3].
        intros l Hl x. destruct (l_id l =? id); apply Hl.
Qed.

(* ===================================================================== *)
(** * Further properties of the handlers *)
(* ===================================================================== *)

(** ** Fulfilment cascades to the leads of the order *)

Lemma fulfilled_pointwise now id ls :
  Forall2 (fulfilled_with id now) ls
          (map (fun l => if opt_Z_eqb (l_order_id l) id
                         then fulfil_lead_row now l else l) ls).
Proof.
  induction ls as [|l ls IH]; simpl; constructor; [|exact IH].
  unfold fulfilled_with.
  destruct (opt_Z_eqb (l_order_id l) id) eqn:E.
  - apply opt_Z_eqb_eq in E. split; [reflexivity|congruence].
  - apply opt_Z_eqb_neq in E. split; [congruence|reflexivity].
Qed.

Lemma select_order_other_fulfilled now id id' t :
  id' <> id ->
  select_order id' (update_leads_fulfilled now id
                      (update_order_fulfilled now id t))
  = select_order id' t.
Proof.
  intros Hne. unfold select_order; simpl.
  induction (orders t) as [|o os IH]; simpl; [reflexivity|].
  destruct (o_id o =? id) eqn:E; simpl.
  - apply Z.eqb_eq in E.
    assert ((o_id o =? id') = false) as E' by (apply Z.eqb_neq; congruence).
    rewrite E'. exact IH.
  - rewrite IH. reflexivity.
Qed.

(** X1. Fulfilling an order that exists and is not yet Fulfilled succeeds
    on each of the three paths and leaves the same tables: every order
    row with that id is Fulfilled and stamped with the time of the call,
    every lead that referred to the order is Fulfilled and still refers
    to it, every other lead and every other order is as before. *)
Theorem fulfilment_cascades_to_leads :
  forall (t : tables) (id now : Z) (o : order),
    hd_error (select_order id t) = Some o ->
    o_status o <> OFulfilled ->
    exists t',
      run (fulfillOrder id now) t None = (Ok (fulfil_order_row now o), t')
      /\ (id <> 0 ->
          run (fulfillOrderAutomation (Some id) now) t None
          = (Ok (FulfilledSuccessfully id), t'))
      /\ (id <> 0 -> forall action, toLowerCase action = "fulfill" ->
          run (executeOneTimeRule (Some id) action now) t None
          = (Ok (FulfilledSuccessfully id), t'))
      /\ Forall (fun o' => o_status o' = OFulfilled
                           /\ o_fulfilled_at o' = Some now
                           /\ o_updated_at o' = now)
                (select_order id t')
      /\ select_order id t' <> []
      /\ (forall id', id' <> id -> select_order id' t' = select_order id' t)
      /\ Forall2 (fulfilled_with id now) (leads t) (leads t')
      /\ state_caps t' = state_caps t /\ orders_seq t' = orders_seq t.
Proof.
  intros t id now o Hsel Hst.
  destruct (fulfil_unfulfilled id now t o Hsel Hst)
    as [t' [Ht' [_ [H1 [H2 H3]]]]].
  exists t'. split; [exact H1|]. split; [exact H2|]. split; [exact H3|].
  apply head_row in Hsel as [rest Hsel].
  assert (select_order id t' = map (fulfil_order_row now) (select_order id t))
    as Hsel'.
  { rewrite Ht'.
    change (select_order id (update_leads_fulfilled now id
                               (update_order_fulfilled now id t)))
      with (select_order id (update_order_fulfilled now id t)).
    apply select_order_update_fulfilled. }
  split; [|split; [|split; [|split]]].
  - rewrite Hsel'. apply Forall_forall. intros o' Hin.
    apply in_map_iff in Hin as [o0 [<- _]]. repeat split.
  - rewrite Hsel', Hsel. discriminate.
  - intros id' Hne. rewrite Ht'. apply select_order_other_fulfilled, Hne.
  - rewrite Ht'. apply fulfilled_pointwise.
  - rewrite Ht'. split; reflexivity.
Qed.

Lemma fulfilment_cascades_to_leads_witness :
  exists t',
    run (fulfillOrder 3 100) in_progress None
    = (Ok (fulfil_order_row 100
             (mkOrder 3 "Ann" "ann@example.com" Pending 10 10 None)), t')
    /\ Forall2 (fulfilled_with 3 100) (leads in_progress) (leads t').
Proof.
  destruct (fulfilment_cascades_to_leads in_progress 3 100
              (mkOrder 3 "Ann" "ann@example.com" Pending 10 10 None)
              eq_refl ltac:(discriminate))
    as [t' [H1 [_ [_ [_ [_ [_ [H7 _]]]]]]]].
  exists t'. split; assumption.
Defined.

(** ** Calls on an order that does not exist *)

(** X2. Fulfilling an order that does not exist fails with NotFound on
    the route and on the command, and reading it fails likewise; the
    one-time rule fails with the same cause wrapped in its own error, for
    either action.  Under every fault plan these calls fail and leave the
    tables as they were. *)
Theorem missing_order_is_reported :
  forall (t : tables) (id now : Z),
    select_order id t = [] ->
    (run (fulfillOrder id now) t None = (Err NotFound, t)
     /\ forall plan, exists e, run (fulfillOrder id now) t plan = (Err e, t))
    /\ (run (getOrder id) t None = (Err NotFound, t)
        /\ forall plan, exists e, run (getOrder id) t plan = (Err e, t))
    /\ (id <> 0 ->
        run (fulfillOrderAutomation (Some id) now) t None = (Err NotFound, t)
        /\ forall plan, exists e,
             run (fulfillOrderAutomation (Some id) now) t plan = (Err e, t))
    /\ (id <> 0 -> forall action, falsy_string action = false ->
        run (executeOneTimeRule (Some id) action now) t None
        = (Err (OneTimeRuleFailed NotFound), t)
        /\ forall plan, exists e,
             run (executeOneTimeRule (Some id) action now) t plan
             = (Err e, t)).
Proof.
  intros t id now Hsel.
  assert (run (fulfillOrder id now) t None = (Err NotFound, t)) as H1
    by (rewrite fulfillOrder_calm, Hsel; reflexivity).
  assert (run (getOrder id) t None = (Err NotFound, t)) as H2.
  { unfold run, getOrder, idle. rewrite bind_reading, Hsel. reflexivity. }
  split; [split; [exact H1|]|split; [split; [exact H2|]|split]].
  - eapply run_fails_any_plan;
      [apply atomic_fulfillOrder|apply fault_insensitive_fulfillOrder|exact H1].
  - intros plan. unfold run, getOrder, idle, bind, client_query; simpl.
    destruct plan as [[|n]|]; simpl; rewrite ?Hsel; eexists; reflexivity.
  - intros Hid.
    assert (run (fulfillOrderAutomation (Some id) now) t None
            = (Err NotFound, t)) as H3
      by (rewrite fulfillOrderAutomation_calm, Hsel by exact Hid; reflexivity).
    split; [exact H3|].
    eapply run_fails_any_plan;
      [apply atomic_fulfillOrderAutomation
      |apply fault_insensitive_fulfillOrderAutomation|exact H3].
  - intros Hid action Hf.
    assert (run (executeOneTimeRule (Some id) action now) t None
            = (Err (OneTimeRuleFailed NotFound), t)) as H4
      by (rewrite executeOneTimeRule_calm, Hsel by assumption; reflexivity).
    split; [exact H4|].
    eapply run_fails_any_plan;
      [apply atomic_executeOneTimeRule
      |apply fault_insensitive_executeOneTimeRule|exact H4].
Qed.

Lemma missing_order_is_reported_witness :
  run (fulfillOrder 9999 100) settled None = (Err NotFound, settled)
  /\ run (executeOneTimeRule (Some 9999) "cancel" 100) settled None
     = (Err (OneTimeRuleFailed NotFound), settled).
Proof.
  destruct (missing_order_is_reported settled 9999 100 eq_refl)
    as [[H1 _] [_ [_ H4]]].
  split; [exact H1|].
  apply (H4 ltac:(discriminate) "cancel" eq_refl).
Defined.

(** ** Capacity given back by fulfilment, cancellation and deletion *)

Lemma count_assigned_without R id (h : lead -> lead) (ls : list lead) :
  (forall l, l_status (h l) <> Assigned) ->
  List.length (filter (is_assigned_in R)
                      (map (fun l => if opt_Z_eqb (l_order_id l) id
                                     then h l else l) ls))
  = List.length (filter (assigned_elsewhere R id) ls).
Proof.
  intros Hh. rewrite filter_map_length. f_equal. apply filter_ext.
  intros l. unfold assigned_elsewhere.
  destruct (opt_Z_eqb (l_order_id l) id); simpl.
  - rewrite andb_false_r.
    destruct (is_assigned_in R (h l)) eqn:E; [|reflexivity].
    apply is_assigned_in_spec in E as [_ E]. exfalso. exact (Hh l E).
  - rewrite andb_true_r. reflexivity.
Qed.

Lemma count_after_fulfilled R now id t :
  count_assigned R (update_leads_fulfilled now id
                      (update_order_fulfilled now id t))
  = count_assigned_elsewhere R id t.
Proof.
  unfold count_assigned, count_assigned_elsewhere; simpl. f_equal.
  apply count_assigned_without. intros l. simpl. discriminate.
Qed.

Lemma count_after_released R now id t :
  count_assigned R (update_leads_released now id t)
  = count_assigned_elsewhere R id t.
Proof.
  unfold count_assigned, count_assigned_elsewhere; simpl. f_equal.
  apply count_assigned_without. intros l. simpl. discriminate.
Qed.

(** X3. When an order is fulfilled, deleted or cancelled, its leads stop
    counting against the caps: the number of Assigned leads of every
    region becomes the number of Assigned leads of the region that
    belonged to other orders, which is never more than before. *)
Theorem settled_order_gives_back_capacity :
  forall (t : tables) (id now : Z) (R : string) (plan : option nat),
    (forall o t', run (fulfillOrder id now) t plan = (Ok o, t') ->
                  count_assigned R t' = count_assigned_elsewhere R id t)
    /\ (forall r t', run (deleteOrder id now) t plan = (Ok r, t') ->
                     count_assigned R t' = count_assigned_elsewhere R id t)
    /\ (forall action t',
          run (executeOneTimeRule (Some id) action now) t plan
          = (Ok (CancelledAndReturned id), t') ->
          count_assigned R t' = count_assigned_elsewhere R id t)
    /\ count_assigned_elsewhere R id t <= count_assigned R t.
Proof.
  intros t id now R plan. split; [|split; [|split]].
  - intros o t' H.
    apply run_fault_insensitive in H; [|apply fault_insensitive_fulfillOrder].
    rewrite fulfillOrder_calm in H.
    destruct (select_order id t) as [|o0 rest]; [discriminate|].
    destruct (order_status_eqb (o_status o0) OFulfilled); [discriminate|].
    inversion H; subst. apply count_after_fulfilled.
  - intros r t' H.
    apply run_fault_insensitive in H; [|apply fault_insensitive_deleteOrder].
    rewrite deleteOrder_calm in H.
    destruct (select_order id t) as [|o0 rest]; [discriminate|].
    inversion H; subst.
    change (count_assigned R (delete_order id
                                (update_leads_released now id t)))
      with (count_assigned R (update_leads_released now id t)).
    apply count_after_released.
  - intros action t' H.
    apply run_fault_insensitive in H;
      [|apply fault_insensitive_executeOneTimeRule].
    destruct (Z.eq_dec id 0) as [->|Hid]; [discriminate|].
    destruct (falsy_string action) eqn:Hf.
    { unfold run, executeOneTimeRule in H. simpl in H.
      rewrite Hf, orb_true_r in H. discriminate. }
    rewrite executeOneTimeRule_calm in H by assumption.
    destruct (select_order id t) as [|o0 rest]; [discriminate|].
    destruct (String.eqb (toLowerCase action) "fulfill").
    + destruct (order_status_eqb (o_status o0) OFulfilled); discriminate.
    + destruct (String.eqb (toLowerCase action) "cancel"); [|discriminate].
      destruct (order_status_eqb (o_status o0) Cancelled); [discriminate|].
      inversion H; subst.
      change (count_assigned R (update_leads_released now id
                                  (update_order_cancelled now id t)))
        with (count_assigned R (update_leads_released now id t)).
      apply count_after_released.
  - unfold count_assigned_elsewhere, count_assigned. apply inj_le.
    apply filter_le_pointwise. intros l _ H.
    unfold assigned_elsewhere in H. apply andb_true_iff in H. tauto.
Qed.

Lemma settled_order_gives_back_capacity_witness :
  exists o t',
    run (fulfillOrder 3 100) in_progress None = (Ok o, t')
    /\ count_assigned "CA" in_progress = 2
    /\ count_assigned "CA" t' = 1.
Proof.
  destruct (run (fulfillOrder 3 100) in_progress None)
    as [[o|err] t'] eqn:E; [|vm_compute in E; discriminate E].
  exists o, t'. split; [reflexivity|]. split; [reflexivity|].
  destruct (settled_order_gives_back_capacity in_progress 3 100 "CA" None)
    as [H _].
  rewrite (H o t' E). reflexivity.
Defined.

(** ** Invariants that link leads and orders *)

Lemma Forall2_in_r {A : Type} (R : A -> A -> Prop) l1 l2 y :
  Forall2 R l1 l2 -> In y l2 -> exists x, In x l1 /\ R x y.
Proof.
  induction 1 as [|a b l1 l2 Hab _ IH]; simpl; intros Hin; [contradiction|].
  destruct Hin as [<-|Hin].
  - exists a. split; [left; reflexivity|exact Hab].
  - destruct (IH Hin) as [x [Hx HR]]. exists x. split; [right|]; assumption.
Qed.

Lemma after_linked r now plan t :
  ids_unique t -> Forall linked (leads t) ->
  Forall linked (leads (after r now plan t)).
Proof.
  intros Hu Hl.
  destruct (after_cases r now plan t)
    as [H|[[n [e [s H]]]|[[id H]|[[id H]|[id H]]]]]; rewrite H.
  - exact Hl.
  - eapply Forall2_Forall;
      [|exact Hl
       |apply (allocate_kept_or_assigned _ (orders_seq t + 1) now _ []
                 (snd (insert_order n e now t)) Hu)].
    intros l l' Hlk [Hk|[_ Hk]]; subst l'; [exact Hlk|].
    unfold linked; simpl. split; discriminate.
  - simpl. eapply Forall_map_same; [|exact Hl].
    intros l Hlk. destruct (opt_Z_eqb (l_order_id l) id) eqn:E; [|exact Hlk].
    apply opt_Z_eqb_eq in E. unfold linked; simpl. rewrite E.
    split; discriminate.
  - simpl. eapply Forall_map_same; [|exact Hl].
    intros l Hlk. destruct (opt_Z_eqb (l_order_id l) id); [|exact Hlk].
    unfold linked; simpl. tauto.
  - simpl. eapply Forall_map_same; [|exact Hl].
    intros l Hlk. destruct (opt_Z_eqb (l_order_id l) id); [|exact Hlk].
    unfold linked; simpl. tauto.
Qed.

(** X4. In every state the engine calls reach from tables in which each
    lead is Unassigned exactly when it refers to no order, each lead is
    again Unassigned exactly when it refers to no order. *)
Theorem engine_keeps_leads_linked :
  forall (t t' : tables),
    ids_unique t -> Forall linked (leads t) -> reachable t t' ->
    Forall linked (leads t').
Proof.
  intros t t' Hu Hl Hreach.
  induction Hreach as [|t1 r now plan Hreach IH]; [exact Hl|].
  apply after_linked; [|exact IH].
  pose proof (reachable_frame t t1 Hreach) as [Hids _].
  unfold ids_unique. rewrite Hids. exact Hu.
Qed.

Lemma in_progress_unique : ids_unique in_progress.
Proof.
  unfold ids_unique; simpl.
  repeat (constructor; [simpl; intuition discriminate|]). constructor.
Qed.

Lemma in_progress_linked : Forall linked (leads in_progress).
Proof.
  simpl. repeat (constructor; [unfold linked; simpl; split; discriminate|]).
  constructor; [unfold linked; simpl; tauto|constructor].
Qed.

Lemma engine_keeps_leads_linked_witness :
  Forall linked
    (leads (after (DeleteOrder 4) 300 None
              (after (CreateOrder "Cy" "cy@example.com" (Some ["CA"])) 200 None
                 (after (FulfillOrder 3) 100 None in_progress)))).
Proof.
  apply (engine_keeps_leads_linked in_progress _
           in_progress_unique in_progress_linked).
  apply reach_call, reach_call, reach_call, reach_start.
Defined.

Lemma after_orders_issued r now plan t :
  orders_issued t -> orders_issued (after r now plan t).
Proof.
  intros Ho. unfold orders_issued in *.
  destruct (after_cases r now plan t)
    as [H|[[n [e [s H]]]|[[id H]|[[id H]|[id H]]]]]; rewrite H.
  - exact Ho.
  - destruct (allocate_other_tables (fromEntries (state_caps t))
                (orders_seq t + 1) now (states_or_default s) []
                (snd (insert_order n e now t))) as [Hord [_ [Hseq _]]].
    rewrite Hord, Hseq. simpl. apply Forall_app. split.
    + eapply Forall_impl; [|exact Ho]. intros o Hle. simpl in Hle. lia.
    + constructor; [simpl; lia|constructor].
  - simpl. eapply Forall_map_same; [|exact Ho].
    intros o Hle. destruct (o_id o =? id); exact Hle.
  - simpl. eapply Forall_map_same; [|exact Ho].
    intros o Hle. destruct (o_id o =? id); exact Hle.
  - simpl. apply Forall_forall. intros o Hin.
    apply filter_In in Hin as [Hin _].
    rewrite Forall_forall in Ho. apply Ho, Hin.
Qed.

Lemma after_consistent r now plan t :
  ids_unique t -> refs_issued t -> orders_issued t ->
  consistent t -> consistent (after r now plan t).
Proof.
  intros Hu Hr Ho Hc. unfold consistent in *.
  unfold refs_issued in Hr. unfold orders_issued in Ho.
  rewrite Forall_forall in Hr, Ho.
  destruct (after_cases r now plan t)
    as [H|[[n [e [s H]]]|[[id H]|[[id H]|[id H]]]]]; rewrite H; clear H.
  - exact Hc.
  - destruct (allocate_other_tables (fromEntries (state_caps t))
                (orders_seq t + 1) now (states_or_default s) []
                (snd (insert_order n e now t))) as [Hord _].
    rewrite Hord. simpl. intros l' o Hl' Hin Href.
    destruct (Forall2_in_r _ _ _ _
                (allocate_kept_or_assigned _ (orders_seq t + 1) now _ []
                   (snd (insert_order n e now t)) Hu) Hl')
      as [l [Hl Hk]].
    simpl in Hl. apply in_app_or in Hin.
    destruct Hin as [Hin|[<-|[]]]; destruct Hk as [->|[_ ->]].
    + apply (Hc l o); assumption.
    + simpl in Href. inversion Href as [Heq].
      specialize (Ho o Hin). lia.
    + simpl in Href. specialize (Hr l Hl _ Href). lia.
    + left. split; reflexivity.
  - simpl. intros l' o' Hl' Ho' Href.
    apply in_map_iff in Hl' as [l [<- Hl]].
    apply in_map_iff in Ho' as [o [<- Hin]].
    destruct (opt_Z_eqb (l_order_id l) id) eqn:El;
      destruct (o_id o =? id) eqn:Eo; simpl in *.
    + right. split; reflexivity.
    + apply opt_Z_eqb_eq in El. apply Z.eqb_neq in Eo. congruence.
    + apply opt_Z_eqb_neq in El. apply Z.eqb_eq in Eo. congruence.
    + apply (Hc l o); assumption.
  - simpl. intros l' o' Hl' Ho' Href.
    apply in_map_iff in Hl' as [l [<- Hl]].
    apply in_map_iff in Ho' as [o [<- Hin]].
    destruct (opt_Z_eqb (l_order_id l) id) eqn:El; [discriminate Href|].
    destruct (o_id o =? id) eqn:Eo; simpl in *.
    + apply opt_Z_eqb_neq in El. apply Z.eqb_eq in Eo. congruence.
    + apply (Hc l o); assumption.
  - simpl. intros l' o Hl' Hin Href.
    apply in_map_iff in Hl' as [l [<- Hl]].
    apply filter_In in Hin as [Hin _].
    destruct (opt_Z_eqb (l_order_id l) id) eqn:El; [discriminate Href|].
    apply (Hc l o); assumption.
Qed.

(** X5. The status of an order settles the status of its leads, in every
    state the engine calls reach: if in the starting tables the leads of
    each Pending order are Assigned, those of each Fulfilled order are
    Fulfilled and no lead refers to a Cancelled order, the same holds
    after any sequence of creations, fulfilments, one-time rules and
    deletions.  Lead ids are unique, and ids of orders and references to
    them come from AUTOINCREMENT. *)
Theorem engine_keeps_orders_and_leads_consistent :
  forall (t t' : tables),
    ids_unique t -> refs_issued t -> orders_issued t -> consistent t ->
    reachable t t' ->
    consistent t' /\ orders_issued t' /\ refs_issued t'.
Proof.
  intros t t' Hu Hr Ho Hc Hreach.
  induction Hreach as [|t1 r now plan Hreach [IH1 [IH2 IH3]]];
    [repeat split; assumption|].
  pose proof (reachable_frame t t1 Hreach) as [Hids _].
  assert (ids_unique t1) as Hu1 by (unfold ids_unique; rewrite Hids; exact Hu).
  split; [|split].
  - apply after_consistent; assumption.
  - apply after_orders_issued; assumption.
  - apply after_refs_issued; assumption.
Qed.

Lemma in_progress_consistent :
  refs_issued in_progress /\ orders_issued in_progress
  /\ consistent in_progress.
Proof.
  split; [|split].
  - unfold refs_issued; simpl.
    repeat (constructor; [simpl; intros x H; inversion H; lia|]).
    constructor.
  - unfold orders_issued; simpl. repeat (constructor; [simpl; lia|]).
    constructor.
  - unfold consistent; simpl. intros l o Hl Ho Href.
    left. intuition (subst; simpl in *; try discriminate; auto).
Qed.

Lemma engine_keeps_orders_and_leads_consistent_witness :
  consistent
    (after (OneTimeRule (Some 4) "cancel") 300 None
       (after (CreateOrder "Cy" "cy@example.com" None) 200 None
          (after (FulfillOrder 3) 100 None in_progress))).
Proof.
  destruct in_progress_consistent as [Hr [Ho Hc]].
  destruct (engine_keeps_orders_and_leads_consistent in_progress
              (after (OneTimeRule (Some 4) "cancel") 300 None
                 (after (CreateOrder "Cy" "cy@example.com" None) 200 None
                    (after (FulfillOrder 3) 100 None in_progress)))
              in_progress_unique Hr Ho Hc) as [H _].
  - apply reach_call, reach_call, reach_call, reach_start.
  - exact H.
Defined.

(** ** What a creation returns and what it leaves in the tables *)

Lemma select_order_fresh n e now t :
  orders_issued t ->
  select_order (orders_seq t + 1) (snd (insert_order n e now t))
  = [mkOrder (orders_seq t + 1) n e Pending now now None].
Proof.
  intros Ho. unfold select_order, insert_order; simpl.
  rewrite filter_app; simpl. rewrite Z.eqb_refl.
  assert (filter (fun o => o_id o =? orders_seq t + 1) (orders t) = []) as ->;
    [|reflexivity].
  unfold orders_issued in Ho.
  induction Ho as [|o os Hle _ IH]; simpl; [reflexivity|].
  assert ((o_id o =? orders_seq t + 1) = false) as ->
    by (apply Z.eqb_neq; lia).
  exact IH.
Qed.

Lemma pass_rows_at_most_five stateCaps s t :
  (List.length (pass_rows stateCaps s t) <= 5)%nat.
Proof.
  unfold pass_rows.
  destruct (or_default (get_property stateCaps s) 10) as [m|]; simpl;
    [|lia].
  destruct (0 <? _) eqn:E; [|simpl; lia].
  apply Z.ltb_lt in E. unfold select_oldest_unassigned.
  rewrite limit_firstn by lia.
  match goal with |- context [firstn ?n ?l] =>
    pose proof (firstn_le_length n l) as Hlen end.
  lia.
Qed.

Lemma allocate_length stateCaps order_id now states acc t :
  (List.length (fst (allocate stateCaps order_id now states acc t))
   <= List.length acc + 5 * List.length states)%nat.
Proof.
  revert acc t; induction states as [|s states IH]; intros acc t; simpl;
    [lia|].
  eapply Nat.le_trans; [apply IH|].
  rewrite length_app, length_map.
  pose proof (pass_rows_at_most_five stateCaps s t). lia.
Qed.

Lemma allocate_assigned_shape stateCaps order_id now all states acc t :
  incl states all ->
  Forall (fun l => l_status l = Assigned /\ l_order_id l = Some order_id
                   /\ In (l_state l) all) acc ->
  Forall (fun l => l_status l = Assigned /\ l_order_id l = Some order_id
                   /\ In (l_state l) all)
         (fst (allocate stateCaps order_id now states acc t)).
Proof.
  revert acc t; induction states as [|s states IH]; intros acc t Hincl Hacc;
    simpl; [exact Hacc|].
  apply IH.
  - intros x Hx. apply Hincl. right. exact Hx.
  - apply Forall_app. split; [exact Hacc|].
    apply Forall_forall. intros c Hc. apply in_map_iff in Hc as [r [<- Hr]].
    apply pass_rows_in in Hr as [_ [Hs _]]. simpl.
    repeat split. rewrite Hs. apply Hincl. left. reflexivity.
Qed.

Lemma createOrder_calm_fresh n e s now t :
  orders_issued t -> falsy_string n = false -> falsy_string e = false ->
  let o := mkOrder (orders_seq t + 1) n e Pending now now None in
  run (createOrder n e s now) t None
  = (Ok (o, fst (allocate (fromEntries (state_caps t)) (o_id o) now
                          (states_or_default s) []
                          (snd (insert_order n e now t)))),
     snd (allocate (fromEntries (state_caps t)) (o_id o) now
                   (states_or_default s) []
                   (snd (insert_order n e now t)))).
Proof.
  intros Ho Hn He o.
  pose proof (select_order_fresh n e now t Ho) as Hfresh.
  unfold run, createOrder, idle. rewrite Hn, He; simpl.
  unfold transaction, db_begin; simpl. unfold createOrder_callback.
  rewrite bind_stmt, bind_reading.
  change (fst (insert_order n e now t)) with (orders_seq t + 1).
  rewrite Hfresh, bind_reading. unfold bind.
  rewrite assign_states_calm. reflexivity.
Qed.

(** X6. A creation with a customer name and email succeeds whatever the
    pool holds, also when it finds no lead to assign.  It returns the
    Pending order it has inserted, which carries the next id and the
    customer's name and email; every lead it reports is Assigned to that
    order and lies in one of the regions asked for; and it reports at
    most five leads for each entry of the region list. *)
Theorem creation_succeeds_with_what_it_finds :
  forall (t : tables) n e s now,
    orders_issued t ->
    falsy_string n = false -> falsy_string e = false ->
    let o := mkOrder (orders_seq t + 1) n e Pending now now None in
    exists assigned t',
      run (createOrder n e s now) t None = (Ok (o, assigned), t')
      /\ run (createOrderAutomation n e s now) t None = (Ok (o, assigned), t')
      /\ orders t' = orders t ++ [o]
      /\ orders_seq t' = orders_seq t + 1
      /\ state_caps t' = state_caps t
      /\ Forall (fun l => l_status l = Assigned
                          /\ l_order_id l = Some (o_id o)
                          /\ In (l_state l) (states_or_default s)) assigned
      /\ (List.length assigned
          <= 5 * List.length (states_or_default s))%nat.
Proof.
  intros t n e s now Ho Hn He o.
  pose proof (createOrder_calm_fresh n e s now t Ho Hn He) as Hrun.
  destruct (allocate_other_tables (fromEntries (state_caps t)) (o_id o) now
              (states_or_default s) [] (snd (insert_order n e now t)))
    as [Hord [Hcaps [Hseq _]]].
  eexists. eexists. split; [exact Hrun|]. split; [exact Hrun|].
  split; [exact Hord|]. split; [exact Hseq|]. split; [exact Hcaps|]. split.
  - apply allocate_assigned_shape; [apply incl_refl|constructor].
  - apply (allocate_length _ _ _ _ []).
Qed.

Lemma creation_succeeds_with_what_it_finds_witness :
  exists assigned t',
    run (createOrder "Cy" "cy@example.com" (Some ["TX"]) 100) in_progress None
    = (Ok (mkOrder 5 "Cy" "cy@example.com" Pending 100 100 None, assigned), t')
    /\ (List.length assigned <= 5)%nat.
Proof.
  destruct in_progress_consistent as [_ [Ho _]].
  destruct (creation_succeeds_with_what_it_finds in_progress
              "Cy" "cy@example.com" (Some ["TX"]) 100 Ho eq_refl eq_refl)
    as [assigned [t' [H1 [_ [_ [_ [_ [_ H7]]]]]]]].
  exists assigned, t'. split; [exact H1|exact H7].
Defined.

Lemma mark_assigned_twice order_id now ids1 ids2 t :
  mark_assigned order_id now ids2 (mark_assigned order_id now ids1 t)
  = mark_assigned order_id now (ids1 ++ ids2) t.
Proof.
  unfold mark_assigned, set_leads; simpl. f_equal.
  rewrite map_map. apply map_ext. intros l.
  unfold mem_id. rewrite existsb_app.
  destruct (existsb (Z.eqb (l_id l)) ids1) eqn:E1; simpl.
  - destruct (existsb (Z.eqb (l_id l)) ids2); reflexivity.
  - reflexivity.
Qed.

(** The whole loop marks the leads it reports, in one go. *)
Lemma allocate_marks stateCaps order_id now states acc t :
  exists rows,
    fst (allocate stateCaps order_id now states acc t)
    = acc ++ map (assigned_copy order_id) rows
    /\ snd (allocate stateCaps order_id now states acc t)
       = mark_assigned order_id now (map l_id rows) t
    /\ forall r, In r rows -> In (l_id r) (map l_id (leads t)).
Proof.
  revert acc t; induction states as [|s states IH]; intros acc t; simpl.
  - exists []. simpl. rewrite app_nil_r, mark_assigned_nil.
    repeat split. intros r [].
  - destruct (IH (acc ++ map (assigned_copy order_id)
                               (pass_rows stateCaps s t))
                 (mark_assigned order_id now
                    (map l_id (pass_rows stateCaps s t)) t))
      as [rows [H1 [H2 H3]]].
    exists (pass_rows stateCaps s t ++ rows).
    rewrite H1, H2, mark_assigned_twice, map_app, map_app, app_assoc.
    repeat split. intros r Hr. apply in_app_or in Hr as [Hr|Hr].
    + apply in_map. apply pass_rows_in in Hr. tauto.
    + specialize (H3 r Hr). rewrite mark_assigned_ids in H3. exact H3.
Qed.

Lemma ids_of_filtered_map (p : lead -> bool) (q : Z -> bool)
      (f : lead -> lead) (ls : list lead) :
  (forall l, In l ls -> l_id (f l) = l_id l /\ p (f l) = q (l_id l)) ->
  map l_id (filter p (map f ls)) = filter q (map l_id ls).
Proof.
  induction ls as [|l ls IH]; simpl; intros H; [reflexivity|].
  destruct (H l (or_introl eq_refl)) as [Hid Hp]. rewrite Hp.
  assert (map l_id (filter p (map f ls)) = filter q (map l_id ls)) as IH'
    by (apply IH; intros x Hx; apply H; right; exact Hx).
  destruct (q (l_id l)); simpl; rewrite IH'; [rewrite Hid|]; reflexivity.
Qed.

Lemma created_order_holds_the_assigned n e s now t plan o assigned t' :
  ids_unique t -> refs_issued t ->
  run (createOrder n e s now) t plan = (Ok (o, assigned), t') ->
  Permutation (map l_id (leads_of_order (o_id o) t')) (map l_id assigned)
  /\ Forall (fun l => l_status l = Assigned) (leads_of_order (o_id o) t').
Proof.
  intros Hu Hr Hrun.
  pose proof Hrun as Hrun0.
  apply createOrder_ok in Hrun as [Hid [Ha Ht']].
  destruct (allocate_marks (fromEntries (state_caps t)) (o_id o) now
              (states_or_default s) [] (snd (insert_order n e now t)))
    as [rows [H1 [H2 H3]]].
  rewrite <- Ha in H1. rewrite <- Ht' in H2. simpl in H1, H3.
  assert (NoDup (map l_id rows)) as Hnd.
  { assert (NoDup (map l_id assigned)) as Hnd.
    { rewrite Ha. apply allocate_assigned_nodup;
        [exact Hu|constructor|intros l _ []]. }
    rewrite H1, map_map in Hnd. exact Hnd. }
  unfold refs_issued in Hr. rewrite Forall_forall in Hr.
  assert (forall l, In l (leads t) ->
            opt_Z_eqb (l_order_id l) (o_id o) = false) as Hfresh.
  { intros l Hl. apply opt_Z_eqb_neq. intros Href.
    specialize (Hr l Hl _ Href). lia. }
  split.
  - rewrite H1, map_map. simpl. unfold leads_of_order. rewrite H2. simpl.
    rewrite (ids_of_filtered_map _ (fun x => mem_id x (map l_id rows))).
    + apply NoDup_Permutation; [apply NoDup_filter, Hu|exact Hnd|].
      intros x. rewrite filter_In, mem_id_in. split; [tauto|].
      intros Hx. split; [|exact Hx].
      apply in_map_iff in Hx as [r [<- Hr']]. apply H3, Hr'.
    + intros l Hl.
      destruct (mem_id (l_id l) (map l_id rows)); simpl.
      * split; [reflexivity|apply Z.eqb_refl].
      * split; [reflexivity|apply Hfresh, Hl].
  - apply Forall_forall. intros l' Hl'. unfold leads_of_order in Hl'.
    rewrite H2 in Hl'. simpl in Hl'. apply filter_In in Hl' as [Hin Href].
    apply in_map_iff in Hin as [l [<- Hl]].
    destruct (mem_id (l_id l) (map l_id rows)); [reflexivity|].
    rewrite (Hfresh l Hl) in Href. discriminate.
Qed.

(** ** Orders read back *)

Lemma getOrder_calm id t :
  run (getOrder id) t None
  = match select_order id t with
    | [] => (Err NotFound, t)
    | o :: _ => (Ok (o, select_leads_of_order id t), t)
    end.
Proof.
  unfold run, getOrder, idle. rewrite bind_reading.
  destruct (select_order id t); reflexivity.
Qed.

Lemma insert_by_created_at_sorted x l :
  StronglySorted (fun a b => l_created_at a <= l_created_at b) l ->
  StronglySorted (fun a b => l_created_at a <= l_created_at b)
                 (insert_by_created_at x l).
Proof.
  induction l as [|y ys IH]; simpl; intros Hs.
  - constructor; constructor.
  - inversion Hs as [|? ? Hs' Hall]; subst.
    destruct (l_created_at x <=? l_created_at y) eqn:E.
    + apply Z.leb_le in E. constructor; [exact Hs|].
      constructor; [exact E|].
      eapply Forall_impl; [|exact Hall]. intros z Hz. simpl in Hz. lia.
    + apply Z.leb_gt in E. constructor; [apply IH, Hs'|].
      apply Forall_forall. intros z Hz.
      apply (Permutation_in _ (insert_by_created_at_perm x ys)) in Hz.
      destruct Hz as [<-|Hz]; [lia|].
      rewrite Forall_forall in Hall. apply Hall, Hz.
Qed.

Lemma order_by_created_at_sorted l :
  StronglySorted (fun a b => l_created_at a <= l_created_at b)
                 (order_by_created_at l).
Proof.
  induction l as [|x xs IH]; simpl; [constructor|].
  apply insert_by_created_at_sorted, IH.
Qed.

Lemma insert_by_created_at_map (h : lead -> lead) x l :
  (forall y, l_created_at (h y) = l_created_at y) ->
  insert_by_created_at (h x) (map h l) = map h (insert_by_created_at x l).
Proof.
  intros Hh. induction l as [|y ys IH]; simpl; [reflexivity|].
  rewrite !Hh. destruct (l_created_at x <=? l_created_at y); simpl;
    [reflexivity|rewrite IH; reflexivity].
Qed.

Lemma order_by_created_at_map (h : lead -> lead) l :
  (forall y, l_created_at (h y) = l_created_at y) ->
  order_by_created_at (map h l) = map h (order_by_created_at l).
Proof.
  intros Hh. induction l as [|x xs IH]; simpl; [reflexivity|].
  rewrite IH. apply insert_by_created_at_map, Hh.
Qed.

Lemma leads_of_fulfilled now id ls :
  filter (fun l => opt_Z_eqb (l_order_id l) id)
         (map (fun l => if opt_Z_eqb (l_order_id l) id
                        then fulfil_lead_row now l else l) ls)
  = map (fulfil_lead_row now)
        (filter (fun l => opt_Z_eqb (l_order_id l) id) ls).
Proof.
  induction ls as [|l ls IH]; simpl; [reflexivity|].
  destruct (opt_Z_eqb (l_order_id l) id) eqn:E; simpl; rewrite E; simpl;
    rewrite IH; reflexivity.
Qed.

(** X7. The order a creation returns is read back with the leads the
    creation reported: reading it yields the same order and, sorted by
    creation time, leads that are Assigned to it and whose ids are those
    of the reported leads; the lead count of the order is their number. *)
Theorem created_order_is_read_back :
  forall (t : tables) n e s now plan o assigned t',
    ids_unique t -> refs_issued t -> orders_issued t ->
    run (createOrder n e s now) t plan = (Ok (o, assigned), t') ->
    exists ls,
      run (getOrder (o_id o)) t' None = (Ok (o, ls), t')
      /\ Permutation (map l_id ls) (map l_id assigned)
      /\ Forall (fun l => l_status l = Assigned
                          /\ l_order_id l = Some (o_id o)) ls
      /\ StronglySorted (fun a b => l_created_at a <= l_created_at b) ls
      /\ lead_count o t' = Z.of_nat (List.length assigned).
Proof.
  intros t n e s now plan o assigned t' Hu Hr Ho Hrun.
  destruct (created_order_holds_the_assigned _ _ _ _ _ _ _ _ _ Hu Hr Hrun)
    as [Hperm Hst].
  destruct (createOrder_ok_valid _ _ _ _ _ _ _ _ _ Hrun) as [Hn He].
  apply run_fault_insensitive in Hrun; [|apply fault_insensitive_createOrder].
  rewrite (createOrder_calm_fresh n e s now t Ho Hn He) in Hrun.
  injection Hrun as Heq Ha Ht'.
  assert (select_order (o_id o) t' = [o]) as Hsel.
  { destruct (allocate_other_tables (fromEntries (state_caps t))
                (orders_seq t + 1) now (states_or_default s) []
                (snd (insert_order n e now t))) as [Hord _].
    rewrite <- Ht', <- Heq. unfold select_order.
    cbn [o_id].
    transitivity (filter (fun o0 => o_id o0 =? orders_seq t + 1)
                         (orders (snd (insert_order n e now t))));
      [f_equal; exact Hord|apply (select_order_fresh n e now t Ho)]. }
  exists (select_leads_of_order (o_id o) t').
  split; [rewrite getOrder_calm, Hsel; reflexivity|].
  assert (Permutation (select_leads_of_order (o_id o) t')
                      (leads_of_order (o_id o) t')) as Hp
    by apply order_by_created_at_perm.
  split; [|split; [|split]].
  - eapply Permutation_trans; [apply Permutation_map, Hp|exact Hperm].
  - apply Forall_forall. intros l Hl.
    apply (Permutation_in _ Hp) in Hl.
    rewrite Forall_forall in Hst. split; [apply Hst, Hl|].
    apply filter_In in Hl as [_ Hl]. apply opt_Z_eqb_eq, Hl.
  - apply order_by_created_at_sorted.
  - unfold lead_count. fold (leads_of_order (o_id o) t').
    rewrite <- (length_map l_id (leads_of_order (o_id o) t')).
    rewrite (Permutation_length Hperm), length_map. reflexivity.
Qed.

Lemma created_order_is_read_back_witness :
  exists o assigned t' ls,
    run (createOrder "Cy" "cy@example.com" (Some ["CA"; "NY"]) 100)
        in_progress None = (Ok (o, assigned), t')
    /\ run (getOrder (o_id o)) t' None = (Ok (o, ls), t')
    /\ Permutation (map l_id ls) (map l_id assigned)
    /\ lead_count o t' = Z.of_nat (List.length assigned).
Proof.
  destruct (run (createOrder "Cy" "cy@example.com" (Some ["CA"; "NY"]) 100)
                in_progress None) as [[[o assigned]|err] t'] eqn:E;
    [|vm_compute in E; discriminate E].
  destruct in_progress_consistent as [Hr [Ho _]].
  destruct (created_order_is_read_back in_progress _ _ _ _ _ o assigned t'
              in_progress_unique Hr Ho E) as [ls [H1 [H2 [_ [_ H5]]]]].
  exists o, assigned, t', ls. repeat split; assumption.
Defined.

(** X8. What reading an order shows moves with its life cycle.  If
    reading yields an order and its leads, then after fulfilling it
    reading yields the Fulfilled order and the same leads, each now
    Fulfilled; after cancelling it through the one-time rule reading
    yields the Cancelled order and no lead; after deleting it reading
    fails with NotFound. *)
Theorem life_cycle_seen_through_getOrder :
  forall (t : tables) (id now : Z) (o : order) (ls : list lead),
    run (getOrder id) t None = (Ok (o, ls), t) ->
    (o_status o <> OFulfilled ->
     exists t',
       run (fulfillOrder id now) t None = (Ok (fulfil_order_row now o), t')
       /\ run (getOrder id) t' None
          = (Ok (fulfil_order_row now o, map (fulfil_lead_row now) ls), t'))
    /\ (id <> 0 -> o_status o <> Cancelled ->
        forall action, toLowerCase action = "cancel" ->
        exists t',
          run (executeOneTimeRule (Some id) action now) t None
          = (Ok (CancelledAndReturned id), t')
          /\ run (getOrder id) t' None = (Ok (cancel_order_row now o, []), t'))
    /\ (exists t',
          run (deleteOrder id now) t None = (Ok DeletedAndReturned, t')
          /\ run (getOrder id) t' None = (Err NotFound, t')).
Proof.
  intros t id now o ls Hget. rewrite getOrder_calm in Hget.
  destruct (select_order id t) as [|o0 rest] eqn:Hsel; [discriminate|].
  inversion Hget; subst o0 ls. clear Hget.
  split; [|split].
  - intros Hst.
    destruct (fulfil_unfulfilled id now t o) as [t' [Ht' [_ [H1 _]]]];
      [rewrite Hsel; reflexivity|exact Hst|].
    exists t'. split; [exact H1|]. rewrite getOrder_calm.
    assert (select_order id t' = map (fulfil_order_row now) (select_order id t))
      as Hsel'.
    { rewrite Ht'.
      change (select_order id (update_leads_fulfilled now id
                                 (update_order_fulfilled now id t)))
        with (select_order id (update_order_fulfilled now id t)).
      apply select_order_update_fulfilled. }
    rewrite Hsel', Hsel. simpl. do 2 f_equal.
    rewrite Ht'. unfold select_leads_of_order; simpl.
    rewrite leads_of_fulfilled. f_equal. apply order_by_created_at_map.
    reflexivity.
  - intros Hid Hst action Ha.
    destruct (cancel_fulfilled_one_time id action now t o Hid Ha)
      as [t' [H1 [_ [H3 _]]]];
      [rewrite Hsel; reflexivity|exact Hst|].
    exists t'. split; [exact H1|].
    rewrite executeOneTimeRule_cancel_calm, Hsel in H1 by assumption.
    destruct (order_status_eqb (o_status o) Cancelled); [discriminate|].
    inversion H1 as [Ht']. rewrite getOrder_calm.
    change (select_order id (update_leads_released now id
                               (update_order_cancelled now id t)))
      with (select_order id (update_order_cancelled now id t)).
    rewrite select_order_update_cancelled, Hsel. simpl. do 2 f_equal.
    unfold select_leads_of_order. unfold leads_of_order in H3.
    rewrite <- Ht' in H3. rewrite H3. reflexivity.
  - exists (delete_order id (update_leads_released now id t)). split.
    + rewrite deleteOrder_calm, Hsel. reflexivity.
    + rewrite getOrder_calm, select_order_deleted. reflexivity.
Qed.

Lemma life_cycle_seen_through_getOrder_witness :
  exists o ls t',
    run (getOrder 3) in_progress None = (Ok (o, ls), in_progress)
    /\ map l_id ls = [2; 1]
    /\ run (fulfillOrder 3 100) in_progress None
       = (Ok (fulfil_order_row 100 o), t')
    /\ run (getOrder 3) t' None
       = (Ok (fulfil_order_row 100 o, map (fulfil_lead_row 100) ls), t').
Proof.
  destruct (select_order 3 in_progress) as [|o rest] eqn:Hsel;
    [vm_compute in Hsel; discriminate Hsel|].
  pose proof (getOrder_calm 3 in_progress) as E. rewrite Hsel in E.
  set (ls := select_leads_of_order 3 in_progress) in *.
  assert (map l_id ls = [2; 1]) as Hids by reflexivity.
  assert (o_status o <> OFulfilled) as Hst.
  { vm_compute in Hsel. injection Hsel as <- _. discriminate. }
  destruct (life_cycle_seen_through_getOrder in_progress 3 100 o ls E)
    as [H _].
  destruct (H Hst) as [t' [H1 H2]].
  exists o, ls, t'. repeat split; assumption.
Defined.

(** ** New leads *)

Lemma next_lead_id_above t :
  Forall (fun l => l_id l < next_lead_id t) (leads t).
Proof.
  unfold next_lead_id. induction (leads t) as [|l ls IH]; constructor.
  - simpl. lia.
  - eapply Forall_impl; [|exact IH]. intros x Hx. simpl in *. lia.
Qed.

Lemma filter_nowhere {A : Type} (p : A -> bool) (l : list A) :
  Forall (fun x => p x = false) l -> filter p l = [].
Proof.
  induction 1 as [|x xs Hx _ IH]; simpl; [reflexivity|].
  rewrite Hx. exact IH.
Qed.

Lemma select_lead_inserted n e p s now t :
  select_lead (next_lead_id t) (snd (insert_lead n e p s now t))
  = [mkLead (next_lead_id t) n e p s Unassigned None now now].
Proof.
  unfold select_lead, insert_lead; simpl. rewrite filter_app. simpl.
  rewrite Z.eqb_refl. rewrite filter_nowhere; [reflexivity|].
  eapply Forall_impl; [|apply next_lead_id_above].
  intros l Hl. simpl in Hl. apply Z.eqb_neq. lia.
Qed.

Lemma fault_insensitive_createLead n e p s now :
  fault_insensitive (createLead n e p s now).
Proof. unfold createLead. insensitive. Qed.

Lemma createLead_calm n e p s now t :
  falsy_string n || falsy_string e || falsy_string s = false ->
  run (createLead n e p s now) t None
  = (Ok (mkLead (next_lead_id t) n e p s Unassigned None now now),
     snd (insert_lead n e p s now t)).
Proof.
  intros Hv. unfold run, createLead, idle. rewrite Hv, bind_stmt.
  cbn [fst]. rewrite bind_reading.
  change (fst (insert_lead n e p s now t)) with (next_lead_id t).
  rewrite select_lead_inserted. reflexivity.
Qed.

Lemma createLead_valid n e p s now t plan l t' :
  run (createLead n e p s now) t plan = (Ok l, t') ->
  falsy_string n || falsy_string e || falsy_string s = false.
Proof.
  unfold run, createLead.
  destruct (falsy_string n || falsy_string e || falsy_string s);
    [discriminate|reflexivity].
Qed.

Lemma increasing_snoc (ids : list Z) (x : Z) :
  StronglySorted Z.lt ids -> Forall (fun y => y < x) ids ->
  StronglySorted Z.lt (ids ++ [x]).
Proof.
  induction 1 as [|y ys Hs IH Hall]; simpl; intros Hx.
  - constructor; constructor.
  - inversion Hx as [|? ? Hy Hx']; subst.
    constructor; [apply IH, Hx'|].
    apply Forall_app. split; [exact Hall|]. constructor; [exact Hy|constructor].
Qed.

(** X9. A lead that is created is appended to the lead table as an
    Unassigned lead without order reference, stamped with the current
    time, under an id above every id in the table; the orders, the caps
    and the count of Assigned leads of every region stay as they were, and
    the well-formedness properties of the tables are kept. *)
Theorem createLead_adds_one_unassigned_lead :
  forall n e p s now (t : tables) plan l t',
    run (createLead n e p s now) t plan = (Ok l, t') ->
    (l_name l = n /\ l_email l = e /\ l_phone l = p /\ l_state l = s
     /\ l_status l = Unassigned /\ l_order_id l = None
     /\ l_created_at l = now /\ l_updated_at l = now)
    /\ Forall (fun x => l_id x < l_id l) (leads t)
    /\ leads t' = leads t ++ [l]
    /\ orders t' = orders t /\ state_caps t' = state_caps t
    /\ orders_seq t' = orders_seq t
    /\ (forall R, count_assigned R t' = count_assigned R t)
    /\ (ids_increasing t -> ids_increasing t')
    /\ (ids_unique t -> ids_unique t')
    /\ (refs_issued t -> refs_issued t')
    /\ (Forall linked (leads t) -> Forall linked (leads t'))
    /\ (consistent t -> consistent t').
Proof.
  intros n e p s now t plan l t' Hrun.
  pose proof (createLead_valid _ _ _ _ _ _ _ _ _ Hrun) as Hv.
  apply run_fault_insensitive in Hrun; [|apply fault_insensitive_createLead].
  rewrite (createLead_calm n e p s now t Hv) in Hrun.
  injection Hrun as Hl Ht'. subst l t'.
  pose proof (next_lead_id_above t) as Hab.
  split; [simpl; repeat split; reflexivity|].
  split; [exact Hab|].
  split; [reflexivity|]. split; [reflexivity|]. split; [reflexivity|].
  split; [reflexivity|]. cbn [insert_lead snd set_leads leads orders orders_seq].
  split; [|split; [|split; [|split; [|split]]]].
  - intros R. unfold count_assigned; simpl. rewrite filter_app. simpl.
    unfold is_assigned_in at 2; simpl. rewrite andb_false_r.
    rewrite app_nil_r. reflexivity.
  - unfold ids_increasing. intros Hi. simpl. rewrite map_app. simpl.
    apply increasing_snoc; [exact Hi|].
    apply Forall_map. exact Hab.
  - unfold ids_unique. intros Hu. simpl. rewrite map_app. simpl.
    apply NoDup_app; [exact Hu|constructor; [intros []|constructor]|].
    intros a Ha [<-|[]]. apply in_map_iff in Ha as [x [Hx Hin]].
    rewrite Forall_forall in Hab. specialize (Hab x Hin). lia.
  - unfold refs_issued. intros Hr. simpl. apply Forall_app.
    split; [exact Hr|].
    constructor; [|constructor]. simpl. intros x Hx. discriminate Hx.
  - intros Hl. apply Forall_app. split; [exact Hl|].
    constructor; [|constructor]. unfold linked; simpl. tauto.
  - unfold consistent. simpl. intros Hc l o Hl Ho Href.
    apply in_app_or in Hl as [Hl|[<-|[]]]; [apply (Hc l o Hl Ho Href)|].
    simpl in Href. discriminate Href.
Qed.

Lemma createLead_adds_one_unassigned_lead_witness :
  exists l t',
    run (createLead "Dee" "dee@example.com" (Some "555-0111") "CA" 100)
        in_progress None = (Ok l, t')
    /\ l_id l = 5 /\ leads t' = leads in_progress ++ [l]
    /\ ids_unique t'.
Proof.
  destruct (run (createLead "Dee" "dee@example.com" (Some "555-0111") "CA" 100)
                in_progress None) as [[l|err] t'] eqn:E;
    [|vm_compute in E; discriminate E].
  destruct (createLead_adds_one_unassigned_lead _ _ _ _ _ _ _ _ _ E)
    as [_ [_ [H3 [_ [_ [_ [_ [_ [H9 _]]]]]]]]].
  exists l, t'. split; [reflexivity|].
  split; [vm_compute in E; injection E as <- _; reflexivity|].
  split; [exact H3|exact (H9 in_progress_unique)].
Defined.

Lemma insert_by_created_at_snoc x ys l :
  l_created_at x <= l_created_at l ->
  insert_by_created_at x (ys ++ [l]) = insert_by_created_at x ys ++ [l].
Proof.
  intros Hx. induction ys as [|y ys IH]; simpl.
  - apply Z.leb_le in Hx. rewrite Hx. reflexivity.
  - destruct (l_created_at x <=? l_created_at y); simpl;
      [reflexivity|rewrite IH; reflexivity].
Qed.

Lemma order_by_created_at_snoc xs l :
  Forall (fun x => l_created_at x <= l_created_at l) xs ->
  order_by_created_at (xs ++ [l]) = order_by_created_at xs ++ [l].
Proof.
  induction 1 as [|x xs Hx _ IH]; simpl; [reflexivity|].
  rewrite IH. apply insert_by_created_at_snoc, Hx.
Qed.

Lemma Forall_filter {A : Type} (P : A -> Prop) (p : A -> bool) (l : list A) :
  Forall P l -> Forall P (filter p l).
Proof.
  intros H. apply Forall_forall. intros x Hx.
  apply filter_In in Hx as [Hx _]. rewrite Forall_forall in H. apply H, Hx.
Qed.

(** X10. A new lead queues behind the pool of its region.  When no lead
    in the table carries a creation time later than the clock reading of
    the insertion, the oldest-first selection of the region of the new
    lead is, after the insertion, the old selection order with the new
    lead at its end; a selection the old pool could already fill is
    unchanged, and so is every selection of another region. *)
Theorem new_lead_queues_behind_the_pool :
  forall n e p s now (t : tables) plan l t',
    Forall (fun x => l_created_at x <= now) (leads t) ->
    run (createLead n e p s now) t plan = (Ok l, t') ->
    (forall k, select_oldest_unassigned s k t'
               = limit k (order_by_created_at (unassigned_in s t) ++ [l]))
    /\ (forall k, 0 <= k ->
                  (Z.to_nat k <= List.length (unassigned_in s t))%nat ->
                  select_oldest_unassigned s k t'
                  = select_oldest_unassigned s k t)
    /\ (forall R k, R <> s ->
                    select_oldest_unassigned R k t'
                    = select_oldest_unassigned R k t).
Proof.
  intros n e p s now t plan l t' Hold Hrun.
  pose proof (createLead_valid _ _ _ _ _ _ _ _ _ Hrun) as Hv.
  apply run_fault_insensitive in Hrun; [|apply fault_insensitive_createLead].
  rewrite (createLead_calm n e p s now t Hv) in Hrun.
  injection Hrun as Hl Ht'.
  assert (forall R, filter (is_unassigned_in R) (leads t')
                    = filter (is_unassigned_in R) (leads t)
                      ++ (if String.eqb s R then [l] else [])) as Hpool.
  { intros R. rewrite <- Ht'. simpl. rewrite filter_app. f_equal.
    simpl. rewrite <- Hl. unfold is_unassigned_in; simpl.
    rewrite andb_true_r. reflexivity. }
  assert (forall k, select_oldest_unassigned s k t'
                    = limit k (order_by_created_at (unassigned_in s t) ++ [l]))
    as Hsel.
  { intros k. unfold select_oldest_unassigned. rewrite Hpool.
    rewrite String.eqb_refl. unfold unassigned_in.
    rewrite order_by_created_at_snoc; [reflexivity|].
    apply Forall_filter. rewrite <- Hl. exact Hold. }
  split; [exact Hsel|]. split.
  - intros k Hk Hlen. rewrite Hsel.
    unfold select_oldest_unassigned. fold (unassigned_in s t).
    rewrite !limit_firstn by exact Hk.
    rewrite firstn_app.
    replace (Z.to_nat k - List.length (order_by_created_at (unassigned_in s t)))%nat
      with 0%nat.
    + simpl. apply app_nil_r.
    + rewrite (Permutation_length (order_by_created_at_perm _)). lia.
  - intros R k HR. unfold select_oldest_unassigned. rewrite Hpool.
    destruct (String.eqb s R) eqn:E;
      [apply String.eqb_eq in E; congruence|].
    rewrite app_nil_r. reflexivity.
Qed.

Lemma new_lead_queues_behind_the_pool_witness :
  exists l t',
    run (createLead "Dee" "dee@example.com" None "CA" 100) in_progress None
    = (Ok l, t')
    /\ map l_id (select_oldest_unassigned "CA" 5 t') = [4; 5]
    /\ select_oldest_unassigned "CA" 1 t'
       = select_oldest_unassigned "CA" 1 in_progress.
Proof.
  destruct (run (createLead "Dee" "dee@example.com" None "CA" 100)
                in_progress None) as [[l|err] t'] eqn:E;
    [|vm_compute in E; discriminate E].
  assert (Forall (fun x => l_created_at x <= 100) (leads in_progress)) as Hold
    by (simpl; repeat (constructor; [simpl; lia|]); constructor).
  destruct (new_lead_queues_behind_the_pool _ _ _ _ _ _ _ _ _ Hold E)
    as [H1 [H2 _]].
  exists l, t'. split; [reflexivity|]. split.
  - rewrite H1. vm_compute in E. injection E as <- _. reflexivity.
  - apply H2; [lia|simpl; lia].
Defined.

(** X11. Lead creation is not transactional.  With name, email and
    region given, the only error it answers with is a storage error, and
    the tables are then either untouched or already hold the new lead;
    the second case occurs when the INSERT succeeds and the SELECT that
    reads the row back is rejected. *)
Theorem createLead_failure_may_keep_the_lead :
  forall n e p s now (t : tables),
    falsy_string n || falsy_string e || falsy_string s = false ->
    (forall plan err t',
        run (createLead n e p s now) t plan = (Err err, t') ->
        err = StorageError
        /\ (t' = t \/ t' = snd (insert_lead n e p s now t)))
    /\ run (createLead n e p s now) t (Some 1%nat)
       = (Err StorageError, snd (insert_lead n e p s now t))
    /\ leads (snd (insert_lead n e p s now t)) <> leads t.
Proof.
  intros n e p s now t Hv. split; [|split].
  - intros plan err t' Hrun.
    destruct plan as [[|[|k]]|].
    + unfold run, createLead, idle in Hrun. rewrite Hv in Hrun.
      unfold bind, client_query in Hrun; simpl in Hrun.
      injection Hrun as <- <-. split; [reflexivity|left; reflexivity].
    + unfold run, createLead, idle in Hrun. rewrite Hv in Hrun.
      unfold bind, client_query in Hrun; simpl in Hrun.
      injection Hrun as <- <-. split; [reflexivity|right; reflexivity].
    + exfalso.
      assert (exists w, createLead n e p s now (idle t (Some (S (S k))))
                        = (Ok (mkLead (next_lead_id t) n e p s Unassigned
                                      None now now), w)) as [w Hw].
      { unfold createLead, idle. rewrite Hv.
        unfold bind at 1. unfold client_query at 1.
        cbn [faults live saved insert_lead].
        unfold bind, client_query, reading. cbn [faults live saved].
        pose proof (select_lead_inserted n e p s now t) as Hs.
        cbn [insert_lead snd] in Hs. rewrite Hs. eexists. reflexivity. }
      unfold run in Hrun. rewrite Hw in Hrun. discriminate Hrun.
    + rewrite (createLead_calm n e p s now t Hv) in Hrun. discriminate Hrun.
  - unfold run, createLead, idle. rewrite Hv.
    unfold bind, client_query; simpl. reflexivity.
  - simpl. intros H. apply (f_equal (@List.length lead)) in H.
    rewrite length_app in H. simpl in H. lia.
Qed.

Lemma createLead_failure_may_keep_the_lead_witness :
  run (createLead "Dee" "dee@example.com" None "CA" 100) in_progress
      (Some 1%nat)
  = (Err StorageError,
     snd (insert_lead "Dee" "dee@example.com" None "CA" 100 in_progress))
  /\ leads (snd (insert_lead "Dee" "dee@example.com" None "CA" 100 in_progress))
     <> leads in_progress.
Proof.
  destruct (createLead_failure_may_keep_the_lead
              "Dee" "dee@example.com" None "CA" 100 in_progress eq_refl)
    as [_ H].
  exact H.
Defined.

(** ** The reading commands *)

Lemma sorted_app_inv {A : Type} (R : A -> A -> Prop) (l1 l2 : list A) :
  StronglySorted R (l1 ++ l2) ->
  StronglySorted R l1 /\ forall a b, In a l1 -> In b l2 -> R a b.
Proof.
  induction l1 as [|x xs IH]; simpl; intros H.
  - split; [constructor|]. intros a b [].
  - inversion H as [|? ? Hs Hall]; subst.
    destruct (IH Hs) as [Hs1 Hcross].
    apply Forall_app in Hall as [Hall1 Hall2].
    split; [constructor; assumption|].
    intros a b [<-|Ha] Hb.
    + rewrite Forall_forall in Hall2. apply Hall2, Hb.
    + apply Hcross; assumption.
Qed.

Section Newest.

Context {A : Type}.
Variable created_at : A -> Z.

Lemma insert_newest_first_perm x l :
  Permutation (insert_newest_first created_at x l) (x :: l).
Proof.
  induction l as [|y ys IH]; simpl; [apply Permutation_refl|].
  destruct (created_at y <=? created_at x).
  - apply Permutation_refl.
  - eapply Permutation_trans; [apply perm_skip, IH|apply perm_swap].
Qed.

Lemma order_by_created_at_desc_perm l :
  Permutation (order_by_created_at_desc created_at l) l.
Proof.
  induction l as [|x xs IH]; simpl; [apply perm_nil|].
  eapply Permutation_trans; [apply insert_newest_first_perm|].
  apply perm_skip, IH.
Qed.

Lemma insert_newest_first_sorted x l :
  StronglySorted (fun a b => created_at b <= created_at a) l ->
  StronglySorted (fun a b => created_at b <= created_at a) (insert_newest_first created_at x l).
Proof.
  induction l as [|y ys IH]; simpl; intros Hs.
  - constructor; constructor.
  - inversion Hs as [|? ? Hs' Hall]; subst.
    destruct (created_at y <=? created_at x) eqn:E.
    + apply Z.leb_le in E. constructor; [exact Hs|].
      constructor; [exact E|].
      eapply Forall_impl; [|exact Hall]. intros z Hz. simpl in Hz. lia.
    + apply Z.leb_gt in E. constructor; [apply IH, Hs'|].
      apply Forall_forall. intros z Hz.
      apply (Permutation_in _ (insert_newest_first_perm x ys)) in Hz.
      destruct Hz as [<-|Hz]; [lia|].
      rewrite Forall_forall in Hall. apply Hall, Hz.
Qed.

Lemma order_by_created_at_desc_sorted l :
  StronglySorted (fun a b => created_at b <= created_at a) (order_by_created_at_desc created_at l).
Proof.
  induction l as [|x xs IH]; simpl; [constructor|].
  apply insert_newest_first_sorted, IH.
Qed.

(** What [ORDER BY created_at DESC LIMIT n] returns of the rows [l]. *)
Lemma newest_rows n l :
  let rows := limit n (order_by_created_at_desc created_at l) in
  (forall x, In x rows -> In x l)
  /\ StronglySorted (fun a b => created_at b <= created_at a) rows
  /\ (0 <= n -> List.length rows = Nat.min (Z.to_nat n) (List.length l))
  /\ (n < 0 -> Permutation rows l)
  /\ (forall x, In x l -> ~ In x rows ->
                Forall (fun r => created_at x <= created_at r) rows).
Proof.
  intros rows. subst rows.
  pose proof (order_by_created_at_desc_perm l) as Hp.
  pose proof (order_by_created_at_desc_sorted l) as Hs.
  set (sorted := order_by_created_at_desc created_at l) in *.
  unfold limit. destruct (n <? 0) eqn:E.
  - apply Z.ltb_lt in E. split; [|split; [|split; [|split]]].
    + intros x Hx. apply (Permutation_in _ Hp), Hx.
    + exact Hs.
    + lia.
    + intros _. exact Hp.
    + intros x Hx Hn. exfalso. apply Hn.
      apply (Permutation_in _ (Permutation_sym Hp)), Hx.
  - apply Z.ltb_ge in E.
    rewrite <- (firstn_skipn (Z.to_nat n) sorted) in Hs.
    apply sorted_app_inv in Hs as [Hs1 Hcross].
    split; [|split; [|split; [|split]]].
    + intros x Hx. apply (Permutation_in _ Hp). eapply firstn_incl, Hx.
    + exact Hs1.
    + intros _. rewrite length_firstn, (Permutation_length Hp). reflexivity.
    + lia.
    + intros x Hx Hn. apply Forall_forall. intros r Hr.
      apply (Permutation_in _ (Permutation_sym Hp)) in Hx.
      rewrite <- (firstn_skipn (Z.to_nat n) sorted) in Hx.
      apply in_app_or in Hx as [Hx|Hx]; [contradiction|].
      apply (Hcross r x Hr Hx).
Qed.

End Newest.

Lemma run_reading {A : Type} (q : tables -> A) t plan :
  snd (run (client_query (reading q)) t plan) = t
  /\ forall rows t', run (client_query (reading q)) t plan = (Ok rows, t') ->
                     rows = q t /\ t' = t.
Proof.
  unfold run, client_query, reading, idle; simpl.
  destruct plan as [[|k]|]; simpl; (split; [reflexivity|]);
    intros rows t' H; inversion H; split; reflexivity.
Qed.

(** X12. The [get_orders] command reports orders of the table that match
    the status filter, each with the number of leads that refer to it,
    newest first; it reports as many as the limit allows (all of them
    under a negative limit), no matching order left out is newer than a
    reported one, and the tables are left as they were. *)
Theorem get_orders_reports_the_newest_matching_orders :
  forall status l (t : tables) plan rows t',
    run (getOrdersAutomation status l) t plan = (Ok rows, t') ->
    t' = t
    /\ (forall o c, In (o, c) rows ->
                    In o (orders t) /\ order_matches status o = true
                    /\ c = lead_count o t)
    /\ StronglySorted
         (fun a b => o_created_at (fst b) <= o_created_at (fst a)) rows
    /\ (0 <= limit_or_default l ->
        List.length rows
        = Nat.min (Z.to_nat (limit_or_default l))
                  (List.length (filter (order_matches status) (orders t))))
    /\ (limit_or_default l < 0 ->
        Permutation (map fst rows) (filter (order_matches status) (orders t)))
    /\ (forall o, In o (orders t) -> order_matches status o = true ->
                  ~ In (o, lead_count o t) rows ->
                  Forall (fun r => o_created_at o <= o_created_at (fst r)) rows).
Proof.
  intros status l t plan rows t' Hrun.
  destruct (run_reading
              (select_orders_with_count status (limit_or_default l)) t plan)
    as [_ H].
  destruct (H rows t' Hrun) as [-> ->]. clear H Hrun.
  unfold select_orders_with_count.
  destruct (newest_rows (fun r : order * Z => o_created_at (fst r))
              (limit_or_default l)
              (map (fun o => (o, lead_count o t))
                   (filter (order_matches status) (orders t))))
    as [Hin [Hs [Hlen [Hall Htop]]]].
  split; [reflexivity|]. split; [|split; [|split; [|split]]].
  - intros o c Hoc. apply Hin in Hoc.
    apply in_map_iff in Hoc as [o' [Heq Ho']].
    inversion Heq; subst. apply filter_In in Ho' as [Ho1 Ho2].
    repeat split; assumption.
  - exact Hs.
  - intros Hl. rewrite (Hlen Hl), length_map. reflexivity.
  - intros Hl. specialize (Hall Hl).
    apply (Permutation_map fst) in Hall. rewrite map_map in Hall.
    simpl in Hall. rewrite map_id in Hall. exact Hall.
  - intros o Ho Hm Hn. apply (Htop (o, lead_count o t)); [|exact Hn].
    apply in_map_iff. exists o. split; [reflexivity|].
    apply filter_In. split; assumption.
Qed.

Lemma get_orders_reports_the_newest_matching_orders_witness :
  exists rows,
    run (getOrdersAutomation "pending" (Some 1)) in_progress None
    = (Ok rows, in_progress)
    /\ map (fun r => (o_id (fst r), snd r)) rows = [(4, 1)]
    /\ List.length rows = 1%nat.
Proof.
  destruct (run (getOrdersAutomation "pending" (Some 1)) in_progress None)
    as [[rows|err] t'] eqn:E; [|vm_compute in E; discriminate E].
  destruct (get_orders_reports_the_newest_matching_orders _ _ _ _ _ _ E)
    as [Ht [_ [_ [Hlen _]]]].
  exists rows. subst t'. split; [reflexivity|]. split.
  - vm_compute in E. injection E as <-. reflexivity.
  - rewrite Hlen; [reflexivity|simpl; lia].
Defined.

Lemma lead_matches_unassigned (R : string) (l : lead) :
  falsy_string R = false ->
  lead_matches "unassigned" R l = is_unassigned_in R l.
Proof.
  intros HR. unfold lead_matches, is_unassigned_in. rewrite HR. simpl.
  rewrite andb_comm. f_equal.
  destruct (l_status l); reflexivity.
Qed.

(** X13. The [get_leads] command reports leads of the table that match
    the status and region filters, newest first; it reports as many as
    the limit allows, no matching lead left out is newer than a reported
    one, and the tables are left as they were.  Asked for the Unassigned
    leads of a region without limit, it reports the pool from which order
    creation draws for that region. *)
Theorem get_leads_reports_the_newest_matching_leads :
  forall status state l (t : tables) plan rows t',
    run (getLeadsAutomation status state l) t plan = (Ok rows, t') ->
    t' = t
    /\ (forall x, In x rows ->
                  In x (leads t) /\ lead_matches status state x = true)
    /\ StronglySorted (fun a b => l_created_at b <= l_created_at a) rows
    /\ (0 <= limit_or_default l ->
        List.length rows
        = Nat.min (Z.to_nat (limit_or_default l))
                  (List.length (filter (lead_matches status state) (leads t))))
    /\ (forall x, In x (leads t) -> lead_matches status state x = true ->
                  ~ In x rows ->
                  Forall (fun r => l_created_at x <= l_created_at r) rows)
    /\ (limit_or_default l < 0 -> status = "unassigned" ->
        falsy_string state = false ->
        Permutation rows (unassigned_in state t)).
Proof.
  intros status state l t plan rows t' Hrun.
  destruct (run_reading
              (select_leads_filtered status state (limit_or_default l)) t plan)
    as [_ H].
  destruct (H rows t' Hrun) as [-> ->]. clear H Hrun.
  unfold select_leads_filtered.
  destruct (newest_rows l_created_at (limit_or_default l)
              (filter (lead_matches status state) (leads t)))
    as [Hin [Hs [Hlen [Hall Htop]]]].
  split; [reflexivity|]. split; [|split; [|split; [|split]]].
  - intros x Hx. apply Hin in Hx. apply filter_In in Hx. exact Hx.
  - exact Hs.
  - exact Hlen.
  - intros x Hx Hm Hn. apply Htop; [|exact Hn].
    apply filter_In. split; assumption.
  - intros Hl -> Hst. eapply Permutation_trans; [apply (Hall Hl)|].
    unfold unassigned_in.
    rewrite (filter_ext _ _ (fun x => lead_matches_unassigned state x Hst)).
    apply Permutation_refl.
Qed.

Lemma get_leads_reports_the_newest_matching_leads_witness :
  exists rows,
    run (getLeadsAutomation "assigned" "CA" None) in_progress None
    = (Ok rows, in_progress)
    /\ map l_id rows = [3; 1].
Proof.
  destruct (run (getLeadsAutomation "assigned" "CA" None) in_progress None)
    as [[rows|err] t'] eqn:E; [|vm_compute in E; discriminate E].
  destruct (get_leads_reports_the_newest_matching_leads _ _ _ _ _ _ _ E)
    as [Ht _].
  exists rows. subst t'. split; [reflexivity|].
  vm_compute in E. injection E as <-. reflexivity.
Defined.

(** ** The automation dispatcher *)

Lemma atomic_reading {A : Type} (q : tables -> A) :
  atomic (client_query (reading q)).
Proof.
  intros w e w'. unfold client_query, reading.
  destruct (faults w) as [[|k]|]; intros H; inversion H; reflexivity.
Qed.

Lemma world_after_map {A B : Type} (m : M A) (f : A -> B) w :
  snd (bind m (fun a => ret (f a)) w) = snd (m w).
Proof. unfold bind. destruct (m w) as [[a|e] w1]; reflexivity. Qed.

Lemma tables_after_map {A B : Type} (m : M A) (f : A -> B) t plan :
  snd (run (bind m (fun a => ret (f a))) t plan) = live (snd (m (idle t plan))).
Proof.
  unfold run, bind. destruct (m (idle t plan)) as [[a|e] w1]; reflexivity.
Qed.

(** Every helper the dispatcher selects is atomic, and the tables it
    leaves are those it found or those an engine call leaves. *)
Lemma dispatch_some command p now h :
  dispatch command p now = Some h ->
  atomic h
  /\ forall t plan,
       live (snd (h (idle t plan))) = t
       \/ exists r, live (snd (h (idle t plan))) = after r now plan t.
Proof.
  unfold dispatch.
  destruct (String.eqb (toLowerCase command) "create_order").
  { intros H; inversion H; subst; clear H. destruct p as [ps|]; simpl.
    - split; [apply atomic_map, atomic_createOrder|].
      intros t plan. right.
      exists (CreateOrderCommand (p_customer_name ps) (p_customer_email ps)
                                 (p_requested_states ps)).
      unfold after. simpl handle. rewrite tables_after_map, world_after_map.
      reflexivity.
    - split; [apply atomic_map, atomic_throw|]. intros t plan. left.
      reflexivity. }
  destruct (String.eqb (toLowerCase command) "fulfill_order").
  { intros H; inversion H; subst; clear H. destruct p as [ps|]; simpl.
    - split; [apply atomic_map, atomic_fulfillOrderAutomation|].
      intros t plan. right. exists (FulfillOrderCommand (p_orderId ps)).
      unfold after. simpl handle. rewrite tables_after_map, world_after_map.
      reflexivity.
    - split; [apply atomic_map, atomic_throw|]. intros t plan. left.
      reflexivity. }
  destruct (String.eqb (toLowerCase command) "delete_order").
  { intros H; inversion H; subst; clear H. destruct p as [ps|]; simpl.
    - split; [apply atomic_map, atomic_deleteOrderAutomation|].
      intros t plan. right. exists (DeleteOrderCommand (p_orderId ps)).
      unfold after. simpl handle. rewrite tables_after_map, world_after_map.
      reflexivity.
    - split; [apply atomic_map, atomic_throw|]. intros t plan. left.
      reflexivity. }
  destruct (String.eqb (toLowerCase command) "get_orders").
  { intros H; inversion H; subst; clear H. destruct p as [ps|]; simpl.
    - split; [apply atomic_map, atomic_reading|].
      intros t plan. left. rewrite world_after_map.
      unfold getOrdersAutomation, client_query, reading, idle; simpl.
      destruct plan as [[|k]|]; reflexivity.
    - split; [apply atomic_map, atomic_throw|]. intros t plan. left.
      reflexivity. }
  destruct (String.eqb (toLowerCase command) "get_leads").
  { intros H; inversion H; subst; clear H. destruct p as [ps|]; simpl.
    - split; [apply atomic_map, atomic_reading|].
      intros t plan. left. rewrite world_after_map.
      unfold getLeadsAutomation, client_query, reading, idle; simpl.
      destruct plan as [[|k]|]; reflexivity.
    - split; [apply atomic_map, atomic_throw|]. intros t plan. left.
      reflexivity. }
  destruct (String.eqb (toLowerCase command) "one_time_rule").
  { intros H; inversion H; subst; clear H. destruct p as [ps|]; simpl.
    - split; [apply atomic_map, atomic_executeOneTimeRule|].
      intros t plan. right.
      exists (OneTimeRule (p_orderId ps) (p_action ps)).
      unfold after. simpl handle. rewrite tables_after_map, world_after_map.
      reflexivity.
    - split; [apply atomic_map, atomic_throw|]. intros t plan. left.
      reflexivity. }
  discriminate.
Qed.

Lemma execute_world command p now w :
  snd (execute command p now w)
  = if falsy_string command then w
    else match dispatch command p now with
         | None => w
         | Some h => snd (h w)
         end.
Proof.
  unfold execute. destruct (falsy_string command); [reflexivity|].
  destruct (dispatch command p now) as [h|]; [|reflexivity].
  destruct (h w) as [[r|e] w1]; reflexivity.
Qed.

(** X14. Whatever the command, the parameters and the statements that
    fail, an answer of the dispatcher other than the success answer
    leaves the tables as the request found them. *)
Theorem execute_error_answers_change_nothing :
  forall command p now (t : tables) plan,
    (forall r, fst (execute command p now (idle t plan)) <> Answer200 r) ->
    live (snd (execute command p now (idle t plan))) = t.
Proof.
  intros command p now t plan Hno. unfold execute in *.
  destruct (falsy_string command); [reflexivity|].
  destruct (dispatch command p now) as [h|] eqn:Hd; [|reflexivity].
  destruct (dispatch_some _ _ _ _ Hd) as [Hat _].
  destruct (h (idle t plan)) as [[r|e] w1] eqn:E.
  - exfalso. apply (Hno r). reflexivity.
  - simpl. apply (Hat _ _ _ E).
Qed.

Lemma execute_error_answers_change_nothing_witness :
  fst (execute "create_order"
         (Some (mkParams "Cy" "cy@example.com" (Some ["CA"]) None "" "" "" None))
         100 (idle in_progress (Some 5%nat)))
  = Answer500 StorageError
  /\ live (snd (execute "create_order"
         (Some (mkParams "Cy" "cy@example.com" (Some ["CA"]) None "" "" "" None))
         100 (idle in_progress (Some 5%nat))))
     = in_progress.
Proof.
  split; [reflexivity|].
  apply execute_error_answers_change_nothing.
  intros r H. vm_compute in H. discriminate H.
Defined.

(** X15. The dispatcher stays within the engine: the tables a command
    leaves are reachable by engine calls from any tables from which the
    tables it found were. *)
Theorem execute_stays_within_the_engine :
  forall (t0 t : tables) command p now plan,
    reachable t0 t ->
    reachable t0 (live (snd (execute command p now (idle t plan)))).
Proof.
  intros t0 t command p now plan Hreach. rewrite execute_world.
  destruct (falsy_string command); [exact Hreach|].
  destruct (dispatch command p now) as [h|] eqn:Hd; [|exact Hreach].
  destruct (dispatch_some _ _ _ _ Hd) as [_ Hcases].
  destruct (Hcases t plan) as [H|[r H]]; rewrite H.
  - exact Hreach.
  - apply reach_call, Hreach.
Qed.

Lemma execute_stays_within_the_engine_witness :
  reachable in_progress
    (live (snd (execute "ONE_TIME_RULE"
                  (Some (mkParams "" "" None (Some 3) "Cancel" "" "" None))
                  100 (idle in_progress None)))).
Proof.
  apply execute_stays_within_the_engine. apply reach_start.
Defined.

Lemma falsy_string_lower (c c' : string) :
  toLowerCase c = toLowerCase c' -> falsy_string c = falsy_string c'.
Proof.
  destruct c, c'; simpl; intros H; try discriminate H; reflexivity.
Qed.

(** X16. Letter case is ignored where the code lowers it: two strings
    that agree once lowered select the same command of the dispatcher,
    with the same result and the same tables left, and the same action of
    the one-time rule. *)
Theorem letter_case_is_ignored :
  forall c c' : string,
    toLowerCase c = toLowerCase c' ->
    (forall p now w, execute c p now w = execute c' p now w)
    /\ (forall orderId now w,
           executeOneTimeRule orderId c now w
           = executeOneTimeRule orderId c' now w).
Proof.
  intros c c' H. pose proof (falsy_string_lower c c' H) as Hf. split.
  - intros p now w. unfold execute, dispatch. rewrite Hf, H. reflexivity.
  - intros orderId now w. unfold executeOneTimeRule. rewrite Hf, H.
    reflexivity.
Qed.

Lemma letter_case_is_ignored_witness :
  execute "Get_Orders" None 100 (idle in_progress None)
  = execute "get_orders" None 100 (idle in_progress None)
  /\ executeOneTimeRule (Some 3) "CANCEL" 100 (idle in_progress None)
     = executeOneTimeRule (Some 3) "cancel" 100 (idle in_progress None).
Proof.
  destruct (letter_case_is_ignored "Get_Orders" "get_orders" eq_refl)
    as [H1 _].
  destruct (letter_case_is_ignored "CANCEL" "cancel" eq_refl) as [_ H2].
  split; [apply H1|apply H2].
Defined.

(** ** Setting caps *)

Lemma keeps_journal_checked {A : Type} (stmt : tables -> option (A * tables)) :
  keeps_journal (client_query_checked stmt).
Proof.
  intros w. unfold client_query_checked.
  destruct (faults w) as [[|k]|]; try reflexivity;
    destruct (stmt (live w)) as [[a t]|]; reflexivity.
Qed.

Lemma keeps_journal_upsert_caps entries : keeps_journal (upsert_caps entries).
Proof.
  induction entries as [|[s m] rest IH]; simpl.
  - apply keeps_journal_ret.
  - apply keeps_journal_bind; [apply keeps_journal_checked|intros _; exact IH].
Qed.

Lemma atomic_setCaps caps : atomic (setCaps caps).
Proof.
  destruct caps as [entries|]; simpl.
  - apply atomic_transaction, keeps_journal_upsert_caps.
  - apply atomic_throw.
Qed.

Lemma has_cap_entry_kept R s m t :
  has_cap_entry R t = true ->
  has_cap_entry R (mkTables (leads t) (orders t)
                            (state_caps t ++ [(s, m)]) (orders_seq t)) = true.
Proof.
  unfold has_cap_entry; simpl. rewrite existsb_app. intros ->. reflexivity.
Qed.

Lemma upsert_caps_conflict entries :
  forall w,
    Exists (fun en => has_cap_entry (fst en) (live w) = true) entries ->
    exists w', upsert_caps entries w = (Err StorageError, w')
               /\ saved w' = saved w.
Proof.
  induction entries as [|[s m] rest IH]; intros w Hex;
    [inversion Hex|].
  assert (has_cap_entry s (live w) = false ->
          Exists (fun en =>
                    has_cap_entry (fst en)
                      (mkTables (leads (live w)) (orders (live w))
                                (state_caps (live w) ++ [(s, m)])
                                (orders_seq (live w))) = true) rest) as Hrest.
  { intros Hc. inversion Hex as [? ? Hhd|? ? Htl]; subst.
    - simpl in Hhd. congruence.
    - eapply Exists_impl; [|exact Htl].
      intros en Hen. apply has_cap_entry_kept, Hen. }
  simpl. unfold bind, client_query_checked, upsert_cap.
  destruct (faults w) as [[|k]|].
  - eexists. split; reflexivity.
  - destruct (has_cap_entry s (live w)) eqn:Hc.
    + eexists. split; reflexivity.
    + destruct (IH (mkWorld _ (saved w) (Some k)) (Hrest eq_refl))
        as [w' [H1 H2]].
      exists w'. split; assumption.
  - destruct (has_cap_entry s (live w)) eqn:Hc.
    + eexists. split; reflexivity.
    + destruct (IH (mkWorld _ (saved w) None) (Hrest eq_refl))
        as [w' [H1 H2]].
      exists w'. split; assumption.
Qed.

(** X17. Setting caps is all or nothing, and it cannot change the cap of
    a region that has one.  The statement of the handler binds two of its
    three parameters, so for a region that already has a row the update
    would store NULL in [max_leads] and is rejected: whenever some entry
    names a configured region the call fails, and a call that fails, for
    this or any other reason, leaves the tables as it found them. *)
Theorem setCaps_cannot_change_a_configured_cap :
  forall entries (t : tables) plan,
    Exists (fun en => has_cap_entry (fst en) t = true) entries ->
    run (setCaps (Some entries)) t plan = (Err StorageError, t)
    /\ forall caps plan' err t',
         run (setCaps caps) t plan' = (Err err, t') -> t' = t.
Proof.
  intros entries t plan Hex. split.
  - unfold run, setCaps, transaction.
    destruct (upsert_caps_conflict entries (db_begin (idle t plan)) Hex)
      as [w' [H1 H2]].
    rewrite H1. unfold db_rollback. rewrite H2. reflexivity.
  - intros caps plan' err t' H.
    apply (run_atomic _ _ _ _ _ (atomic_setCaps caps) H).
Qed.

Lemma setCaps_cannot_change_a_configured_cap_witness :
  run (setCaps (Some [("WA", 20); ("CA", 5)])) in_progress None
  = (Err StorageError, in_progress).
Proof.
  apply (setCaps_cannot_change_a_configured_cap
           [("WA", 20); ("CA", 5)] in_progress None).
  apply Exists_cons_tl, Exists_cons_hd. reflexivity.
Defined.

Lemma fromEntries_app (a b : list (string * Z)) (key : string) :
  fromEntries (a ++ b) key
  = match fromEntries b key with
    | Some v => Some v
    | None => fromEntries a key
    end.
Proof.
  induction a as [|[k v] a IH]; simpl.
  - destruct (fromEntries b key); reflexivity.
  - rewrite IH. destruct (fromEntries b key); reflexivity.
Qed.

Lemma fromEntries_absent (b : list (string * Z)) (key : string) :
  ~ In key (map fst b) -> fromEntries b key = None.
Proof.
  induction b as [|[k v] b IH]; simpl; intros H; [reflexivity|].
  rewrite IH by tauto.
  destruct (String.eqb key k) eqn:E; [|reflexivity].
  apply String.eqb_eq in E. subst. tauto.
Qed.

Lemma fromEntries_in (b : list (string * Z)) (key : string) (v : Z) :
  NoDup (map fst b) -> In (key, v) b -> fromEntries b key = Some v.
Proof.
  induction b as [|[k x] b IH]; simpl; intros Hn Hin; [contradiction|].
  inversion Hn as [|? ? Hk Hn']; subst.
  destruct Hin as [Heq|Hin].
  - inversion Heq; subst. rewrite fromEntries_absent by exact Hk.
    rewrite String.eqb_refl. reflexivity.
  - rewrite (IH Hn' Hin). reflexivity.
Qed.

Lemma has_cap_entry_added R s m t :
  has_cap_entry R (mkTables (leads t) (orders t)
                            (state_caps t ++ [(s, m)]) (orders_seq t))
  = has_cap_entry R t || String.eqb s R.
Proof.
  unfold has_cap_entry; simpl. rewrite existsb_app. simpl.
  rewrite orb_false_r. reflexivity.
Qed.

Lemma upsert_caps_fresh entries :
  forall t sv,
    NoDup (map fst entries) ->
    Forall (fun en => has_cap_entry (fst en) t = false) entries ->
    upsert_caps entries (mkWorld t sv None)
    = (Ok tt, mkWorld (mkTables (leads t) (orders t)
                                (state_caps t ++ entries) (orders_seq t))
                      sv None).
Proof.
  induction entries as [|[s m] rest IH]; intros t sv Hn Hf; simpl.
  - rewrite app_nil_r. destruct t; reflexivity.
  - inversion Hn as [|? ? Hs Hn']; subst.
    inversion Hf as [|? ? Hhd Htl]; subst. simpl in Hhd.
    unfold bind at 1. unfold client_query_checked, upsert_cap. simpl.
    rewrite Hhd. rewrite IH; [|exact Hn'|].
    + simpl. rewrite <- app_assoc. reflexivity.
    + apply Forall_forall. intros en Hen.
      rewrite has_cap_entry_added.
      rewrite Forall_forall in Htl. rewrite (Htl en Hen). simpl.
      apply String.eqb_neq. intros ->. apply Hs.
      apply in_map, Hen.
Qed.

(** X18. Setting caps for regions that have none adds them.  When the
    entries name distinct regions without a row in the cap table, the
    call succeeds, appends the entries to the cap table and changes no
    other table; afterwards each named region has the cap given for it
    and every other region the cap it had. *)
Theorem setCaps_adds_caps_for_new_regions :
  forall entries (t : tables),
    NoDup (map fst entries) ->
    Forall (fun en => has_cap_entry (fst en) t = false) entries ->
    exists t',
      run (setCaps (Some entries)) t None = (Ok tt, t')
      /\ state_caps t' = state_caps t ++ entries
      /\ leads t' = leads t /\ orders t' = orders t
      /\ orders_seq t' = orders_seq t
      /\ (forall R m, In (R, m) entries -> cap t' R = m)
      /\ (forall R, ~ In R (map fst entries) -> cap t' R = cap t R).
Proof.
  intros entries t Hn Hf.
  exists (mkTables (leads t) (orders t) (state_caps t ++ entries)
                   (orders_seq t)).
  split.
  - unfold run, setCaps, transaction, idle, db_begin; simpl.
    rewrite (upsert_caps_fresh entries t (Some t) Hn Hf). reflexivity.
  - repeat split; unfold cap; simpl.
    + intros R m Hin. rewrite fromEntries_app, (fromEntries_in _ _ _ Hn Hin).
      reflexivity.
    + intros R HR. rewrite fromEntries_app, (fromEntries_absent _ _ HR).
      reflexivity.
Qed.

Lemma setCaps_adds_caps_for_new_regions_witness :
  exists t',
    run (setCaps (Some [("WA", 20); ("OR", 3)])) in_progress None = (Ok tt, t')
    /\ cap t' "WA" = 20 /\ cap t' "OR" = 3 /\ cap t' "CA" = 10.
Proof.
  assert (NoDup (map fst [("WA", 20); ("OR", 3)])) as Hn.
  { simpl. constructor; [simpl; intuition discriminate|].
    constructor; [simpl; tauto|constructor]. }
  assert (Forall (fun en : string * Z => has_cap_entry (fst en) in_progress = false)
                 [("WA", 20); ("OR", 3)]) as Hf.
  { constructor; [reflexivity|]. constructor; [reflexivity|constructor]. }
  destruct (setCaps_adds_caps_for_new_regions _ in_progress Hn Hf)
    as [t' [H1 [_ [_ [_ [_ [H6 H7]]]]]]].
  exists t'. split; [exact H1|]. split; [|split].
  - apply H6. left. reflexivity.
  - apply H6. right. left. reflexivity.
  - rewrite H7; [reflexivity|]. simpl. intuition discriminate.
Defined.

(** ** Cancelling and creating again *)

(** X19. Round trip through a cancellation: on well-formed tables, let a
    creation assign leads to a new order.  Cancelling that order through
    the one-time rule succeeds, keeps the order as a Cancelled row and
    restores the pool; the identical creation issued next succeeds, takes
    the next order id and assigns the leads with the same ids, in the
    same sequence. *)
Theorem create_cancel_create_assigns_same_leads :
  forall (t : tables) n e s action now1 now2 now3 plan o assigned t1,
    ids_unique t -> refs_issued t -> orders_issued t -> 0 <= orders_seq t ->
    toLowerCase action = "cancel" ->
    run (createOrder n e s now1) t plan = (Ok (o, assigned), t1) ->
    exists t2 o' assigned' t3,
      run (executeOneTimeRule (Some (o_id o)) action now2) t1 None
      = (Ok (CancelledAndReturned (o_id o)), t2)
      /\ select_order (o_id o) t2 = [cancel_order_row now2 o]
      /\ Forall2 same_for_allocation (leads t) (leads t2)
      /\ state_caps t2 = state_caps t
      /\ run (createOrder n e s now3) t2 None = (Ok (o', assigned'), t3)
      /\ o_id o' = o_id o + 1
      /\ map l_id assigned' = map l_id assigned.
Proof.
  intros t n e s action now1 now2 now3 plan o assigned t1
         Hu Hr Ho Hseq Hact Hrun.
  destruct (createOrder_ok_valid _ _ _ _ _ _ _ _ _ Hrun) as [Hn He].
  apply run_fault_insensitive in Hrun; [|apply fault_insensitive_createOrder].
  rewrite (createOrder_calm_fresh n e s now1 t Ho Hn He) in Hrun.
  injection Hrun as Heq Ha Ht1.
  assert (o_id o = orders_seq t + 1) as Hid by (rewrite <- Heq; reflexivity).
  set (caps := fromEntries (state_caps t)) in *.
  set (oid := orders_seq t + 1) in *.
  assert (t1 = snd (allocate caps oid now1 (states_or_default s) []
                             (snd (insert_order n e now1 t)))) as Ht1'
    by (symmetry; exact Ht1).
  assert (assigned = fst (allocate caps oid now1 (states_or_default s) []
                                   (snd (insert_order n e now1 t)))) as Ha'
    by (symmetry; exact Ha).
  clear Ht1 Ha.
  destruct (allocate_other_tables caps oid now1 (states_or_default s) []
              (snd (insert_order n e now1 t))) as [Hord [Hcaps [Hsq _]]].
  rewrite <- Ht1' in Hord, Hcaps, Hsq.
  assert (select_order oid t1 = [o]) as Hsel.
  { unfold select_order. rewrite Hord, <- Heq.
    apply (select_order_fresh n e now1 t Ho). }
  set (t2 := update_leads_released now2 oid (update_order_cancelled now2 oid t1)).
  assert (oid <> 0) as Hnz by (unfold oid; lia).
  assert (run (executeOneTimeRule (Some oid) action now2) t1 None
          = (Ok (CancelledAndReturned oid), t2)) as Hcancel.
  { rewrite executeOneTimeRule_cancel_calm, Hsel by assumption.
    rewrite <- Heq. reflexivity. }
  assert (Forall2 same_for_allocation (leads t) (leads t2)) as Hpool.
  { pose proof (create_delete_restores_pool caps n e now1 now2
                  (states_or_default s) t Hu Hr) as H.
    cbv zeta in H. fold oid in H. rewrite <- Ht1' in H. exact H. }
  assert (state_caps t2 = state_caps t) as Hcaps2 by exact Hcaps.
  destruct (createOrder_calm n e s now3 t2 Hn He) as [o' [Hid' Hrun']].
  exists t2, o'. eexists. eexists. rewrite Hid.
  split; [exact Hcancel|]. split.
  { unfold t2.
    change (select_order oid (update_leads_released now2 oid
                                (update_order_cancelled now2 oid t1)))
      with (select_order oid (update_order_cancelled now2 oid t1)).
    rewrite select_order_update_cancelled, Hsel. reflexivity. }
  split; [exact Hpool|]. split; [exact Hcaps2|].
  split; [exact Hrun'|]. split.
  - rewrite Hid'. change (orders_seq t2) with (orders_seq t1).
    rewrite Hsq. reflexivity.
  - rewrite Ha', Hcaps2. fold caps. rewrite Hid'.
    change (orders_seq t2) with (orders_seq t1).
    apply same_allocate; [|reflexivity].
    change (Forall2 same_for_allocation (leads t2) (leads t)).
    induction Hpool as [|a b la lb Hab _ IH]; constructor.
    + unfold same_for_allocation in *. intuition congruence.
    + exact IH.
Qed.

Lemma create_cancel_create_assigns_same_leads_witness :
  exists o assigned t1 t2 o' assigned' t3,
    run (createOrder "Ann" "ann@example.com" (Some ["CA"]) 100) scenario_CA None
    = (Ok (o, assigned), t1)
    /\ run (executeOneTimeRule (Some (o_id o)) "cancel" 200) t1 None
       = (Ok (CancelledAndReturned (o_id o)), t2)
    /\ run (createOrder "Ann" "ann@example.com" (Some ["CA"]) 300) t2 None
       = (Ok (o', assigned'), t3)
    /\ o_id o' = o_id o + 1
    /\ map l_id assigned' = map l_id assigned.
Proof.
  destruct (run (createOrder "Ann" "ann@example.com" (Some ["CA"]) 100)
                scenario_CA None) as [[[o assigned]|err] t1] eqn:E;
    [|vm_compute in E; discriminate E].
  assert (ids_unique scenario_CA) as Hu
    by (apply increasing_unique, scenario_CA_increasing).
  assert (orders_issued scenario_CA) as Ho
    by (unfold orders_issued; simpl; repeat constructor).
  assert (0 <= orders_seq scenario_CA) as Hs by (simpl; lia).
  destruct (create_cancel_create_assigns_same_leads scenario_CA
              "Ann" "ann@example.com" (Some ["CA"]) "cancel" 100 200 300 None
              o assigned t1 Hu scenario_CA_refs_issued Ho Hs eq_refl E)
    as [t2 [o' [assigned' [t3 [H1 [_ [_ [_ [H5 [H6 H7]]]]]]]]]].
  exists o, assigned, t1, t2, o', assigned', t3.
  repeat split; assumption.
Defined.

(** ** Start-up *)

Lemma createTables_first_start boot :
  createTables boot empty_database = seeded boot.
Proof. reflexivity. Qed.

Lemma has_cap_entry_none R t :
  has_cap_entry R t = false -> fromEntries (state_caps t) R = None.
Proof.
  unfold has_cap_entry. induction (state_caps t) as [|[k v] rows IH]; simpl;
    [reflexivity|].
  intros H. apply orb_false_iff in H as [Hk Hrest]. rewrite (IH Hrest).
  rewrite String.eqb_sym, Hk. reflexivity.
Qed.

Lemma insert_or_ignore_cap_frame s m t :
  leads (insert_or_ignore_cap s m t) = leads t
  /\ orders (insert_or_ignore_cap s m t) = orders t
  /\ orders_seq (insert_or_ignore_cap s m t) = orders_seq t
  /\ has_cap_entry s (insert_or_ignore_cap s m t) = true
  /\ (forall R, has_cap_entry R t = true ->
                has_cap_entry R (insert_or_ignore_cap s m t) = true)
  /\ (has_cap_entry s t = true -> insert_or_ignore_cap s m t = t)
  /\ (m = 10 -> forall R, cap (insert_or_ignore_cap s m t) R = cap t R).
Proof.
  unfold insert_or_ignore_cap.
  destruct (has_cap_entry s t) eqn:E; simpl.
  - repeat split; auto.
  - repeat split; try discriminate.
    + rewrite has_cap_entry_added, String.eqb_refl. apply orb_true_r.
    + intros R HR. apply has_cap_entry_kept, HR.
    + intros -> R. unfold cap; simpl. rewrite fromEntries_app. simpl.
      destruct (String.eqb R s) eqn:ER; [|reflexivity].
      apply String.eqb_eq in ER. subst R.
      rewrite (has_cap_entry_none s t E). reflexivity.
Qed.

Lemma seed_caps rows :
  forall t,
    let t' := fold_left (fun acc row =>
                           insert_or_ignore_cap (fst row) (snd row) acc)
                        rows t in
    leads t' = leads t /\ orders t' = orders t
    /\ orders_seq t' = orders_seq t
    /\ (forall R, has_cap_entry R t = true -> has_cap_entry R t' = true)
    /\ (forall R, In R (map fst rows) -> has_cap_entry R t' = true)
    /\ (Forall (fun row => has_cap_entry (fst row) t = true) rows -> t' = t)
    /\ (Forall (fun row => snd row = 10) rows ->
        forall R, cap t' R = cap t R).
Proof.
  induction rows as [|[s m] rows IH]; intros t; simpl.
  - repeat split; auto; intros R [].
  - destruct (insert_or_ignore_cap_frame s m t)
      as [H1 [H2 [H3 [H4 [H5 [H6 H7]]]]]].
    destruct (IH (insert_or_ignore_cap s m t))
      as [I1 [I2 [I3 [I4 [I5 [I6 I7]]]]]].
    split; [congruence|]. split; [congruence|]. split; [congruence|].
    split; [intros R HR; apply I4, H5, HR|].
    split; [intros R [<-|HR]; [apply I4, H4|apply I5, HR]|].
    split.
    + intros Hall. inversion Hall as [|? ? Hs Hrest]; subst. simpl in Hs.
      rewrite I6; [apply H6, Hs|].
      eapply Forall_impl; [|exact Hrest]. intros row Hrow. apply H5, Hrow.
    + intros Hall R. inversion Hall as [|? ? Hm Hrest]; subst. simpl in Hm.
      rewrite (I7 Hrest R). apply H7, Hm.
Qed.

Lemma insert_lead_unique n e p s now t :
  ids_unique t -> ids_unique (snd (insert_lead n e p s now t)).
Proof.
  unfold ids_unique; simpl. intros Hu. rewrite map_app. simpl.
  apply NoDup_app; [exact Hu|constructor; [intros []|constructor]|].
  intros a Ha [<-|[]]. apply in_map_iff in Ha as [x [Hx Hin]].
  pose proof (next_lead_id_above t) as Hab.
  rewrite Forall_forall in Hab. specialize (Hab x Hin). lia.
Qed.

Lemma seed_leads boot rows :
  forall t,
    let t' := fold_left (insert_sample_lead boot) rows t in
    (exists new,
        leads t' = leads t ++ new
        /\ map l_state new = map snd rows
        /\ Forall (fun l => l_status l = Unassigned /\ l_order_id l = None
                            /\ l_created_at l = boot) new)
    /\ orders t' = orders t /\ state_caps t' = state_caps t
    /\ orders_seq t' = orders_seq t
    /\ (ids_unique t -> ids_unique t').
Proof.
  induction rows as [|[[[n e] p] s] rows IH]; intros t; cbv zeta;
    cbn [fold_left insert_sample_lead].
  - split; [exists []; rewrite app_nil_r; repeat split; constructor|].
    repeat split; auto.
  - destruct (IH (snd (insert_lead n e (Some p) s boot t)))
      as [[new [I1 [I2 I3]]] [I4 [I5 [I6 I7]]]].
    split.
    + exists (mkLead (next_lead_id t) n e (Some p) s Unassigned None boot boot
                     :: new).
      split; [rewrite I1; simpl; rewrite <- app_assoc; reflexivity|].
      split; [simpl; rewrite I2; reflexivity|].
      constructor; [simpl; repeat split; reflexivity|exact I3].
    + split; [exact I4|]. split; [exact I5|]. split; [exact I6|].
      intros Hu. apply I7, insert_lead_unique, Hu.
Qed.

(** The leads and the cap rows after [createTables]. *)
Lemma createTables_start boot t :
  (exists new,
      leads (createTables boot t) = leads t ++ new
      /\ map l_state new
         = ["CA"; "CA"; "NY"; "NY"; "TX"; "TX"; "FL"; "FL"; "IL"; "IL"]
      /\ Forall (fun l => l_status l = Unassigned /\ l_order_id l = None
                          /\ l_created_at l = boot) new)
  /\ (forall R, In R default_states ->
                has_cap_entry R (createTables boot t) = true)
  /\ (Forall (fun row => has_cap_entry (fst row) t = true) default_caps ->
      state_caps (createTables boot t) = state_caps t).
Proof.
  unfold createTables.
  set (t1 := fold_left (fun acc row =>
                          insert_or_ignore_cap (fst row) (snd row) acc)
                       default_caps t).
  destruct (seed_caps default_caps t) as [C1 [_ [_ [_ [C5 [C6 _]]]]]].
  fold t1 in C1, C5, C6.
  destruct (seed_leads boot sample_leads t1)
    as [[new [L1 [L2 L3]]] [_ [L5 _]]].
  split; [exists new; rewrite L1, C1; repeat split; assumption|].
  split.
  - intros R HR. unfold has_cap_entry. rewrite L5. apply C5, HR.
  - intros Hall. rewrite L5, (C6 Hall). reflexivity.
Qed.

(** What [createTables] keeps of a database that exists. *)
Lemma createTables_shape boot t :
  (exists new,
      leads (createTables boot t) = leads t ++ new
      /\ Forall (fun l => l_status l = Unassigned /\ l_order_id l = None) new)
  /\ orders (createTables boot t) = orders t
  /\ orders_seq (createTables boot t) = orders_seq t
  /\ (forall R, cap (createTables boot t) R = cap t R)
  /\ (forall R, count_assigned R (createTables boot t) = count_assigned R t)
  /\ (ids_unique t -> ids_unique (createTables boot t)).
Proof.
  destruct (createTables_start boot t) as [[new [L1 [_ L3]]] _].
  assert (Forall (fun l => l_status l = Unassigned /\ l_order_id l = None) new)
    as Hnew.
  { eapply Forall_impl; [|exact L3]. intros l [A [B _]]. split; assumption. }
  unfold createTables in *.
  set (t1 := fold_left (fun acc row =>
                          insert_or_ignore_cap (fst row) (snd row) acc)
                       default_caps t) in *.
  destruct (seed_caps default_caps t) as [C1 [C2 [C3 [_ [_ [_ C7]]]]]].
  fold t1 in C1, C2, C3, C7.
  destruct (seed_leads boot sample_leads t1) as [_ [L4 [L5 [L6 L7]]]].
  split; [exists new; split; assumption|].
  split; [congruence|]. split; [congruence|].
  split.
  { intros R. unfold cap. rewrite L5. apply C7. repeat constructor. }
  split.
  { intros R. unfold count_assigned. rewrite L1, filter_app.
    assert (filter (is_assigned_in R) new = []) as ->.
    { apply filter_nowhere. eapply Forall_impl; [|exact Hnew].
      intros l [Hst _]. unfold is_assigned_in. rewrite Hst.
      apply andb_false_r. }
    rewrite app_nil_r. reflexivity. }
  intros Hu. apply L7. unfold ids_unique. rewrite C1. exact Hu.
Qed.

(** X20. What a start does to a database that exists.  [createTables]
    inserts the ten sample leads again, as Unassigned leads stamped with
    the time of the start and placed after the leads of the table, which
    it leaves alone; it adds a cap of 10 for each default region that has
    none and changes the cap of no region, so a second start changes no
    cap row but adds ten more leads.  Orders, the order sequence, the
    counts of Assigned leads and the uniqueness of lead ids are kept. *)
Theorem createTables_seeds_again_on_every_start :
  forall boot (t : tables),
    (exists new,
        leads (createTables boot t) = leads t ++ new
        /\ map l_state new
           = ["CA"; "CA"; "NY"; "NY"; "TX"; "TX"; "FL"; "FL"; "IL"; "IL"]
        /\ Forall (fun l => l_status l = Unassigned /\ l_order_id l = None
                            /\ l_created_at l = boot) new)
    /\ orders (createTables boot t) = orders t
    /\ orders_seq (createTables boot t) = orders_seq t
    /\ (forall R, cap (createTables boot t) R = cap t R)
    /\ (forall R, In R default_states ->
                  has_cap_entry R (createTables boot t) = true)
    /\ (forall R, count_assigned R (createTables boot t) = count_assigned R t)
    /\ (ids_unique t -> ids_unique (createTables boot t))
    /\ (forall boot2,
           state_caps (createTables boot2 (createTables boot t))
           = state_caps (createTables boot t)
           /\ List.length (leads (createTables boot2 (createTables boot t)))
              = (List.length (leads t) + 20)%nat).
Proof.
  intros boot t.
  destruct (createTables_start boot t) as [[new [L1 [L2 L3]]] [Hdef _]].
  destruct (createTables_shape boot t) as [_ [S2 [S3 [S4 [S5 S6]]]]].
  split; [exists new; repeat split; assumption|].
  split; [exact S2|]. split; [exact S3|]. split; [exact S4|].
  split; [exact Hdef|]. split; [exact S5|]. split; [exact S6|].
  intros boot2.
  destruct (createTables_start boot2 (createTables boot t))
    as [[new2 [M1 [M2 _]]] [_ Mcaps]].
  split.
  - apply Mcaps. apply Forall_forall. intros row Hrow.
    apply Hdef. unfold default_caps in Hrow. unfold default_states.
    simpl in Hrow. simpl.
    repeat (destruct Hrow as [<-|Hrow]; [simpl; tauto|]). contradiction.
  - rewrite M1, L1, !length_app.
    rewrite <- (length_map l_state new), <- (length_map l_state new2).
    rewrite L2, M2. simpl. lia.
Qed.

Lemma createTables_seeds_again_on_every_start_witness :
  ids_unique (createTables 50 in_progress)
  /\ List.length (leads (createTables 60 (createTables 50 in_progress)))
     = 24%nat.
Proof.
  destruct (createTables_seeds_again_on_every_start 50 in_progress)
    as [_ [_ [_ [_ [_ [_ [Hu H2]]]]]]].
  split; [exact (Hu in_progress_unique)|].
  destruct (H2 60) as [_ Hlen]. exact Hlen.
Defined.


(** ** The interface as a whole *)

(** Appending Unassigned leads without order reference keeps what holds
    of the tables. *)
Lemma appended_unassigned_keeps (t t' : tables) (new : list lead) :
  leads t' = leads t ++ new ->
  Forall (fun l => l_status l = Unassigned /\ l_order_id l = None) new ->
  orders t' = orders t -> orders_seq t' = orders_seq t ->
  (refs_issued t -> refs_issued t')
  /\ (orders_issued t -> orders_issued t')
  /\ (Forall linked (leads t) -> Forall linked (leads t'))
  /\ (consistent t -> consistent t')
  /\ (forall R, count_assigned R t' = count_assigned R t).
Proof.
  intros Hl Hnew Ho Hs.
  unfold refs_issued, orders_issued, consistent, count_assigned.
  rewrite Hl, Ho, Hs. rewrite Forall_forall in Hnew.
  split; [|split; [|split; [|split]]].
  - intros Hr. apply Forall_app. split; [exact Hr|].
    apply Forall_forall. intros l Hin x Hx.
    destruct (Hnew l Hin) as [_ Hnone]. congruence.
  - tauto.
  - intros Hk. apply Forall_app. split; [exact Hk|].
    apply Forall_forall. intros l Hin. unfold linked.
    destruct (Hnew l Hin) as [H1 H2]. tauto.
  - intros Hc l o Hin Hino Href.
    apply in_app_or in Hin as [Hin|Hin]; [apply (Hc l o Hin Hino Href)|].
    destruct (Hnew l Hin) as [_ Hnone]. congruence.
  - intros R. rewrite filter_app.
    assert (filter (is_assigned_in R) new = []) as ->.
    { apply filter_nowhere. apply Forall_forall. intros l Hin.
      destruct (Hnew l Hin) as [Hst _]. unfold is_assigned_in. rewrite Hst.
      apply andb_false_r. }
    rewrite app_nil_r. reflexivity.
Qed.

Lemma bind_stmt_later {A B : Type} (stmt : tables -> A * tables)
      (k : A -> M B) t sv n :
  bind (client_query stmt) k (mkWorld t sv (Some (S n)))
  = k (fst (stmt t)) (mkWorld (snd (stmt t)) sv (Some n)).
Proof.
  unfold bind, client_query; simpl. destruct (stmt t); reflexivity.
Qed.

Lemma createLead_tables n e p s now t plan :
  snd (run (createLead n e p s now) t plan) = t
  \/ snd (run (createLead n e p s now) t plan)
     = snd (insert_lead n e p s now t).
Proof.
  assert (forall lastID w,
             live (snd ((insertedLead <- client_query
                                           (reading (select_lead lastID)) ;;
                         match insertedLead with
                         | [] => throw TypeError
                         | l :: _ => ret l
                         end) w)) = live w) as Hread.
  { intros lastID w. unfold bind, client_query, reading.
    destruct (faults w) as [[|k]|]; simpl; try reflexivity;
      destruct (select_lead lastID (live w)); reflexivity. }
  unfold run, createLead, idle.
  destruct (falsy_string n || falsy_string e || falsy_string s);
    [left; reflexivity|].
  destruct plan as [[|k]|].
  - left. reflexivity.
  - right. rewrite bind_stmt_later.
    match goal with
    | |- snd (let (r, w) := ?m ?w0 in (r, live w)) = _ =>
        specialize (Hread (fst (insert_lead n e p s now t)) w0);
          destruct (m w0) as [r w1]
    end.
    exact Hread.
  - right. rewrite bind_stmt.
    match goal with
    | |- snd (let (r, w) := ?m ?w0 in (r, live w)) = _ =>
        specialize (Hread (fst (insert_lead n e p s now t)) w0);
          destruct (m w0) as [r w1]
    end.
    exact Hread.
Qed.

Lemma upsert_caps_ok entries :
  forall w u w',
    upsert_caps entries w = (Ok u, w') ->
    Forall (fun en => has_cap_entry (fst en) (live w) = false) entries
    /\ live w' = mkTables (leads (live w)) (orders (live w))
                          (state_caps (live w) ++ entries)
                          (orders_seq (live w)).
Proof.
  induction entries as [|[s m] rest IH]; intros w u w' H; simpl in H.
  - inversion H; subst. split; [constructor|].
    rewrite app_nil_r. destruct (live w'); reflexivity.
  - unfold bind, client_query_checked, upsert_cap in H.
    destruct (has_cap_entry s (live w)) eqn:Hc.
    { destruct (faults w) as [[|k]|]; discriminate H. }
    assert (forall w1,
               live w1 = mkTables (leads (live w)) (orders (live w))
                                  (state_caps (live w) ++ [(s, m)])
                                  (orders_seq (live w)) ->
               upsert_caps rest w1 = (Ok u, w') ->
               Forall (fun en => has_cap_entry (fst en) (live w) = false)
                      ((s, m) :: rest)
               /\ live w' = mkTables (leads (live w)) (orders (live w))
                                     (state_caps (live w) ++ (s, m) :: rest)
                                     (orders_seq (live w))) as Hstep.
    { intros w1 Hw1 Hrest. destruct (IH w1 u w' Hrest) as [Hf Hl].
      rewrite Hw1 in Hf, Hl. simpl in Hl. rewrite <- app_assoc in Hl.
      split; [|exact Hl].
      constructor; [exact Hc|].
      eapply Forall_impl; [|exact Hf]. intros en Hen. cbv beta in Hen.
      rewrite has_cap_entry_added in Hen.
      apply orb_false_iff in Hen as [Hen _]. exact Hen. }
    destruct (faults w) as [[|k]|]; [discriminate H| |];
      eapply Hstep; try exact H; reflexivity.
Qed.

Lemma setCaps_tables caps t plan :
  snd (run (setCaps caps) t plan) = t
  \/ exists entries,
       Forall (fun en => has_cap_entry (fst en) t = false) entries
       /\ snd (run (setCaps caps) t plan)
          = mkTables (leads t) (orders t) (state_caps t ++ entries)
                     (orders_seq t).
Proof.
  destruct (run (setCaps caps) t plan) as [[u|err] t'] eqn:E.
  - right. destruct caps as [entries|]; [|discriminate E].
    exists entries. unfold run, setCaps, transaction in E.
    destruct (upsert_caps entries (db_begin (idle t plan)))
      as [[u'|err] w'] eqn:E'; [|discriminate E].
    destruct (upsert_caps_ok entries _ _ _ E') as [Hf Hl].
    inversion E; subst. split; [exact Hf|]. exact Hl.
  - left. apply (run_atomic _ _ _ _ _ (atomic_setCaps caps) E).
Qed.

Lemma getOrder_tables id t plan : snd (run (getOrder id) t plan) = t.
Proof.
  unfold run, getOrder, idle, bind, client_query, reading; simpl.
  destruct plan as [[|[|k]]|]; simpl;
    try reflexivity; destruct (select_order id t); reflexivity.
Qed.

(** The tables a call of the interface leaves. *)
Lemma api_after_cases c now plan t :
  api_after c now plan t = t
  \/ (exists r, api_after c now plan t = after r now plan t)
  \/ (exists n e p s,
         api_after c now plan t = snd (insert_lead n e p s now t))
  \/ (exists entries,
         Forall (fun en => has_cap_entry (fst en) t = false) entries
         /\ api_after c now plan t
            = mkTables (leads t) (orders t) (state_caps t ++ entries)
                       (orders_seq t))
  \/ api_after c now plan t = createTables now t.
Proof.
  destruct c as [r|command p|n e p s|id|caps|]; simpl.
  - right. left. exists r. reflexivity.
  - rewrite execute_world.
    destruct (falsy_string command); [left; reflexivity|].
    destruct (dispatch command p now) as [h|] eqn:Hd; [|left; reflexivity].
    destruct (dispatch_some _ _ _ _ Hd) as [_ Hcases].
    destruct (Hcases t plan) as [H|[r H]]; [left; exact H|].
    right. left. exists r. exact H.
  - destruct (createLead_tables n e p s now t plan) as [H|H];
      [left; exact H|].
    right. right. left. exists n, e, p, s. exact H.
  - left. rewrite getOrder_tables. reflexivity.
  - destruct (setCaps_tables caps t plan) as [H|[entries [Hf H]]];
      [left; exact H|].
    right. right. right. left. exists entries. split; assumption.
  - right. right. right. right. reflexivity.
Qed.

Lemma api_after_well_formed c now plan t :
  well_formed t -> well_formed (api_after c now plan t).
Proof.
  intros [Hu [Hr [Ho [Hl Hc]]]].
  destruct (api_after_cases c now plan t)
    as [H|[[r H]|[[n [e [p [s H]]]]|[[entries [_ H]]|H]]]]; rewrite H.
  - repeat split; assumption.
  - split; [|split; [|split; [|split]]].
    + unfold ids_unique. rewrite (proj1 (after_frame r now plan t)). exact Hu.
    + apply after_refs_issued; assumption.
    + apply after_orders_issued; assumption.
    + apply after_linked; assumption.
    + apply after_consistent; assumption.
  - destruct (appended_unassigned_keeps t (snd (insert_lead n e p s now t))
                [mkLead (next_lead_id t) n e p s Unassigned None now now])
      as [K1 [K2 [K3 [K4 _]]]]; try reflexivity.
    { constructor; [split; reflexivity|constructor]. }
    split; [apply insert_lead_unique, Hu|]. repeat split; auto.
  - repeat split; assumption.
  - destruct (createTables_shape now t)
      as [[new [L1 L3]] [L4 [L5 [_ [_ L9]]]]].
    destruct (appended_unassigned_keeps t (createTables now t) new L1)
      as [K1 [K2 [K3 [K4 _]]]]; try assumption.
    split; [apply L9, Hu|]. repeat split; auto.
Qed.

(** X21. Every call of the interface other than the lead status
    override keeps the tables well formed: lead ids stay unique, no lead
    or order carries an order id that was not handed out, a lead is
    Unassigned exactly when it refers to no order, and the status of an
    order settles the status of its leads.  This holds along any sequence
    of engine calls, dispatcher commands, lead creations, order readings,
    cap settings and starts, under any fault plans. *)
Theorem interface_keeps_tables_well_formed :
  forall t0 t : tables,
    well_formed t0 -> reachable_by_api t0 t -> well_formed t.
Proof.
  intros t0 t Hwf Hreach.
  induction Hreach as [|t c now plan _ IH]; [exact Hwf|].
  apply api_after_well_formed, IH.
Qed.

Lemma in_progress_well_formed : well_formed in_progress.
Proof.
  destruct in_progress_consistent as [Hr [Ho Hc]].
  split; [exact in_progress_unique|]. split; [exact Hr|].
  split; [exact Ho|]. split; [exact in_progress_linked|exact Hc].
Qed.

Lemma interface_keeps_tables_well_formed_witness :
  well_formed
    (api_after (Execute "create_order"
                  (Some (mkParams "Cy" "cy@example.com" None None "" "" ""
                                  None)))
               400 None
       (api_after Start 300 None
          (api_after (CreateLead "Dee" "dee@example.com" None "CA") 200
                     (Some 1%nat)
             (api_after (EngineCall (FulfillOrder 3)) 100 None
                        in_progress)))).
Proof.
  apply (interface_keeps_tables_well_formed in_progress).
  - exact in_progress_well_formed.
  - repeat apply api_step. apply api_start.
Defined.

Lemma has_cap_entry_some R t :
  has_cap_entry R t = true -> exists v, fromEntries (state_caps t) R = Some v.
Proof.
  unfold has_cap_entry. induction (state_caps t) as [|[k v] rows IH]; simpl;
    [discriminate|].
  intros H. destruct (fromEntries rows R) as [v'|] eqn:E;
    [exists v'; reflexivity|].
  apply orb_true_iff in H as [Hk|Hrest].
  - rewrite String.eqb_sym, Hk. exists v. reflexivity.
  - destruct (IH Hrest) as [v' Hv']. discriminate Hv'.
Qed.

Lemma createTables_caps_kept boot R t :
  has_cap_entry R t = true -> has_cap_entry R (createTables boot t) = true.
Proof.
  intros H. unfold createTables.
  destruct (seed_caps default_caps t) as [_ [_ [_ [C4 _]]]].
  destruct (seed_leads boot sample_leads
              (fold_left (fun acc row =>
                            insert_or_ignore_cap (fst row) (snd row) acc)
                         default_caps t)) as [_ [_ [L5 _]]].
  unfold has_cap_entry. rewrite L5. apply C4, H.
Qed.

Lemma api_after_cap_bound c now plan t R :
  ids_unique t -> has_cap_entry R t = true -> cap t R <> 0 ->
  cap_bound R t ->
  has_cap_entry R (api_after c now plan t) = true
  /\ cap (api_after c now plan t) R = cap t R
  /\ cap_bound R (api_after c now plan t).
Proof.
  intros Hu He Hnz Hb.
  destruct (has_cap_entry_some R t He) as [v Hv].
  assert (fromEntries (state_caps t) R <> Some 0) as Hz.
  { intros H0. apply Hnz. unfold cap. rewrite H0. reflexivity. }
  destruct (api_after_cases c now plan t)
    as [H|[[r H]|[[n [e [p [s H]]]]|[[entries [Hf H]]|H]]]]; rewrite H.
  - repeat split; assumption.
  - destruct (after_frame r now plan t) as [_ Hcaps].
    split; [unfold has_cap_entry; rewrite Hcaps; exact He|].
    split; [unfold cap; rewrite Hcaps; reflexivity|].
    apply after_cap_bound; assumption.
  - destruct (appended_unassigned_keeps t (snd (insert_lead n e p s now t))
                [mkLead (next_lead_id t) n e p s Unassigned None now now])
      as [_ [_ [_ [_ K5]]]]; try reflexivity.
    { constructor; [split; reflexivity|constructor]. }
    split; [exact He|]. split; [reflexivity|].
    unfold cap_bound. rewrite K5. exact Hb.
  - assert (fromEntries (state_caps t ++ entries) R
            = fromEntries (state_caps t) R) as Hsame.
    { rewrite fromEntries_app, fromEntries_absent; [reflexivity|].
      intros Hin. apply in_map_iff in Hin as [en [Hen Hin]].
      rewrite Forall_forall in Hf. specialize (Hf en Hin).
      rewrite Hen in Hf. congruence. }
    split.
    { unfold has_cap_entry; simpl. rewrite existsb_app.
      unfold has_cap_entry in He. rewrite He. reflexivity. }
    split; [unfold cap; simpl; rewrite Hsame; reflexivity|].
    unfold cap_bound, cap, count_assigned in *; simpl. rewrite Hsame.
    exact Hb.
  - destruct (createTables_shape now t)
      as [_ [_ [_ [L6 [L8 _]]]]].
    split; [apply createTables_caps_kept, He|].
    split; [apply L6|].
    unfold cap_bound. rewrite L8, L6. exact Hb.
Qed.

(** X22. The cap of a region that has a cap row other than zero is fixed
    and kept.  Along any sequence of calls of the interface other than
    the lead status override (engine calls, dispatcher commands, lead
    creations, order readings, cap settings and starts, under any fault
    plans) the cap of the region stays what it was, and if the count of
    Assigned leads of the region was within it, it remains within it. *)
Theorem interface_keeps_configured_cap_and_bound :
  forall (t0 t : tables) (R : string),
    ids_unique t0 -> has_cap_entry R t0 = true -> cap t0 R <> 0 ->
    cap_bound R t0 -> reachable_by_api t0 t ->
    cap t R = cap t0 R /\ cap_bound R t.
Proof.
  intros t0 t R Hu He Hnz Hb Hreach.
  assert (ids_unique t /\ has_cap_entry R t = true
          /\ cap t R = cap t0 R /\ cap_bound R t) as [_ [_ H]];
    [|exact H].
  induction Hreach as [|t c now plan _ IH].
  - repeat split; assumption.
  - destruct IH as [Hu' [He' [Hc' Hb']]].
    destruct (api_after_cap_bound c now plan t R Hu' He')
      as [A [B C]]; [congruence|exact Hb'|].
    split; [|split; [exact A|split; [congruence|exact C]]].
    destruct (api_after_cases c now plan t)
      as [H|[[r H]|[[n [e [p [s H]]]]|[[entries [_ H]]|H]]]]; rewrite H.
    + exact Hu'.
    + unfold ids_unique. rewrite (proj1 (after_frame r now plan t)).
      exact Hu'.
    + apply insert_lead_unique, Hu'.
    + exact Hu'.
    + destruct (createTables_shape now t)
        as [_ [_ [_ [_ [_ L9]]]]].
      apply L9, Hu'.
Qed.

Lemma interface_keeps_configured_cap_and_bound_witness :
  cap_bound "CA"
    (api_after (EngineCall (CreateOrder "Cy" "cy@example.com" (Some ["CA"])))
               400 None
       (api_after (SetCaps (Some [("CA", 1); ("WA", 3)])) 300 None
          (api_after Start 200 None
             (api_after (CreateLead "Dee" "dee@example.com" None "CA") 100
                        None in_progress)))).
Proof.
  apply (interface_keeps_configured_cap_and_bound in_progress).
  - exact in_progress_unique.
  - reflexivity.
  - vm_compute. discriminate.
  - unfold cap_bound. vm_compute. discriminate.
  - repeat apply api_step. apply api_start.
Defined.

Lemma after_orders_seq r now plan t :
  orders_seq t <= orders_seq (after r now plan t).
Proof.
  destruct (after_cases r now plan t)
    as [H|[[n [e [s H]]]|[[id H]|[[id H]|[id H]]]]]; rewrite H;
    try (simpl; lia).
  destruct (allocate_other_tables (fromEntries (state_caps t))
              (orders_seq t + 1) now (states_or_default s) []
              (snd (insert_order n e now t))) as [_ [_ [Hseq _]]].
  rewrite Hseq. simpl. lia.
Qed.

Lemma api_after_orders_seq c now plan t :
  orders_seq t <= orders_seq (api_after c now plan t).
Proof.
  destruct (api_after_cases c now plan t)
    as [H|[[r H]|[[n [e [p [s H]]]]|[[entries [_ H]]|H]]]]; rewrite H;
    try (simpl; lia).
  - apply after_orders_seq.
  - destruct (createTables_shape now t) as [_ [_ [L5 _]]]. rewrite L5. lia.
Qed.

(** X23. Order ids are never reused.  An order created after any
    sequence of calls of the interface takes an id above the id of every
    order that was in the table before the sequence, whether that order
    is still there or was deleted in between. *)
Theorem order_ids_are_never_reused :
  forall (t0 t : tables) n e s now plan o assigned t',
    orders_issued t0 -> reachable_by_api t0 t ->
    run (createOrder n e s now) t plan = (Ok (o, assigned), t') ->
    Forall (fun o0 => o_id o0 < o_id o) (orders t0).
Proof.
  intros t0 t n e s now plan o assigned t' Ho Hreach Hrun.
  apply createOrder_ok in Hrun as [Hid _].
  assert (orders_seq t0 <= orders_seq t) as Hseq.
  { clear -Hreach. induction Hreach as [|t c now plan _ IH]; [lia|].
    pose proof (api_after_orders_seq c now plan t). lia. }
  eapply Forall_impl; [|exact Ho]. intros o0 H0. simpl in H0. lia.
Qed.

Lemma order_ids_are_never_reused_witness :
  exists o assigned t',
    run (createOrder "Cy" "cy@example.com" None 200)
        (api_after (EngineCall (DeleteOrder 4)) 100 None in_progress) None
    = (Ok (o, assigned), t')
    /\ o_id o = 5
    /\ Forall (fun o0 => o_id o0 < o_id o) (orders in_progress).
Proof.
  destruct (run (createOrder "Cy" "cy@example.com" None 200)
                (api_after (EngineCall (DeleteOrder 4)) 100 None in_progress)
                None) as [[[o assigned]|err] t'] eqn:E;
    [|vm_compute in E; discriminate E].
  destruct in_progress_consistent as [_ [Ho _]].
  pose proof (order_ids_are_never_reused in_progress _ _ _ _ _ _ _ _ _ Ho
                (api_step _ _ _ _ _ (api_start _)) E) as H.
  exists o, assigned, t'. split; [reflexivity|]. split; [|exact H].
  vm_compute in E. injection E as <- _ _. reflexivity.
Defined.

(** ** The ways to fulfil and to delete an order *)

(** X24. The route, the automation command and the one-time rule agree
    on what fulfilling an order does to the tables, and the route and the
    command agree on deletion altogether.  When no statement fails and
    the order id is not zero, the three ways to fulfil leave the same
    tables, and the route fulfils exactly when the command does. *)
Theorem ways_to_fulfil_and_delete_agree :
  forall (id now : Z) (t : tables) (action : string),
    id <> 0 -> toLowerCase action = "fulfill" ->
    snd (run (fulfillOrderAutomation (Some id) now) t None)
    = snd (run (fulfillOrder id now) t None)
    /\ snd (run (executeOneTimeRule (Some id) action now) t None)
       = snd (run (fulfillOrder id now) t None)
    /\ ((exists o, fst (run (fulfillOrder id now) t None) = Ok o)
        <-> fst (run (fulfillOrderAutomation (Some id) now) t None)
            = Ok (FulfilledSuccessfully id))
    /\ run (deleteOrderAutomation (Some id) now) t None
       = run (deleteOrder id now) t None.
Proof.
  intros id now t action Hid Ha.
  rewrite fulfillOrder_calm, (fulfillOrderAutomation_calm id now t Hid),
    (executeOneTimeRule_fulfill_calm id action now t Hid Ha),
    (deleteOrderAutomation_calm id now t Hid).
  destruct (select_order id t) as [|o rest].
  - repeat split; try reflexivity.
    + intros [o H]. discriminate H.
    + intros H. discriminate H.
  - destruct (order_status_eqb (o_status o) OFulfilled).
    + repeat split; try reflexivity.
      * intros [o' H]. discriminate H.
      * intros H. discriminate H.
    + repeat split; try reflexivity.
      intros _. eexists. reflexivity.
Qed.

Lemma ways_to_fulfil_and_delete_agree_witness :
  snd (run (executeOneTimeRule (Some 3) "Fulfill" 100) in_progress None)
  = snd (run (fulfillOrder 3 100) in_progress None)
  /\ run (deleteOrderAutomation (Some 3) 100) in_progress None
     = run (deleteOrder 3 100) in_progress None.
Proof.
  destruct (ways_to_fulfil_and_delete_agree 3 100 in_progress "Fulfill")
    as [_ [H2 [_ H4]]]; [lia|reflexivity|].
  split; [exact H2|exact H4].
Defined.

(** ** Refusals of the lead status override *)

Lemma no_row_updated id st now t :
  fst (update_lead_status st now id t) = 0 ->
  snd (update_lead_status st now id t) = t
  /\ ~ In id (map l_id (leads t)).
Proof.
  unfold update_lead_status; simpl. intros H.
  assert (filter (fun l => l_id l =? id) (leads t) = []) as Hnone.
  { destruct (filter (fun l => l_id l =? id) (leads t)); [reflexivity|].
    simpl in H. lia. }
  clear H. split.
  - assert (forall ls,
               filter (fun l => l_id l =? id) ls = [] ->
               map (fun l => if l_id l =? id
                             then restatus_lead_row st now l else l) ls = ls)
      as Hmap.
    { induction ls as [|l ls IH]; simpl; [reflexivity|].
      destruct (l_id l =? id); [discriminate|].
      intros Hn. rewrite (IH Hn). reflexivity. }
    rewrite (Hmap _ Hnone). apply set_leads_same.
  - intros Hin. apply in_map_iff in Hin as [l [Hl Hin]].
    assert (In l (filter (fun l => l_id l =? id) (leads t))) as Hf
      by (apply filter_In; split; [exact Hin|apply Z.eqb_eq, Hl]).
    rewrite Hnone in Hf. exact Hf.
Qed.

(** X25. The two refusals of the lead status override change nothing.
    Under any fault plan, an answer 'Invalid status' means that the
    status was missing or not one of the three status names, an answer
    'Lead not found' means that no lead has the given id, and in both
    cases the tables are as the request found them. *)
Theorem override_refusals_change_nothing :
  forall id status now (t : tables) plan err t',
    run (updateLeadStatus id status now) t plan = (Err err, t') ->
    (err = InvalidStatus ->
     t' = t
     /\ forall s, status = Some s -> parse_lead_status s = None)
    /\ (err = LeadNotFound ->
        t' = t /\ ~ In id (map l_id (leads t))).
Proof.
  intros id status now t plan err t' Hrun.
  unfold run, updateLeadStatus, idle in Hrun.
  destruct status as [s|]; [|inversion Hrun; subst; split; intros H;
                              [split; [reflexivity|discriminate]
                              |discriminate H]].
  destruct (parse_lead_status s) as [st|] eqn:Hp;
    [|inversion Hrun; subst; split; intros H;
      [split; [reflexivity|intros s' Hs'; congruence]|discriminate H]].
  assert (forall w0 r w1,
               (updatedLead <- client_query (reading (select_lead id)) ;;
                match updatedLead with
                | [] => throw TypeError
                | l :: _ => ret l
                end) w0 = (r, w1) ->
               r <> Err InvalidStatus /\ r <> Err LeadNotFound) as Htail.
  { intros w0 r w1. unfold bind, client_query, reading.
    destruct (faults w0) as [[|k]|]; simpl;
      try (intros H; inversion H; subst; split; discriminate);
      destruct (select_lead id (live w0));
      intros H; inversion H; subst; split; discriminate. }
  assert (forall sv pl,
             (let (r, w) :=
                (if fst (update_lead_status st now id t) =? 0
                 then throw LeadNotFound
                 else
                   updatedLead <- client_query (reading (select_lead id)) ;;
                   match updatedLead with
                   | [] => throw TypeError
                   | l :: _ => ret l
                   end)
                  (mkWorld (snd (update_lead_status st now id t)) sv pl)
              in (r, live w)) = (Err err, t') ->
             (err = InvalidStatus ->
              t' = t /\ forall s0, Some s = Some s0 ->
                                   parse_lead_status s0 = None)
             /\ (err = LeadNotFound ->
                 t' = t /\ ~ In id (map l_id (leads t)))) as Hstep.
  { intros sv pl H.
    destruct (fst (update_lead_status st now id t) =? 0) eqn:E0.
    - apply Z.eqb_eq in E0. destruct (no_row_updated id st now t E0)
        as [Hsame Hnot].
      inversion H; subst. split; [discriminate|].
      intros _. split; assumption.
    - match type of H with
      | (let (r, w) := ?m ?w0 in _) = _ =>
          destruct (m w0) as [r w1] eqn:Em;
            destruct (Htail w0 r w1 Em) as [N1 N2]
      end.
      inversion H; subst. split; intros ->; [contradiction N1|contradiction N2];
        reflexivity. }
  destruct plan as [[|k]|].
  - unfold bind, client_query in Hrun; simpl in Hrun.
    inversion Hrun; subst. split; discriminate.
  - rewrite bind_stmt_later in Hrun. apply (Hstep _ _ Hrun).
  - rewrite bind_stmt in Hrun. apply (Hstep _ _ Hrun).
Qed.

Lemma override_refusals_change_nothing_witness :
  run (updateLeadStatus 9 (Some "assigned") 100) in_progress None
  = (Err LeadNotFound, in_progress)
  /\ ~ In 9 (map l_id (leads in_progress)).
Proof.
  assert (run (updateLeadStatus 9 (Some "assigned") 100) in_progress None
          = (Err LeadNotFound,
             snd (run (updateLeadStatus 9 (Some "assigned") 100)
                      in_progress None))) as E by reflexivity.
  destruct (override_refusals_change_nothing _ _ _ _ _ _ _ E) as [_ H].
  destruct (H eq_refl) as [H1 H2].
  split; [rewrite E, H1; reflexivity|exact H2].
Defined.
